(** * spur-task: the conversation pipeline of the support-chat backend

    A shallow embedding of the backend's core (token budgeting, the in-memory
    rate limiter, the message repository, cursor decoding and the two chat
    routes) together with the properties its specification states.

    Conventions.
    - A JavaScript string is a sequence of UTF-16 code units: [jsstring] is
      [list N], and [.length] is [length].  Literals are written [js "..."].
    - JavaScript numbers that the code only uses as integers (lengths, token
      counts, epoch milliseconds, limits) are [Z].
    - What the code obtains from outside the repository (zod's validators, the
      platform date parser, PostgreSQL's casts and text output, the model
      client) is gathered in the records [Platform] and [Oracle] and
      passed explicitly.
    - The log keeps the level and the message of each line; the metadata, and
      the [Date.now()] readings that only feed [durationMs], are left out. *)

From Stdlib Require Import ZArith NArith List String Ascii Lia.
From stdpp Require Import base decidable option numbers list sorting gmap.

Open Scope Z_scope.

(* ===================================================================== *)
(** ** JavaScript strings *)
(* ===================================================================== *)

Abbreviation jsstring := (list N).

Fixpoint js (s : string) : jsstring :=
  match s with
  | EmptyString => []
  | String a s' => N_of_ascii a :: js s'
  end.

(** [s.length] as a number. *)
Definition jsLength (s : jsstring) : Z := Z.of_nat (length s).

(** ECMAScript WhiteSpace and LineTerminator code units, the set stripped by
    [String.prototype.trim]. *)
Definition isWhiteSpace (c : N) : bool :=
  ((9 <=? c) && (c <=? 13) || (c =? 32) || (c =? 160) || (c =? 0x1680)
   || (0x2000 <=? c) && (c <=? 0x200A) || (c =? 0x2028) || (c =? 0x2029)
   || (c =? 0x202F) || (c =? 0x205F) || (c =? 0x3000) || (c =? 0xFEFF))%N.

Fixpoint trimStart (s : jsstring) : jsstring :=
  match s with
  | [] => []
  | c :: r => if isWhiteSpace c then trimStart r else s
  end.

Definition trimEnd (s : jsstring) : jsstring :=
  reverse (trimStart (reverse s)).

Definition trim (s : jsstring) : jsstring := trimEnd (trimStart s).

(** [s.split(sep)] for a one-unit separator: always at least one part. *)
Fixpoint split (sep : N) (s : jsstring) : list jsstring :=
  match s with
  | [] => [[]]
  | c :: r =>
      if (c =? sep)%N then [] :: split sep r
      else match split sep r with
           | p :: ps => (c :: p) :: ps
           | [] => [[c]]
           end
  end.

(** The separator of the cursor encoding, ['|']. *)
Definition PIPE : N := 124%N.

(* ===================================================================== *)
(** ** services/llm/tokenBudget.ts *)
(* ===================================================================== *)

Inductive Sender := user | ai.

#[global] Instance Sender_eq_dec : EqDecision Sender.
Proof. solve_decision. Defined.

Record ChatTurn := { role : Sender; content : jsstring }.

#[global] Instance ChatTurn_eq_dec : EqDecision ChatTurn.
Proof. solve_decision. Defined.

(** [Math.ceil(n / d)] for an integer [n] and a positive integer [d]. *)
Definition ceilDiv (n d : Z) : Z := - ((- n) / d).

(** [Math.ceil(m.content.length / 4)] *)
Definition tokensOf (m : ChatTurn) : Z := ceilDiv (jsLength (content m)) 4.

Record Budgeted := {
  selectedNewestToOldest : list ChatTurn;
  usedTokens : Z
}.

(** The [for ... of] loop of [takeRecentWithinTokenBudget]: [selected] and
    [used] are the two locals, [break] returns them as they stand. *)
Fixpoint takeLoop (maxTokens : Z) (rest selected : list ChatTurn) (used : Z)
  : Budgeted :=
  match rest with
  | [] => {| selectedNewestToOldest := selected; usedTokens := used |}
  | m :: rest' =>
      let tokens := tokensOf m in
      if used + tokens >? maxTokens
      then {| selectedNewestToOldest := selected; usedTokens := used |}
      else takeLoop maxTokens rest' (selected ++ [m]) (used + tokens)
  end.

Definition takeRecentWithinTokenBudget
  (maxTokens : Z) (newestToOldest : list ChatTurn) : Budgeted :=
  takeLoop maxTokens newestToOldest [] 0.

(** Sum of the per-turn costs of a list of turns. *)
Definition totalTokens (l : list ChatTurn) : Z :=
  fold_right (fun m acc => tokensOf m + acc) 0 l.

(* ===================================================================== *)
(** ** services/rateLimit.ts *)
(* ===================================================================== *)

Record Entry := { count : Z; resetAt : Z }.

Record AllowArgs := { key : jsstring; windowMs : Z; max : Z }.

(** [{ allowed: true }] leaves [retryAfterMs] undefined. *)
Record AllowResult := { allowed : bool; retryAfterMs : option Z }.

(** [allowRequest], with the module-level [buckets] map threaded through and
    the reading of [Date.now()] given as [now].  [entry.count += 1] mutates
    the entry the map holds, which is an update of the map at that key. *)
Definition allowRequest (args : AllowArgs) (now : Z)
  (buckets : gmap jsstring Entry) : AllowResult * gmap jsstring Entry :=
  match buckets !! key args with
  | Some entry =>
      if resetAt entry <=? now then
        ({| allowed := true; retryAfterMs := None |},
         <[key args := {| count := 1; resetAt := now + windowMs args |}]> buckets)
      else if count entry >=? max args then
        ({| allowed := false; retryAfterMs := Some (resetAt entry - now) |},
         buckets)
      else
        ({| allowed := true; retryAfterMs := None |},
         <[key args := {| count := count entry + 1;
                          resetAt := resetAt entry |}]> buckets)
  | None =>
      ({| allowed := true; retryAfterMs := None |},
       <[key args := {| count := 1; resetAt := now + windowMs args |}]> buckets)
  end.

(** A request stream against the limiter: each call carries its arguments and
    the clock reading it observes. *)
Record Call := { callArgs : AllowArgs; callNow : Z }.

Fixpoint runCalls (calls : list Call) (buckets : gmap jsstring Entry)
  : list AllowResult * gmap jsstring Entry :=
  match calls with
  | [] => ([], buckets)
  | c :: rest =>
      let '(r, b1) := allowRequest (callArgs c) (callNow c) buckets in
      let '(rs, b2) := runCalls rest b1 in
      (r :: rs, b2)
  end.

(** How many of the calls made with key [k] were answered [allowed: true]. *)
Fixpoint allowedFor (k : jsstring) (calls : list Call) (rs : list AllowResult)
  : Z :=
  match calls, rs with
  | c :: calls', r :: rs' =>
      (if decide (key (callArgs c) = k) then
         (if allowed r then 1 else 0)
       else 0) + allowedFor k calls' rs'
  | _, _ => 0
  end.

(** The test at the head of [allowRequest]: no entry yet, or the entry's
    window has elapsed. *)
Definition opensWindow (k : jsstring) (now : Z) (buckets : gmap jsstring Entry)
  : bool :=
  match buckets !! k with
  | Some entry => resetAt entry <=? now
  | None => true
  end.

(* ===================================================================== *)
(** ** What lies outside the repository *)
(* ===================================================================== *)

(** The library and database functions the routes and the repository call.
    A [None] of [dateParse] is [NaN]; a [None] of a cast is the statement
    failing with an invalid-text-representation error.  [pgUuidOut] and
    [pgTimestamptzOut] give the text a [uuid] or [timestamptz] column value
    takes when a row field is interpolated into a template literal. *)
Record Platform := {
  zodDatetime : jsstring -> bool;
  zodUuid : jsstring -> bool;
  dateParse : jsstring -> option Z;
  toISOString : Z -> jsstring;
  pgUuidIn : jsstring -> option N;
  pgTimestamptzIn : jsstring -> option Z;
  pgUuidOut : N -> jsstring;
  pgTimestamptzOut : Z -> jsstring
}.

(** env.ts, the settings the core reads. *)
Record Env := {
  CHAT_PAGE_SIZE : Z;
  OPENAI_API_KEY : option jsstring;
  LLM_MAX_CONTEXT_TOKENS : Z;
  MAX_MESSAGE_CHARS : Z
}.

(** LangChain's message objects, and what [model.invoke] does: it throws
    (timeout, provider error, malformed response) or returns a result whose
    [content] may be null. *)
Inductive LcMessage :=
  | SystemMessage (c : jsstring)
  | HumanMessage (c : jsstring)
  | AIMessage (c : jsstring).

Inductive Completion :=
  | InvokeThrows
  | InvokeReturns (resContent : option jsstring).

(** Sources of the values the code draws from its surroundings, indexed by
    the number of draws made so far: [randomUUID()], [new Date()] and
    [Date.now()] in epoch milliseconds, whether a [pool.query] round trip
    fails for reasons of its own (connectivity), and the model's answer. *)
Record Oracle := {
  randomUUID : nat -> jsstring;
  dateNow : nat -> Z;
  queryFails : nat -> bool;
  invoke : nat -> list LcMessage -> Completion
}.

(* ===================================================================== *)
(** ** The database (db/init.ts) *)
(* ===================================================================== *)

(** A row of [messages]: [id uuid], [conversation_id uuid], [sender text],
    [text text], [created_at timestamptz]. *)
Record DbMessage := {
  m_id : N;
  m_conversation_id : N;
  m_sender : Sender;
  m_text : jsstring;
  m_created_at : Z
}.

#[global] Instance DbMessage_eq_dec : EqDecision DbMessage.
Proof. solve_decision. Defined.

(** The two tables.  Of [conversations] only the primary key is ever read. *)
Record Db := {
  conversations : gset N;
  messages : list DbMessage
}.

(** The ordering key [(created_at, id)] and PostgreSQL's row comparison
    [(a, b) < (c, d)]. *)
Definition keyOf (m : DbMessage) : Z * N := (m_created_at m, m_id m).

Definition keyLtb (a b : Z * N) : bool :=
  (a.1 <? b.1) || ((a.1 =? b.1) && (a.2 <? b.2)%N).

(** [ORDER BY created_at DESC, id DESC]: [x] may stand before [y]. *)
Definition descOrder (x y : DbMessage) : Prop :=
  keyLtb (keyOf x) (keyOf y) = false.

#[global] Instance descOrder_dec x y : Decision (descOrder x y).
Proof. unfold descOrder. apply _. Defined.

(** [SELECT ... WHERE conversation_id = cid AND keep ORDER BY created_at DESC,
    id DESC LIMIT limit] *)
Definition selectDesc (cid : N) (keep : DbMessage -> bool) (limit : nat)
  (rows : list DbMessage) : list DbMessage :=
  take limit
    (merge_sort descOrder
       (List.filter (fun m => bool_decide (m_conversation_id m = cid) && keep m)
          rows)).

(* ===================================================================== *)
(** ** Effects: state, exceptions and the log (logger.ts) *)
(* ===================================================================== *)

Inductive Error :=
  | StorageFailure
  | InvalidTextRepresentation
  | ForeignKeyViolation
  | UniqueViolation
  | InvalidLimit
  | ApiKeyNotConfigured
  | CompletionFailure.

Inductive Level := debug | info | warn | error.

Record World := {
  db : Db;
  buckets : gmap jsstring Entry;
  draws : nat;
  logged : list (Level * string)
}.

Inductive Outcome (A : Type) :=
  | Ok (a : A)
  | Throw (e : Error).
Arguments Ok {A} a.
Arguments Throw {A} e.

Definition M (A : Type) : Type := Oracle -> World -> Outcome A * World.

#[global] Instance M_ret : MRet M := fun A a _ w => (Ok a, w).

#[global] Instance M_bind : MBind M := fun A B f m o w =>
  match m o w with
  | (Ok a, w') => f a o w'
  | (Throw e, w') => (Throw e, w')
  end.

Definition throw {A} (e : Error) : M A := fun _ w => (Throw e, w).

(** [try { body } catch { handler }]: what [body] did to the world stays. *)
Definition tryCatch {A} (body : M A) (handler : Error -> M A) : M A :=
  fun o w =>
    match body o w with
    | (Ok a, w') => (Ok a, w')
    | (Throw e, w') => handler e o w'
    end.

Definition getDb : M Db := fun _ w => (Ok (db w), w).

Definition putDb (d : Db) : M unit := fun _ w =>
  (Ok tt, {| db := d; buckets := buckets w; draws := draws w;
             logged := logged w |}).

(** One draw from the surroundings: the index of the draw. *)
Definition draw : M nat := fun _ w =>
  (Ok (draws w), {| db := db w; buckets := buckets w; draws := S (draws w);
                    logged := logged w |}).

Definition oracle : M Oracle := fun o w => (Ok o, w).

(** [log(level, message, meta)]: the line is appended, without its
    metadata. *)
Definition log (level : Level) (message : string) : M unit := fun _ w =>
  (Ok tt, {| db := db w; buckets := buckets w; draws := draws w;
             logged := logged w ++ [(level, message)] |}).

(** [Date.now()] and [new Date()]. *)
Definition Date_now : M Z := n ← draw; o ← oracle; mret (dateNow o n).

(** The start of every [pool.query]: the round trip itself may fail. *)
Definition roundTrip : M unit :=
  n ← draw; o ← oracle;
  if queryFails o n then throw StorageFailure else mret tt.

Definition cast {A} (v : option A) : M A :=
  match v with
  | Some a => mret a
  | None => throw InvalidTextRepresentation
  end.

(* ===================================================================== *)
(** ** repos/chatRepo.ts *)
(* ===================================================================== *)

(** [MessageRow], a row as the routes see it. *)
Record MessageRow := {
  id : jsstring;
  conversation_id : jsstring;
  sender : Sender;
  text : jsstring;
  created_at : jsstring
}.

#[global] Instance MessageRow_eq_dec : EqDecision MessageRow.
Proof. solve_decision. Defined.

Definition toRow (P : Platform) (m : DbMessage) : MessageRow :=
  {| id := pgUuidOut P (m_id m);
     conversation_id := pgUuidOut P (m_conversation_id m);
     sender := m_sender m;
     text := m_text m;
     created_at := pgTimestamptzOut P (m_created_at m) |}.

(** [INSERT INTO conversations (id) VALUES ($1::uuid) ON CONFLICT (id) DO
    NOTHING] *)
Definition ensureConversation (P : Platform) (conversationId : jsstring)
  : M unit :=
  roundTrip;;
  cid ← cast (pgUuidIn P conversationId);
  d ← getDb;
  putDb {| conversations := {[cid]} ∪ conversations d;
           messages := messages d |}.

(** [insertMessage]: the primary key and the foreign key of [messages] are
    checked by the statement. *)
Definition insertMessage (P : Platform) (conversationId : jsstring)
  (who : Sender) (body : jsstring) (createdAtArg : option Z)
  : M (jsstring * Z) :=
  n ← draw; o ← oracle;
  let newId := randomUUID o n in
  createdAt ← match createdAtArg with
              | Some d => mret d
              | None => Date_now
              end;
  roundTrip;;
  idv ← cast (pgUuidIn P newId);
  cid ← cast (pgUuidIn P conversationId);
  ts ← cast (pgTimestamptzIn P (toISOString P createdAt));
  d ← getDb;
  if bool_decide (idv ∈ map m_id (messages d)) then throw UniqueViolation
  else if bool_decide (cid ∈ conversations d) then
    putDb {| conversations := conversations d;
             messages := messages d ++
               [{| m_id := idv; m_conversation_id := cid; m_sender := who;
                   m_text := body; m_created_at := ts |}] |};;
    mret (newId, createdAt)
  else throw ForeignKeyViolation.

(** [getRecentMessages]: newest rows first from the database, reversed to
    oldest first. *)
Definition getRecentMessages (P : Platform) (conversationId : jsstring)
  (limit : Z) : M (list MessageRow) :=
  roundTrip;;
  cid ← cast (pgUuidIn P conversationId);
  if limit <? 0 then throw InvalidLimit
  else
    d ← getDb;
    mret (reverse (map (toRow P)
            (selectDesc cid (fun _ => true) (Z.to_nat limit) (messages d)))).

Record OlderArgs := {
  conversationId : jsstring;
  cursorCreatedAt : jsstring;
  cursorId : option jsstring;
  limit : Z
}.

(** A JavaScript string is truthy when it is present and not empty. *)
Definition truthy (s : option jsstring) : bool :=
  match s with
  | Some (_ :: _) => true
  | _ => false
  end.

(** [getOlderMessages]: the composite comparison when [cursorId] is truthy,
    the comparison on the time stamp alone otherwise. *)
Definition getOlderMessages (P : Platform) (args : OlderArgs)
  : M (list MessageRow) :=
  roundTrip;;
  cid ← cast (pgUuidIn P (conversationId args));
  ts ← cast (pgTimestamptzIn P (cursorCreatedAt args));
  keep ← (if truthy (cursorId args) then
            cur ← cast (pgUuidIn P (default [] (cursorId args)));
            mret (fun m => keyLtb (keyOf m) (ts, cur))
          else
            mret (fun m => m_created_at m <? ts));
  if limit args <? 0 then throw InvalidLimit
  else
    d ← getDb;
    mret (reverse (map (toRow P)
            (selectDesc cid keep (Z.to_nat (limit args)) (messages d)))).

(* ===================================================================== *)
(** ** services/llm/faq.ts and services/llm/supportAgent.ts *)
(* ===================================================================== *)

Definition FAQ_SEED : jsstring := trim (js "
FAQ / Store Policies

Shipping Policy:
- Orders are processed in 1-2 business days.
- Standard shipping typically takes 3-7 business days.
- Expedited shipping options may be available at checkout.

Returns & Refunds:
- Returns are accepted within 30 days of delivery.
- Items must be unused and in original packaging.
- Refunds are issued to the original payment method within 5-10 business days after we receive and inspect the return.

Support Hours:
- Monday to Friday, 9am to 5pm (local time).
- We respond to most inquiries within 24 business hours.
").

Definition SYSTEM_PROMPT : jsstring := js
"You are a helpful support agent for a small e-commerce store.
Only answer questions related to:
- orders
- shipping
- returns
- refunds
- store policies
- customer support

If a question is unrelated, politely refuse and redirect the user to store-related topics.
Do not perform general knowledge tasks, homework, coding, math, or image generation.".

Definition FALLBACK_REPLY : jsstring :=
  js "I'm sorry - I couldn't generate a response right now.".

(** The candidate history of [generateSupportReply]: the new user message as
    the freshest turn, then the given turns newest first. *)
Definition newestToOldestOf (historyOldestToNewest : list ChatTurn)
  (userMessage : jsstring) : list ChatTurn :=
  {| role := user; content := userMessage |} :: reverse historyOldestToNewest.

(** [Math.max(1, env.LLM_MAX_CONTEXT_TOKENS)] *)
Definition budgetOf (env : Env) : Z := Z.max 1 (LLM_MAX_CONTEXT_TOKENS env).

Definition toLc (m : ChatTurn) : LcMessage :=
  match role m with
  | user => HumanMessage (content m)
  | ai => AIMessage (content m)
  end.

Definition lcMessagesOf (env : Env) (historyOldestToNewest : list ChatTurn)
  (userMessage : jsstring) : list LcMessage :=
  let budgeted :=
    takeRecentWithinTokenBudget (budgetOf env)
      (newestToOldestOf historyOldestToNewest userMessage) in
  let selectedOldestToNewest := reverse (selectedNewestToOldest budgeted) in
  SystemMessage (SYSTEM_PROMPT ++ [10; 10]%N ++ FAQ_SEED)
    :: map toLc selectedOldestToNewest.

Definition generateSupportReply (env : Env)
  (historyOldestToNewest : list ChatTurn) (userMessage : jsstring)
  : M jsstring :=
  if truthy (OPENAI_API_KEY env) then
    n ← draw; o ← oracle;
    match invoke o n (lcMessagesOf env historyOldestToNewest userMessage) with
    | InvokeThrows => throw CompletionFailure
    | InvokeReturns resContent =>
        let text := trim (default [] resContent) in
        mret (match text with [] => FALLBACK_REPLY | _ => text end)
    end
  else throw ApiKeyNotConfigured.

(* ===================================================================== *)
(** ** HTTP responses *)
(* ===================================================================== *)

(** The JSON bodies.  [HistoryJson] holds the rows as the route has them;
    their serialization is not modelled. *)
Inductive Payload :=
  | ErrorJson (error : jsstring)
  | ReplyJson (reply sessionId : jsstring)
  | HistoryJson (messages : list MessageRow) (nextCursor : option jsstring).

Record Response := {
  status : Z;
  retryAfter : option Z;
  payload : Payload
}.

Definition respond (code : Z) (p : Payload) : Response :=
  {| status := code; retryAfter := None; payload := p |}.

Definition INVALID_REQUEST : jsstring := js "Invalid request".
Definition MESSAGE_EMPTY : jsstring := js "Message is empty".
Definition MESSAGE_TOO_LONG : jsstring := js "Message is too long".
Definition SOMETHING_WENT_WRONG : jsstring :=
  js "Something went wrong. Please try again.".
Definition LLM_APOLOGY : jsstring :=
  js "I'm sorry - I'm having trouble responding right now. Please try again in a moment.".
Definition OVERLOADED_SESSION : jsstring :=
  js "The system is overloaded. Please wait a moment before sending more messages.".
Definition OVERLOADED_IP : jsstring :=
  js "The system is overloaded. Please try again shortly.".

(* ===================================================================== *)
(** ** middleware/rateLimitMiddleware.ts *)
(* ===================================================================== *)

(** The limiter run against the process-wide [buckets]. *)
Definition onBuckets (args : AllowArgs) (now : Z) : M AllowResult :=
  fun _ w =>
    let '(r, b) := allowRequest args now (buckets w) in
    (Ok r, {| db := db w; buckets := b; draws := draws w;
              logged := logged w |}).

Definition allow (args : AllowArgs) : M AllowResult :=
  now ← Date_now; onBuckets args now.

Definition blocked (r : AllowResult) (message : jsstring) : M Response :=
  log warn "rate_limit.blocked";;
  mret {| status := 429;
          retryAfter := match retryAfterMs r with
                        | Some ms => if ms =? 0 then None
                                     else Some (ceilDiv ms 1000)
                        | None => None
                        end;
          payload := ErrorJson message |}.

(** [rateLimitMessage]: per session when the body carries a non-empty string
    [sessionId], per address otherwise; [next] is the route handler. *)
Definition rateLimitMessage (ip : jsstring) (bodySessionId : option jsstring)
  (next : M Response) : M Response :=
  if truthy bodySessionId then
    perSession ← allow {| key := js "msg:sess:" ++ default [] bodySessionId;
                          windowMs := 10000; max := 5 |};
    if allowed perSession then next
    else blocked perSession OVERLOADED_SESSION
  else
    perIp ← allow {| key := js "msg:ip:" ++ ip; windowMs := 60000; max := 20 |};
    if allowed perIp then next else blocked perIp OVERLOADED_IP.

Definition rateLimitHistory (ip : jsstring) (next : M Response) : M Response :=
  perIp ← allow {| key := js "hist:ip:" ++ ip; windowMs := 60000; max := 120 |};
  if allowed perIp then next else blocked perIp OVERLOADED_IP.

(* ===================================================================== *)
(** ** routes/chatRoute.ts: POST /message *)
(* ===================================================================== *)

(** The JSON body: a field is [None] when it is missing or not a string. *)
Record MessageBody := {
  bodyMessage : option jsstring;
  bodySessionId : option jsstring
}.

(** [postMessageSchema.safeParse]: [message] is trimmed and must keep at least
    one unit, [sessionId] must be a UUID. *)
Definition parsePostMessage (P : Platform) (b : MessageBody)
  : option (jsstring * jsstring) :=
  match bodyMessage b, bodySessionId b with
  | Some m, Some s =>
      let message := trim m in
      if (1 <=? jsLength message) && zodUuid P s then Some (message, s)
      else None
  | _, _ => None
  end.

(** The character class of the regular expression: U+200B to U+200F, and
    U+FEFF. *)
Definition isInvisible (c : N) : bool :=
  ((0x200B <=? c) && (c <=? 0x200F) || (c =? 0xFEFF))%N.

(** [message.replace(/[\u200B-\u200F\uFEFF]/g, '').trim()] *)
Definition cleanOf (message : jsstring) : jsstring :=
  trim (List.filter (fun c => negb (isInvisible c)) message).

Definition turnOf (m : MessageRow) : ChatTurn :=
  {| role := sender m; content := text m |}.

Definition postMessageHandler (P : Platform) (env : Env) (b : MessageBody)
  : M Response :=
  match parsePostMessage P b with
  | None =>
      log warn "chat.message.validation_failed";;
      mret (respond 400 (ErrorJson INVALID_REQUEST))
  | Some (message, sessionId) =>
      let cleanMessage := cleanOf message in
      if jsLength cleanMessage =? 0 then
        mret (respond 400 (ErrorJson MESSAGE_EMPTY))
      else if jsLength cleanMessage >? MAX_MESSAGE_CHARS env then
        log warn "chat.message.too_long";;
        mret (respond 413 (ErrorJson MESSAGE_TOO_LONG))
      else
        tryCatch
          (log info "chat.message.start";;
           ensureConversation P sessionId;;
           log info "chat.message.ensure_conversation.ok";;
           recentMessages ← getRecentMessages P sessionId (CHAT_PAGE_SIZE env);
           log info "chat.message.get_recent.ok";;
           insertMessage P sessionId user cleanMessage None;;
           log info "chat.message.insert_user.ok";;
           tryCatch
             (let history := map turnOf recentMessages in
              replyText ← generateSupportReply env history cleanMessage;
              log info "chat.message.llm.ok";;
              insertMessage P sessionId ai replyText None;;
              log info "chat.message.insert_ai.ok";;
              log info "chat.message.finish";;
              mret (respond 200 (ReplyJson replyText sessionId)))
             (fun _ =>
                log error "chat.message.llm_failed";;
                mret (respond 502 (ErrorJson LLM_APOLOGY))))
          (fun _ =>
             log error "chat.message.failed";;
             mret (respond 500 (ErrorJson SOMETHING_WENT_WRONG)))
  end.

(** The route as mounted: the limiter first, then the handler. *)
Definition postMessage (P : Platform) (env : Env) (ip : jsstring)
  (b : MessageBody) : M Response :=
  rateLimitMessage ip (bodySessionId b) (postMessageHandler P env b).

(* ===================================================================== *)
(** ** routes/chatRoute.ts: GET /history *)
(* ===================================================================== *)

(** What [parseCursor] returns when it does not return null. *)
Record Cursor := { createdAt : jsstring; uuid : option jsstring }.

(** The helper [toIso] of [parseCursor]. *)
Definition toIso (P : Platform) (raw : jsstring) : option jsstring :=
  let trimmed := trim raw in
  if zodDatetime P trimmed then Some trimmed
  else match dateParse P trimmed with
       | Some ms => Some (toISOString P ms)
       | None => None
       end.

Definition parseCursor (P : Platform) (cursor : option jsstring)
  : option Cursor :=
  if truthy cursor then
    match split PIPE (default [] cursor) with
    | [p0] =>
        let createdAtIso := toIso P p0 in
        if truthy createdAtIso
        then Some {| createdAt := default [] createdAtIso; uuid := None |}
        else None
    | [p0; p1] =>
        let createdAtIso := toIso P p0 in
        let idText := trim p1 in
        if truthy createdAtIso then
          if zodDatetime P (default [] createdAtIso) && zodUuid P idText
          then Some {| createdAt := default [] createdAtIso;
                       uuid := Some idText |}
          else None
        else None
    | _ => None
    end
  else None.

(** A numeric query parameter under [z.coerce.number()]. *)
Inductive QueryNumber := Missing | NotAnInteger | Int (n : Z).

Record HistoryQuery := {
  querySessionId : option jsstring;
  queryCursor : option jsstring;
  queryLimit : QueryNumber
}.

(** [historyQuerySchema.safeParse] *)
Definition parseHistoryQuery (P : Platform) (q : HistoryQuery)
  : option (jsstring * option jsstring * option Z) :=
  match querySessionId q with
  | Some s =>
      if zodUuid P s then
        match queryLimit q with
        | Missing => Some (s, queryCursor q, None)
        | Int n =>
            if (0 <? n) && (n <=? 100) then Some (s, queryCursor q, Some n)
            else None
        | NotAnInteger => None
        end
      else None
  | None => None
  end.

(** [`${messages[0].created_at}|${messages[0].id}`], or null for an empty
    page. *)
Definition nextCursorOf (page : list MessageRow) : option jsstring :=
  match page with
  | m0 :: _ => Some (created_at m0 ++ [PIPE] ++ id m0)
  | [] => None
  end.

(** The [try] block of the history route, by the query that fetches the
    page. *)
Definition servePage (fetch : M (list MessageRow)) : M Response :=
  tryCatch
    (log info "chat.history.start";;
     page ← fetch;
     log info "chat.history.fetch.ok";;
     let nextCursor := nextCursorOf page in
     log info "chat.history.finish";;
     mret (respond 200 (HistoryJson page nextCursor)))
    (fun _ =>
       log error "chat.history.failed";;
       mret (respond 500 (ErrorJson SOMETHING_WENT_WRONG))).

Definition getHistoryHandler (P : Platform) (env : Env) (q : HistoryQuery)
  : M Response :=
  match parseHistoryQuery P q with
  | None =>
      log warn "chat.history.validation_failed";;
      mret (respond 400 (ErrorJson INVALID_REQUEST))
  | Some (sessionId, cursor, limitArg) =>
      let parsedCursor := parseCursor P cursor in
      if truthy cursor && negb (bool_decide (is_Some parsedCursor)) then
        log warn "chat.history.cursor_invalid";;
        mret (respond 400 (ErrorJson INVALID_REQUEST))
      else
        let pageSize := default (CHAT_PAGE_SIZE env) limitArg in
        servePage
          match parsedCursor with
          | Some c =>
              getOlderMessages P
                {| conversationId := sessionId;
                   cursorCreatedAt := createdAt c;
                   cursorId := uuid c;
                   limit := pageSize |}
          | None => getRecentMessages P sessionId pageSize
          end
  end.

Definition getHistory (P : Platform) (env : Env) (ip : jsstring)
  (q : HistoryQuery) : M Response :=
  rateLimitHistory ip (getHistoryHandler P env q).

(** Rows committed by other requests while a client is paging. *)
Definition concurrentInserts (rows : list DbMessage) : M unit :=
  d ← getDb;
  putDb {| conversations := conversations d; messages := messages d ++ rows |}.

(** A client walking a conversation backwards: it asks for a page, feeds the
    [nextCursor] it got into the next request and stops at [nextCursor: null].
    [writes] lists what other requests insert before each of its requests.
    [None]: out of fuel, or a response that is not a history page. *)
Fixpoint walkHistory (P : Platform) (env : Env) (sessionId : jsstring)
  (pageSize : QueryNumber) (fuel : nat) (writes : list (list DbMessage))
  (cursor : option jsstring) : M (option (list (list MessageRow))) :=
  match fuel with
  | O => mret None
  | S fuel' =>
      concurrentInserts (hd [] writes);;
      r ← getHistoryHandler P env
            {| querySessionId := Some sessionId; queryCursor := cursor;
               queryLimit := pageSize |};
      match payload r with
      | HistoryJson page None => mret (Some [page])
      | HistoryJson page (Some next) =>
          later ← walkHistory P env sessionId pageSize fuel' (tl writes)
                    (Some next);
          mret (cons page <$> later)
      | _ => mret None
      end
  end.

(* ===================================================================== *)
(** ** db/sql.ts *)
(* ===================================================================== *)

(** [String(n)] for a non-negative integer: its decimal digits. *)
Fixpoint digitsOf (fuel : nat) (n : N) : jsstring :=
  match fuel with
  | O => []
  | S fuel' =>
      (if n <? 10 then [48 + n]
       else digitsOf fuel' (n / 10) ++ [48 + n mod 10])%N
  end.

Definition numberText (n : nat) : jsstring := digitsOf (S n) (N.of_nat n).

(** ['$'] *)
Definition DOLLAR : N := 36%N.

(** The [forEach] of the tag [sql] over the literal chunks: [i] is the index
    of the chunk, [text] and [params] are the two locals.  [values !! i] is
    present exactly when [i < values.length]. *)
Fixpoint sqlLoop {V} (strings : list jsstring) (i : nat) (values : list V)
  (text : jsstring) (params : list V) : jsstring * list V :=
  match strings with
  | [] => (text, params)
  | chunk :: rest =>
      let text := text ++ chunk in
      match values !! i with
      | Some v =>
          let params := params ++ [v] in
          sqlLoop rest (S i) values
            (text ++ [DOLLAR] ++ numberText (length params)) params
      | None => sqlLoop rest (S i) values text params
      end
  end.

(** [sql]: the pair is the object [{ text, values: params }]. *)
Definition sql {V} (strings : list jsstring) (values : list V)
  : jsstring * list V :=
  sqlLoop strings 0 values [] [].

(* ===================================================================== *)
(** ** frontend: storage.ts *)
(* ===================================================================== *)

Definition SESSION_ID_KEY : jsstring := js "spur_chat_session_id".

(** [getOrCreateSessionId]: [localStorage] is passed in and returned;
    [newId] is what [crypto.randomUUID()] gives if it is called. *)
Definition getOrCreateSessionId (newId : jsstring)
  (localStorage : gmap jsstring jsstring)
  : jsstring * gmap jsstring jsstring :=
  let existing := localStorage !! SESSION_ID_KEY in
  if truthy existing then (default [] existing, localStorage)
  else (newId, <[SESSION_ID_KEY := newId]> localStorage).

(* ===================================================================== *)
(** ** env.ts: the schema *)
(* ===================================================================== *)

(** [process.env]: a variable is absent or a string; of a variable read
    under [z.coerce.number()] only what [Number] makes of the string
    matters. *)
Module ProcessEnv.
Record t := {
  PORT : QueryNumber;
  CORS_ORIGIN : option jsstring;
  LOG_FILE : option jsstring;
  DATABASE_URL : option jsstring;
  CHAT_PAGE_SIZE : QueryNumber;
  OPENAI_API_KEY : option jsstring;
  LLM_MODEL : option jsstring;
  LLM_MAX_CONTEXT_TOKENS : QueryNumber;
  LLM_MAX_COMPLETION_TOKENS : QueryNumber;
  LLM_TIMEOUT_MS : QueryNumber;
  RATE_LIMIT_WINDOW_MS : QueryNumber;
  RATE_LIMIT_MAX_REQUESTS : QueryNumber;
  MAX_MESSAGE_CHARS : QueryNumber
}.
End ProcessEnv.

(** [z.coerce.number().int().positive().default(d)], with [.max(m)] when a
    maximum is given. *)
Definition coercePositive (v : QueryNumber) (d : Z) (maximum : option Z)
  : option Z :=
  match v with
  | Missing => Some d
  | NotAnInteger => None
  | Int n =>
      if (0 <? n) && (match maximum with
                      | Some m => n <=? m
                      | None => true
                      end)
      then Some n else None
  end.

(** [envSchema.parse(process.env)]: [None] when it throws.  Every field is
    validated; the result keeps the fields the embedded code reads. *)
Definition envSchema_parse (e : ProcessEnv.t) : option Env :=
  _ ← coercePositive (ProcessEnv.PORT e) 3001 None;
  _ ← match ProcessEnv.DATABASE_URL e with
      | Some url => if 1 <=? jsLength url then Some url else None
      | None => None
      end;
  pageSize ← coercePositive (ProcessEnv.CHAT_PAGE_SIZE e) 10 (Some 100);
  contextTokens ←
    coercePositive (ProcessEnv.LLM_MAX_CONTEXT_TOKENS e) 2000 None;
  _ ← coercePositive (ProcessEnv.LLM_MAX_COMPLETION_TOKENS e) 400 None;
  _ ← coercePositive (ProcessEnv.LLM_TIMEOUT_MS e) 20000 None;
  _ ← coercePositive (ProcessEnv.RATE_LIMIT_WINDOW_MS e) 60000 None;
  _ ← coercePositive (ProcessEnv.RATE_LIMIT_MAX_REQUESTS e) 60 None;
  messageChars ←
    coercePositive (ProcessEnv.MAX_MESSAGE_CHARS e) 2000 (Some 10000);
  Some {| CHAT_PAGE_SIZE := pageSize;
          OPENAI_API_KEY := ProcessEnv.OPENAI_API_KEY e;
          LLM_MAX_CONTEXT_TOKENS := contextTokens;
          MAX_MESSAGE_CHARS := messageChars |}.

(* ===================================================================== *)
(** ** A reference platform *)
(* ===================================================================== *)

(** One concrete reading of the outside functions, used to run the model:
    ISO-8601 UTC time stamps with millisecond precision
    ([YYYY-MM-DDTHH:MM:SS.mmmZ]), canonical lower-case UUID text, and a date
    parser that, besides the ISO form, takes the date-only form
    [YYYY-MM-DD] and the text of a [Date].  It covers the forms the examples
    use, not every form [Date.parse] and PostgreSQL read.  In [refPlatform]
    a [created_at] prints as ISO text, as it would with a type parser that
    returns the column as a string; [dateTextPlatform] below is the platform
    the routes run on under db/pool.ts, where it prints as a [Date]. *)

Definition isDigit (c : N) : bool := ((48 <=? c) && (c <=? 57))%N.

Definition isHex (c : N) : bool :=
  (isDigit c || (97 <=? c) && (c <=? 102) || (65 <=? c) && (c <=? 70))%N.

Definition hexValue (c : N) : N :=
  (if isDigit c then c - 48
   else if (97 <=? c) && (c <=? 102) then c - 87
   else c - 55)%N.

Definition hexUnit (v : N) : N := (if v <? 10 then 48 + v else 87 + v)%N.

(** [n] in decimal, padded to [width] digits. *)
Fixpoint decimal (width : nat) (n : Z) : jsstring :=
  match width with
  | O => []
  | S w => decimal w (n / 10) ++ [Z.to_N (48 + n mod 10)]
  end.

Definition numberOf (s : jsstring) : Z :=
  fold_left (fun acc c => 10 * acc + (Z.of_N c - 48)) s 0.

(** [n] in hexadecimal, padded to [width] digits. *)
Fixpoint hexadecimal (width : nat) (n : N) : jsstring :=
  match width with
  | O => []
  | S w => hexadecimal w (n / 16) ++ [hexUnit (n mod 16)]
  end.

Definition hexNumberOf (s : jsstring) : N :=
  fold_left (fun acc c => 16 * acc + hexValue c)%N s 0%N.

(** Days since 1970-01-01 of a proleptic Gregorian date, and back. *)
Definition daysFromCivil (y m d : Z) : Z :=
  let y' := if m <=? 2 then y - 1 else y in
  let era := y' / 400 in
  let yoe := y' - era * 400 in
  let doy := (153 * (if 2 <? m then m - 3 else m + 9) + 2) / 5 + d - 1 in
  let doe := yoe * 365 + yoe / 4 - yoe / 100 + doy in
  era * 146097 + doe - 719468.

Definition civilFromDays (z : Z) : Z * Z * Z :=
  let z' := z + 719468 in
  let era := z' / 146097 in
  let doe := z' - era * 146097 in
  let yoe := (doe - doe / 1460 + doe / 36524 - doe / 146096) / 365 in
  let doy := doe - (365 * yoe + yoe / 4 - yoe / 100) in
  let mp := (5 * doy + 2) / 153 in
  let d := doy - (153 * mp + 2) / 5 + 1 in
  let m := if mp <? 10 then mp + 3 else mp - 9 in
  ((if m <=? 2 then yoe + era * 400 + 1 else yoe + era * 400), m, d).

Definition isLetter (c : N) : bool :=
  ((65 <=? c) && (c <=? 90) || (97 <=? c) && (c <=? 122))%N.

(** Does [s] follow [shape]?  In a shape, ['9'] stands for a decimal digit,
    ['h'] for a hexadecimal digit, ['a'] for a letter, ['+'] for a sign, any
    other unit for itself. *)
Fixpoint follows (shape s : jsstring) : bool :=
  match shape, s with
  | [], [] => true
  | p :: shape', c :: s' =>
      (if (p =? 57)%N then isDigit c
       else if (p =? 104)%N then isHex c
       else if (p =? 97)%N then isLetter c
       else if (p =? 43)%N then (c =? 43)%N || (c =? 45)%N
       else (p =? c)%N) && follows shape' s'
  | _, _ => false
  end.

Definition slice (from len : nat) (s : jsstring) : jsstring :=
  take len (drop from s).

Definition refToISOString (ms : Z) : jsstring :=
  let '(y, m, d) := civilFromDays (ms / 86400000) in
  let t := ms mod 86400000 in
  decimal 4 y ++ js "-" ++ decimal 2 m ++ js "-" ++ decimal 2 d ++ js "T"
    ++ decimal 2 (t / 3600000) ++ js ":" ++ decimal 2 (t / 60000 mod 60)
    ++ js ":" ++ decimal 2 (t / 1000 mod 60) ++ js "."
    ++ decimal 3 (t mod 1000) ++ js "Z".

Definition refDateOf (s : jsstring) : Z :=
  daysFromCivil (numberOf (slice 0 4 s)) (numberOf (slice 5 2 s))
    (numberOf (slice 8 2 s)) * 86400000.

Definition refIsoParse (s : jsstring) : option Z :=
  if follows (js "9999-99-99T99:99:99.999Z") s then
    Some (refDateOf s + numberOf (slice 11 2 s) * 3600000
          + numberOf (slice 14 2 s) * 60000 + numberOf (slice 17 2 s) * 1000
          + numberOf (slice 20 3 s))
  else None.

(** The text form of [Date.prototype.toString], as in
    [Sun Dec 28 2025 23:22:34 GMT+0530 (India Standard Time)]: the name of
    the day is not read, the zone name in brackets is optional. *)
Definition MONTHS : list jsstring :=
  map js ["Jan"; "Feb"; "Mar"; "Apr"; "May"; "Jun";
          "Jul"; "Aug"; "Sep"; "Oct"; "Nov"; "Dec"]%string.

Fixpoint indexOf (x : jsstring) (l : list jsstring) : option nat :=
  match l with
  | [] => None
  | y :: l' => if bool_decide (x = y) then Some O else S <$> indexOf x l'
  end.

Definition refLegacyParse (s : jsstring) : option Z :=
  if follows (js "aaa aaa 99 9999 99:99:99 GMT+9999") (take 33 s)
     && (bool_decide (drop 33 s = [])
         || bool_decide (take 2 (drop 33 s) = js " (")) then
    match indexOf (slice 4 3 s) MONTHS with
    | Some mi =>
        let offset :=
          (numberOf (slice 29 2 s) * 60 + numberOf (slice 31 2 s)) * 60000 in
        Some (daysFromCivil (numberOf (slice 11 4 s)) (Z.of_nat mi + 1)
                (numberOf (slice 8 2 s)) * 86400000
              + numberOf (slice 16 2 s) * 3600000
              + numberOf (slice 19 2 s) * 60000
              + numberOf (slice 22 2 s) * 1000
              - (if bool_decide (slice 28 1 s = js "-") then - offset
                 else offset))
    | None => None
    end
  else None.

Definition refDateParse (s : jsstring) : option Z :=
  match refIsoParse s with
  | Some ms => Some ms
  | None =>
      if follows (js "9999-99-99") s then Some (refDateOf s)
      else refLegacyParse s
  end.

Definition DAYS : list jsstring :=
  map js ["Thu"; "Fri"; "Sat"; "Sun"; "Mon"; "Tue"; "Wed"]%string.

(** [Date.prototype.toString] in a process whose time zone is UTC: whole
    seconds, no milliseconds. *)
Definition refDateToString (ms : Z) : jsstring :=
  let days := ms / 86400000 in
  let '(y, m, d) := civilFromDays days in
  let t := ms mod 86400000 in
  default [] (DAYS !! Z.to_nat (days mod 7)) ++ js " "
    ++ default [] (MONTHS !! Z.to_nat (m - 1)) ++ js " " ++ decimal 2 d
    ++ js " " ++ decimal 4 y ++ js " " ++ decimal 2 (t / 3600000) ++ js ":"
    ++ decimal 2 (t / 60000 mod 60) ++ js ":" ++ decimal 2 (t / 1000 mod 60)
    ++ js " GMT+0000 (Coordinated Universal Time)".

Definition refZodDatetime (s : jsstring) : bool :=
  follows (js "9999-99-99T99:99:99Z") s
  || (follows (js "9999-99-99T99:99:99.") (take 20 s)
      && forallb isDigit (take (length s - 21) (drop 20 s))
      && (21 <? length s)%nat
      && bool_decide (drop (length s - 1) s = js "Z")).

Definition UUID_SHAPE : jsstring := js "hhhhhhhh-hhhh-hhhh-hhhh-hhhhhhhhhhhh".

Definition refUuidIn (s : jsstring) : option N :=
  if follows UUID_SHAPE s
  then Some (hexNumberOf (List.filter isHex s))
  else None.

Definition refUuidOut (n : N) : jsstring :=
  let h := hexadecimal 32 n in
  slice 0 8 h ++ js "-" ++ slice 8 4 h ++ js "-" ++ slice 12 4 h ++ js "-"
    ++ slice 16 4 h ++ js "-" ++ slice 20 12 h.

Definition refPlatform : Platform :=
  {| zodDatetime := refZodDatetime;
     zodUuid := follows UUID_SHAPE;
     dateParse := refDateParse;
     toISOString := refToISOString;
     pgUuidIn := refUuidIn;
     pgTimestamptzIn := refIsoParse;
     pgUuidOut := refUuidOut;
     pgTimestamptzOut := refToISOString |}.

(** The same platform with the [created_at] of a row reading as a [Date]
    does in a template literal.  This is how the routes see the column under
    db/pool.ts, which registers no type parser: node-postgres then hands a
    [timestamptz] value over as a [Date], and [`${messages[0].created_at}`]
    prints it as [Date.prototype.toString] does, the form the comment in
    [parseCursor] quotes
    ([Sun Dec 28 2025 23:22:34 GMT+0530 (India Standard Time)]). *)
Definition dateTextPlatform : Platform :=
  {| zodDatetime := refZodDatetime;
     zodUuid := follows UUID_SHAPE;
     dateParse := refDateParse;
     toISOString := refToISOString;
     pgUuidIn := refUuidIn;
     pgTimestamptzIn := refIsoParse;
     pgUuidOut := refUuidOut;
     pgTimestamptzOut := refDateToString |}.




(* ===================================================================== *)
(** ** Definitions the properties are stated with *)
(* ===================================================================== *)

(** *** The rate limiter *)

(** A call of key [k] with window [w] and limit [M], made at [t0]. *)
Definition openerOf (k : jsstring) (w M t0 : Z) : Call :=
  {| callArgs := {| key := k; windowMs := w; max := M |}; callNow := t0 |}.

(** *** Cursors *)

(** The kinds of malformed cursor the specification names: a first segment
    that is no time stamp, a second segment that is no UUID, more than two
    segments. *)
Definition malformed (P : Platform) (c : jsstring) : Prop :=
  match split PIPE c with
  | [p0] => toIso P p0 = None
  | [p0; p1] => toIso P p0 = None \/ zodUuid P (trim p1) = false
  | _ => True
  end.

(** *** Example values *)

(** Values to run the model on: a configuration, surroundings in which no
    query fails and the model answers [ok], a session and a world holding
    two messages of that session, 400 ms apart within one second. *)
Definition exampleEnv : Env :=
  {| CHAT_PAGE_SIZE := 10; OPENAI_API_KEY := Some (js "sk-test");
     LLM_MAX_CONTEXT_TOKENS := 2000; MAX_MESSAGE_CHARS := 2000 |}.

Definition quietOracle : Oracle :=
  {| randomUUID := fun n =>
       refUuidOut (0x5a1d0c3e7b2a4e6f9d8c000000000000 + N.of_nat n);
     dateNow := fun n => 1766944360000 + Z.of_nat n;
     queryFails := fun _ => false;
     invoke := fun _ _ => InvokeReturns (Some (js "ok")) |}.

Definition exampleSession : jsstring :=
  js "123e4567-e89b-12d3-a456-426614174000".

Definition exampleSessionId : N := 0x123e4567e89b12d3a456426614174000.

(** [2025-12-28T17:52:34.100Z] and [2025-12-28T17:52:34.500Z]. *)
Definition askedMessage : DbMessage :=
  {| m_id := 0x9b2f6c1e3d4a4f5b8c6d7e8f9a0b1c01;
     m_conversation_id := exampleSessionId; m_sender := user;
     m_text := js "where is my order"; m_created_at := 1766944354100 |}.

Definition answeredMessage : DbMessage :=
  {| m_id := 0x9b2f6c1e3d4a4f5b8c6d7e8f9a0b1c02;
     m_conversation_id := exampleSessionId; m_sender := ai;
     m_text := js "it ships tomorrow"; m_created_at := 1766944354500 |}.

Definition exampleMessages : list DbMessage :=
  [askedMessage; answeredMessage].

Definition exampleWorld : World :=
  {| db := {| conversations := {[exampleSessionId]};
              messages := exampleMessages |};
     buckets := ∅; draws := 0; logged := [] |}.

Definition historyQueryOf (cursor : option jsstring) (n : QueryNumber)
  : HistoryQuery :=
  {| querySessionId := Some exampleSession; queryCursor := cursor;
     queryLimit := n |}.

(** *** The send flow in two parts *)

(** The part of the outer [try] block that precedes the model call: the
    conversation is ensured, the recent messages are fetched, the user's
    message is inserted. *)
Definition sendPrelude (P : Platform) (env : Env) (sessionId : jsstring)
  (cleanMessage : jsstring) : M (list MessageRow) :=
  log info "chat.message.start";;
  ensureConversation P sessionId;;
  log info "chat.message.ensure_conversation.ok";;
  recentMessages ← getRecentMessages P sessionId (CHAT_PAGE_SIZE env);
  log info "chat.message.get_recent.ok";;
  insertMessage P sessionId user cleanMessage None;;
  log info "chat.message.insert_user.ok";;
  mret recentMessages.

(** The inner [try] block with its [catch]. *)
Definition sendReply (P : Platform) (env : Env) (sessionId : jsstring)
  (cleanMessage : jsstring) (recentMessages : list MessageRow) : M Response :=
  tryCatch
    (replyText ← generateSupportReply env (map turnOf recentMessages)
                   cleanMessage;
     log info "chat.message.llm.ok";;
     insertMessage P sessionId ai replyText None;;
     log info "chat.message.insert_ai.ok";;
     log info "chat.message.finish";;
     mret (respond 200 (ReplyJson replyText sessionId)))
    (fun _ =>
       log error "chat.message.llm_failed";;
       mret (respond 502 (ErrorJson LLM_APOLOGY))).

(** The outer [catch]. *)
Definition failed500 : M Response :=
  log error "chat.message.failed";;
  mret (respond 500 (ErrorJson SOMETHING_WENT_WRONG)).

(** A request the handler lets through to the [try] block. *)
Definition accepted (P : Platform) (env : Env) (b : MessageBody)
  (sessionId cleanMessage : jsstring) : Prop :=
  exists message,
    parsePostMessage P b = Some (message, sessionId)
    /\ cleanMessage = cleanOf message
    /\ cleanMessage <> []
    /\ jsLength cleanMessage <= MAX_MESSAGE_CHARS env.

(** The lines a completed prelude writes to the log, in order. *)
Definition PRELUDE_LOG : list (Level * string) :=
  [(info, "chat.message.start"%string);
   (info, "chat.message.ensure_conversation.ok"%string);
   (info, "chat.message.get_recent.ok"%string);
   (info, "chat.message.insert_user.ok"%string)].

(** The answers of POST /message, by status and body. *)
Definition answers (resp : Response) : Prop :=
  (status resp = 200 /\ exists reply sid, payload resp = ReplyJson reply sid)
  \/ (status resp = 400 /\ payload resp = ErrorJson INVALID_REQUEST)
  \/ (status resp = 400 /\ payload resp = ErrorJson MESSAGE_EMPTY)
  \/ (status resp = 413 /\ payload resp = ErrorJson MESSAGE_TOO_LONG)
  \/ (status resp = 429 /\ payload resp = ErrorJson OVERLOADED_SESSION)
  \/ (status resp = 429 /\ payload resp = ErrorJson OVERLOADED_IP)
  \/ (status resp = 502 /\ payload resp = ErrorJson LLM_APOLOGY)
  \/ (status resp = 500 /\ payload resp = ErrorJson SOMETHING_WENT_WRONG).

(** A request body whose message is [hello] once trimmed. *)
Definition helloBody : MessageBody :=
  {| bodyMessage := Some (js " hello "); bodySessionId := Some exampleSession |}.

(** Surroundings in which the second round trip to the database, the fetch of
    the recent messages, fails. *)
Definition fetchFailsOracle : Oracle :=
  {| randomUUID := randomUUID quietOracle; dateNow := dateNow quietOracle;
     queryFails := fun n => (n =? 1)%nat; invoke := invoke quietOracle |}.

(** The world with one more line in its log. *)
Definition withLog (w : World) (level : Level) (message : string) : World :=
  {| db := db w; buckets := buckets w; draws := draws w;
     logged := logged w ++ [(level, message)] |}.

(** Surroundings in which the model call throws. *)
Definition llmDownOracle : Oracle :=
  {| randomUUID := randomUUID quietOracle; dateNow := dateNow quietOracle;
     queryFails := queryFails quietOracle;
     invoke := fun _ _ => InvokeThrows |}.

(** *** Paging *)

(** The order of the key [(created_at, id)]. *)
Definition keyLt (a b : Z * N) : Prop :=
  a.1 < b.1 \/ (a.1 = b.1 /\ (a.2 < b.2)%N).

(** Newest first, with no two equal keys. *)
Definition newerThan (x y : DbMessage) : Prop := keyLt (keyOf y) (keyOf x).

(** Oldest first, with no two equal keys: ascending chronological order. *)
Definition olderThan (x y : DbMessage) : Prop := keyLt (keyOf x) (keyOf y).

(** The filter of the query, by the position the cursor stands for. *)
Definition keepOf (cur : option (Z * N)) (m : DbMessage) : bool :=
  match cur with
  | Some k => keyLtb (keyOf m) k
  | None => true
  end.

(** The walk of [walkHistory] on the rows themselves, pages newest first. *)
Fixpoint walkRows (cid : N) (n : nat) (fuel : nat)
  (writes : list (list DbMessage)) (cur : option (Z * N))
  (rows : list DbMessage) : option (list (list DbMessage)) :=
  match fuel with
  | O => None
  | S fuel' =>
      let page := selectDesc cid (keepOf cur) n (rows ++ hd [] writes) in
      match last page with
      | None => Some [page]
      | Some oldest =>
          cons page <$> walkRows cid n fuel' (tl writes) (Some (keyOf oldest))
                          (rows ++ hd [] writes)
      end
  end.

(** The sorted filter behind a page, and the page as its first [n] rows. *)
Definition sortedOf (cid : N) (keep : DbMessage -> bool)
  (rows : list DbMessage) : list DbMessage :=
  merge_sort descOrder
    (List.filter (fun m => bool_decide (m_conversation_id m = cid) && keep m)
       rows).

(** The text of the cursor that points at a row. *)
Definition cursorOf (P : Platform) (m : DbMessage) : jsstring :=
  pgTimestamptzOut P (m_created_at m) ++ [PIPE] ++ pgUuidOut P (m_id m).

(** The cursor text [c] is decoded, and cast by the older-than query, to the
    key [k]. *)
Definition decodesTo (P : Platform) (c : jsstring) (k : Z * N) : bool :=
  match parseCursor P (Some c) with
  | Some cur =>
      match uuid cur with
      | Some idText =>
          truthy (Some idText)
          && bool_decide (pgTimestamptzIn P (createdAt cur) = Some k.1)
          && bool_decide (pgUuidIn P idText = Some k.2)
      | None => false
      end
  | None => false
  end.

(** The cursor that points at a row leads back to the row's own key. *)
Definition faithful (P : Platform) (m : DbMessage) : bool :=
  decodesTo P (cursorOf P m) (keyOf m).

(** The page size of a history request that passes validation. *)
Definition pageSizeOf (env : Env) (qn : QueryNumber) : option Z :=
  match qn with
  | Missing => if 1 <=? CHAT_PAGE_SIZE env then Some (CHAT_PAGE_SIZE env)
               else None
  | Int n => if (0 <? n) && (n <=? 100) then Some n else None
  | NotAnInteger => None
  end.

(** Where a walk stands: at the start, with no cursor, or at a cursor text
    that leads to a key. *)
Definition standsAt (P : Platform) (cursor : option jsstring)
  (cur : option (Z * N)) : Prop :=
  match cursor, cur with
  | None, None => True
  | Some c, Some k => decodesTo P c k = true
  | _, _ => False
  end.

(** *** The rate limiter, key by key *)

(** The answers given to the calls of key [k], in order. *)
Fixpoint resultsFor (k : jsstring) (calls : list Call) (rs : list AllowResult)
  : list AllowResult :=
  match calls, rs with
  | c :: calls', r :: rs' =>
      if decide (key (callArgs c) = k) then r :: resultsFor k calls' rs'
      else resultsFor k calls' rs'
  | _, _ => []
  end.

(** The calls of key [k] among [calls]. *)
Definition callsOf (k : jsstring) (calls : list Call) : list Call :=
  List.filter (fun c => bool_decide (key (callArgs c) = k)) calls.

(** *** What an operation does to the world *)

(** Every run of [m] takes a world to one that [R] relates to it. *)
Definition respects (R : World -> World -> Prop) {A} (m : M A) : Prop :=
  forall o w, R w (m o w).2.

(** The invariants of the schema: [id] is the primary key of [messages], and
    [conversation_id] references [conversations]. *)
Definition storeOk (d : Db) : Prop :=
  NoDup (map m_id (messages d))
  /\ forall m, m ∈ messages d -> m_conversation_id m ∈ conversations d.

(** The key, the limit and the refusal [rateLimitMessage] uses for a
    request. *)
Definition messageKeyOf (ip : jsstring) (sid : option jsstring) : jsstring :=
  if truthy sid then js "msg:sess:" ++ default [] sid else js "msg:ip:" ++ ip.

Definition messageLimitOf (sid : option jsstring) : Z :=
  if truthy sid then 5 else 20.

Definition messageRefusalOf (sid : option jsstring) : jsstring :=
  if truthy sid then OVERLOADED_SESSION else OVERLOADED_IP.

(** Relations between the world before a request and the world after it. *)
Definition keepsStore (w w' : World) : Prop :=
  storeOk (db w) -> storeOk (db w').

Definition appendsOnly (w w' : World) : Prop :=
  messages (db w) `prefix_of` messages (db w')
  /\ conversations (db w) ⊆ conversations (db w').

Definition sameDb (w w' : World) : Prop := db w' = db w.

Definition sameBucket (k : jsstring) (w w' : World) : Prop :=
  buckets w' !! k = buckets w !! k.

(** The world after a refusal of the limiter: one clock reading, one line in
    the log. *)
Definition refusedWorld (w : World) : World :=
  {| db := db w; buckets := buckets w; draws := S (draws w);
     logged := logged w ++ [(warn, "rate_limit.blocked"%string)] |}.

(** A world in which the example session has used up its five messages, in a
    window that ends 1.5 s after the first clock reading of [quietOracle]. *)
Definition exhaustedWorld : World :=
  {| db := db exampleWorld;
     buckets := <[js "msg:sess:" ++ exampleSession
                  := {| count := 5; resetAt := 1766944361500 |}]> ∅;
     draws := 0; logged := [] |}.

(** The page size a history request asks for: its [limit], or the configured
    default. *)
Definition historyPageSize (env : Env) (q : HistoryQuery) : Z :=
  match queryLimit q with
  | Int n => n
  | _ => CHAT_PAGE_SIZE env
  end.

(** The answers of GET /history with status 200: a page of the session's
    rows, no longer than the page size, with the cursor of its first row. *)
Definition pageAnswer (P : Platform) (env : Env) (q : HistoryQuery)
  (resp : Response) : Prop :=
  status resp = 200
  /\ exists page s cid,
       payload resp = HistoryJson page (nextCursorOf page)
       /\ querySessionId q = Some s /\ pgUuidIn P s = Some cid
       /\ (forall r, r ∈ page -> conversation_id r = pgUuidOut P cid)
       /\ Z.of_nat (length page) <= historyPageSize env q
       /\ (nextCursorOf page = None <-> page = []).

(** *** Queries *)

(** The condition of [getOlderMessages] on a row, for the cursor time stamp
    cast to [ts]: the row comparison when [cursorId] is truthy, the time
    stamp alone otherwise. *)
Definition belowCursor (P : Platform) (args : OlderArgs) (ts : Z)
  (m : DbMessage) : Prop :=
  if truthy (cursorId args) then
    exists cur, pgUuidIn P (default [] (cursorId args)) = Some cur
                /\ keyLt (keyOf m) (ts, cur)
  else m_created_at m < ts.

(** What a query that orders by [(created_at, id)] descending, cuts at [n]
    and is reversed returns, for the rows [m] of conversation [cid] that
    satisfy [wanted]: rows in ascending order, at most [n], each of them
    wanted, and every wanted row left out is older than all [n] of them. *)
Definition latestOf (cid : N) (wanted : DbMessage -> Prop) (n : nat)
  (stored rows : list DbMessage) : Prop :=
  StronglySorted olderThan rows
  /\ (length rows <= n)%nat
  /\ (forall m, m ∈ rows ->
        m ∈ stored /\ m_conversation_id m = cid /\ wanted m)
  /\ (forall m, m ∈ stored -> m_conversation_id m = cid -> wanted m ->
        m ∈ rows
        \/ (length rows = n /\ forall r, r ∈ rows -> olderThan m r)).

(** A world without conversations. *)
Definition emptyWorld : World :=
  {| db := {| conversations := ∅; messages := [] |};
     buckets := ∅; draws := 0; logged := [] |}.

(** *** Messages *)

(** A message made of white space and of the invisible characters the route
    strips, and nothing else. *)
Definition blank (m : jsstring) : Prop :=
  Forall (fun c => isWhiteSpace c || isInvisible c = true) m.

(** A request whose message is a single zero-width space. *)
Definition zeroWidthBody : MessageBody :=
  {| bodyMessage := Some [0x200B%N]; bodySessionId := Some exampleSession |}.

(** *** Statements built by [sql] *)

(** The chunks of a template with its holes filled by [$k], [$k+1], ... *)
Fixpoint holes (k : nat) (strings : list jsstring) : jsstring :=
  match strings with
  | [] => []
  | [chunk] => chunk
  | chunk :: rest => chunk ++ [DOLLAR] ++ numberText k ++ holes (S k) rest
  end.

(** *** Configuration *)

(** A process environment that sets the database URL and nothing else. *)
Definition bareProcessEnv : ProcessEnv.t :=
  {| ProcessEnv.PORT := Missing; ProcessEnv.CORS_ORIGIN := None;
     ProcessEnv.LOG_FILE := None;
     ProcessEnv.DATABASE_URL := Some (js "postgres://localhost/chat");
     ProcessEnv.CHAT_PAGE_SIZE := Missing;
     ProcessEnv.OPENAI_API_KEY := None; ProcessEnv.LLM_MODEL := None;
     ProcessEnv.LLM_MAX_CONTEXT_TOKENS := Missing;
     ProcessEnv.LLM_MAX_COMPLETION_TOKENS := Missing;
     ProcessEnv.LLM_TIMEOUT_MS := Missing;
     ProcessEnv.RATE_LIMIT_WINDOW_MS := Missing;
     ProcessEnv.RATE_LIMIT_MAX_REQUESTS := Missing;
     ProcessEnv.MAX_MESSAGE_CHARS := Missing |}.

(* ===================================================================== *)
(** * Properties *)
(* ===================================================================== *)

(** ** The token budget *)

Lemma ceilDiv_bounds (n d : Z) :
  0 < d -> d * (ceilDiv n d - 1) < n <= d * ceilDiv n d.
Proof.
  intros Hd. unfold ceilDiv.
  pose proof (Z.div_mod (- n) d ltac:(lia)) as E.
  pose proof (Z.mod_pos_bound (- n) d Hd) as B.
  nia.
Qed.

Lemma tokensOf_bounds (m : ChatTurn) :
  4 * (tokensOf m - 1) < jsLength (content m) <= 4 * tokensOf m.
Proof. apply ceilDiv_bounds. lia. Qed.

Lemma tokensOf_nonneg (m : ChatTurn) : 0 <= tokensOf m.
Proof.
  pose proof (tokensOf_bounds m) as B.
  unfold jsLength in B. lia.
Qed.

Lemma totalTokens_app (a b : list ChatTurn) :
  totalTokens (a ++ b) = totalTokens a + totalTokens b.
Proof. induction a as [|x a IH]; simpl; [|rewrite IH]; lia. Qed.

Lemma totalTokens_nonneg (l : list ChatTurn) : 0 <= totalTokens l.
Proof.
  induction l as [|x l IH]; simpl; [lia|].
  pose proof (tokensOf_nonneg x). lia.
Qed.

(** What the loop returns, for any values of its two locals on entry: it adds
    to [selected] a prefix [pre] of the turns still to visit, adds that
    prefix's cost to [used], every turn it adds fits at the moment it is
    added, and the turn it stops at, if any, does not. *)
Lemma takeLoop_spec (maxTokens : Z) (rest selected : list ChatTurn) (used : Z) :
  exists pre post,
    rest = pre ++ post
    /\ selectedNewestToOldest (takeLoop maxTokens rest selected used)
       = selected ++ pre
    /\ usedTokens (takeLoop maxTokens rest selected used)
       = used + totalTokens pre
    /\ (forall a m b, pre = a ++ m :: b ->
          used + totalTokens a + tokensOf m <= maxTokens)
    /\ match post with
       | [] => True
       | m :: _ => used + totalTokens pre + tokensOf m > maxTokens
       end.
Proof.
  revert selected used.
  induction rest as [|m rest IH]; intros selected used; simpl.
  - exists [], []. simpl. rewrite app_nil_r.
    repeat split; try lia.
    intros a x b E. destruct a; discriminate.
  - destruct (used + tokensOf m >? maxTokens) eqn:Hover.
    + exists [], (m :: rest). simpl. rewrite app_nil_r.
      repeat split; try lia.
      intros a x b E. destruct a; discriminate.
    + destruct (IH (selected ++ [m]) (used + tokensOf m))
        as (pre & post & -> & Hsel & Hused & Hfit & Hstop).
      exists (m :: pre), post. simpl.
      rewrite Hsel, Hused, <- app_assoc. simpl.
      repeat split; try lia.
      * intros a x b E. destruct a as [|y a]; simpl in *.
        -- injection E as -> _. lia.
        -- injection E as -> E. specialize (Hfit a x b E). lia.
      * destruct post; [exact I | lia].
Qed.

Lemma takeRecent_spec (maxTokens : Z) (l : list ChatTurn) :
  exists post,
    l = selectedNewestToOldest (takeRecentWithinTokenBudget maxTokens l) ++ post
    /\ usedTokens (takeRecentWithinTokenBudget maxTokens l)
       = totalTokens
           (selectedNewestToOldest (takeRecentWithinTokenBudget maxTokens l))
    /\ (forall a m b,
          selectedNewestToOldest (takeRecentWithinTokenBudget maxTokens l)
          = a ++ m :: b ->
          totalTokens a + tokensOf m <= maxTokens)
    /\ match post with
       | [] => True
       | m :: _ =>
           totalTokens
             (selectedNewestToOldest (takeRecentWithinTokenBudget maxTokens l))
           + tokensOf m > maxTokens
       end.
Proof.
  unfold takeRecentWithinTokenBudget.
  destruct (takeLoop_spec maxTokens l [] 0)
    as (pre & post & -> & Hsel & Hused & Hfit & Hstop).
  simpl in Hsel. rewrite Hsel, Hused.
  exists post. repeat split; try lia.
  - intros a m b E. specialize (Hfit a m b E). lia.
  - destruct post; [exact I | lia].
Qed.

(** Two prefixes of one list: the shorter is a prefix of the longer. *)
Lemma prefix_cases {A} (a b c d : list A) :
  a ++ b = c ++ d ->
  (exists e, c = a ++ e /\ b = e ++ d) \/ (exists e, a = c ++ e /\ d = e ++ b).
Proof.
  revert c. induction a as [|x a IH]; intros c E; simpl in *.
  - left. exists c. auto.
  - destruct c as [|y c]; simpl in *.
    + right. exists (x :: a). auto.
    + injection E as -> E. destruct (IH c E) as [(e & -> & ->)|(e & -> & ->)].
      * left. exists e. auto.
      * right. exists e. auto.
Qed.

(** C4.  [takeRecentWithinTokenBudget] visits the turns newest first, costs a
    turn [ceil(content.length / 4)], adds turns while the running total stays
    within the budget and stops at, and leaves out, the first turn that would
    exceed it: the selection is a prefix [l = selected ++ post] of the input,
    every selected turn fitted when it was added, and the first turn left out
    did not.  At the boundary: when the budget equals the running total plus
    the cost of the turn reached, that turn is selected; when it is one unit
    less, the selection ends before that turn. *)
Theorem takeRecent_greedy_prefix (maxTokens : Z) (l : list ChatTurn) :
  (forall m : ChatTurn,
     4 * (tokensOf m - 1) < jsLength (content m) <= 4 * tokensOf m)
  /\ (exists post,
        l = selectedNewestToOldest (takeRecentWithinTokenBudget maxTokens l)
            ++ post
        /\ (forall a m b,
              selectedNewestToOldest (takeRecentWithinTokenBudget maxTokens l)
              = a ++ m :: b ->
              totalTokens a + tokensOf m <= maxTokens)
        /\ match post with
           | [] => True
           | m :: _ =>
               totalTokens
                 (selectedNewestToOldest
                    (takeRecentWithinTokenBudget maxTokens l))
               + tokensOf m > maxTokens
           end)
  /\ (forall pre m post, l = pre ++ m :: post ->
        (maxTokens = totalTokens pre + tokensOf m ->
         exists tail,
           selectedNewestToOldest (takeRecentWithinTokenBudget maxTokens l)
           = pre ++ m :: tail)
        /\ (maxTokens = totalTokens pre + tokensOf m - 1 ->
            exists dropped,
              pre = selectedNewestToOldest
                      (takeRecentWithinTokenBudget maxTokens l) ++ dropped)).
Proof.
  split; [exact tokensOf_bounds|].
  destruct (takeRecent_spec maxTokens l) as (post & Hl & _ & Hfit & Hstop).
  set (sel := selectedNewestToOldest (takeRecentWithinTokenBudget maxTokens l))
    in *.
  split; [exists post; auto|].
  intros pre m post' E. rewrite E in Hl.
  destruct (prefix_cases _ _ _ _ Hl) as [(e & Hsel & Hm)|(e & Hpre & Hpost)].
  - destruct e as [|x e]; simpl in Hm.
    + subst post. rewrite app_nil_r in Hsel. split.
      * intros ->. rewrite Hsel in Hstop. lia.
      * intros _. exists []. rewrite app_nil_r. auto.
    + injection Hm as <- Hm. split.
      * intros _. exists e. exact Hsel.
      * intros ->. specialize (Hfit pre m e Hsel). lia.
  - split.
    + intros ->. destruct e as [|x e]; simpl in Hpost; subst post.
      * rewrite app_nil_r in Hpre. rewrite Hpre in Hstop. lia.
      * rewrite Hpre, totalTokens_app in Hstop. simpl in Hstop.
        pose proof (totalTokens_nonneg e). pose proof (tokensOf_nonneg m).
        lia.
    + intros _. exists e. exact Hpre.
Qed.

(** The example of the specification: with budget 10, a 2-unit user turn
    (cost 1) is kept and the 40-unit reply behind it (cost 10) is left out;
    the reply alone fits a budget of 10 and does not fit a budget of 9. *)
Example takeRecent_spec_example :
  let hi := {| role := user; content := js "hi" |} in
  let long := {| role := ai;
                 content := js "a long reply of exactly forty characters" |} in
  tokensOf hi = 1 /\ tokensOf long = 10
  /\ takeRecentWithinTokenBudget 10 [hi; long]
     = {| selectedNewestToOldest := [hi]; usedTokens := 1 |}
  /\ takeRecentWithinTokenBudget 10 [long]
     = {| selectedNewestToOldest := [long]; usedTokens := 10 |}
  /\ takeRecentWithinTokenBudget 9 [long]
     = {| selectedNewestToOldest := []; usedTokens := 0 |}.
Proof. repeat split. Qed.

(** C10, as the code has it.  [usedTokens] is the sum of the costs of exactly
    the selected turns, and it never exceeds [max(0, maxTokens)]: it stays
    within every budget that is not negative, and is 0, with nothing
    selected, under a negative one. *)
Theorem takeRecent_used_is_sum (maxTokens : Z) (l : list ChatTurn) :
  usedTokens (takeRecentWithinTokenBudget maxTokens l)
  = totalTokens
      (selectedNewestToOldest (takeRecentWithinTokenBudget maxTokens l))
  /\ usedTokens (takeRecentWithinTokenBudget maxTokens l) <= Z.max 0 maxTokens
  /\ (maxTokens < 0 ->
      takeRecentWithinTokenBudget maxTokens l
      = {| selectedNewestToOldest := []; usedTokens := 0 |}).
Proof.
  destruct (takeRecent_spec maxTokens l) as (post & Hl & Hused & Hfit & _).
  split; [exact Hused|]. split.
  - rewrite Hused.
    destruct (selectedNewestToOldest (takeRecentWithinTokenBudget maxTokens l))
      as [|x sel] eqn:E using rev_ind; [simpl; lia|].
    specialize (Hfit sel x [] eq_refl).
    rewrite totalTokens_app. simpl. lia.
  - intros Hneg.
    destruct (selectedNewestToOldest (takeRecentWithinTokenBudget maxTokens l))
      as [|x sel] eqn:E.
    + destruct (takeRecentWithinTokenBudget maxTokens l) as [s u].
      simpl in *. subst. reflexivity.
    + specialize (Hfit [] x sel eq_refl). simpl in Hfit.
      pose proof (tokensOf_nonneg x). lia.
Qed.

(** C10 as stated fails for a negative budget: nothing is selected and
    [usedTokens] is 0, which exceeds the budget. *)
Lemma takeRecent_used_exceeds_negative_budget :
  ~ (forall (maxTokens : Z) (l : list ChatTurn),
       usedTokens (takeRecentWithinTokenBudget maxTokens l) <= maxTokens).
Proof. intros H. specialize (H (-1) []). simpl in H. lia. Qed.

(** ** The rate limiter *)

(** A call on another key leaves the entry of [k] alone. *)
Lemma allowRequest_other_key (args : AllowArgs) (now : Z)
  (b : gmap jsstring Entry) (k : jsstring) :
  key args <> k -> (allowRequest args now b).2 !! k = b !! k.
Proof.
  intros Hne. unfold allowRequest.
  destruct (b !! key args) as [e|]; simpl.
  - destruct (resetAt e <=? now); simpl; [by rewrite lookup_insert_ne|].
    destruct (count e >=? max args); simpl; [done|by rewrite lookup_insert_ne].
  - by rewrite lookup_insert_ne.
Qed.

(** Inside a window instance: with [c] requests counted so far and no call of
    the key arriving at or after [r], at most [M - c] further calls of the key
    are allowed. *)
Lemma runCalls_within_window (k : jsstring) (M r : Z) (cs : list Call) :
  forall (b : gmap jsstring Entry) (c : Z),
    b !! k = Some {| count := c; resetAt := r |} ->
    (forall call, In call cs -> key (callArgs call) = k ->
       max (callArgs call) = M /\ callNow call < r) ->
    allowedFor k cs (runCalls cs b).1 <= Z.max 0 (M - c).
Proof.
  induction cs as [|call cs IH]; intros b c Hb Hcs; simpl; [lia|].
  destruct (allowRequest (callArgs call) (callNow call) b) as [res b1] eqn:E1.
  destruct (runCalls cs b1) as [rs b2] eqn:E2. simpl.
  assert (Hrest : forall call', In call' cs -> key (callArgs call') = k ->
            max (callArgs call') = M /\ callNow call' < r)
    by (intros; apply Hcs; [right|]; assumption).
  destruct (decide (key (callArgs call) = k)) as [Hk|Hk].
  - destruct (Hcs call (or_introl eq_refl) Hk) as [HM Hnow].
    unfold allowRequest in E1. rewrite Hk, Hb in E1. simpl in E1.
    destruct (r <=? callNow call) eqn:Hr; [lia|].
    destruct (c >=? max (callArgs call)) eqn:Hc.
    + injection E1 as <- <-. simpl.
      specialize (IH b c Hb Hrest). rewrite E2 in IH. simpl in IH. lia.
    + injection E1 as <- <-. simpl.
      specialize (IH (<[k:={| count := c + 1; resetAt := r |}]> b) (c + 1)
                    (lookup_insert_eq _ _ _) Hrest).
      rewrite E2 in IH. simpl in IH. lia.
  - assert (Hb1 : b1 !! k = Some {| count := c; resetAt := r |}).
    { replace b1 with (allowRequest (callArgs call) (callNow call) b).2
        by (rewrite E1; reflexivity).
      rewrite allowRequest_other_key; assumption. }
    specialize (IH b1 c Hb1 Hrest). rewrite E2 in IH. simpl in IH. lia.
Qed.

(** The call that opens a window. *)
Lemma allowRequest_opens (args : AllowArgs) (now : Z)
  (b : gmap jsstring Entry) :
  opensWindow (key args) now b = true ->
  allowRequest args now b
  = ({| allowed := true; retryAfterMs := None |},
     <[key args := {| count := 1; resetAt := now + windowMs args |}]> b).
Proof.
  unfold opensWindow, allowRequest. intros Hopen.
  destruct (b !! key args) as [e|]; [rewrite Hopen|]; reflexivity.
Qed.

(** C8.  The first call of a fresh or elapsed window is answered
    [allowed: true] whatever [max] is, and leaves the entry at count 1 with a
    window of [windowMs] from now; this holds for [max = 0] as for any other
    value, since the test against [max] comes after. *)
Theorem allowRequest_first_call_allowed (args : AllowArgs) (now : Z)
  (b : gmap jsstring Entry) :
  opensWindow (key args) now b = true ->
  (allowRequest args now b).1 = {| allowed := true; retryAfterMs := None |}
  /\ (allowRequest args now b).2 !! key args
     = Some {| count := 1; resetAt := now + windowMs args |}.
Proof.
  intros Hopen. rewrite (allowRequest_opens args now b Hopen). simpl.
  split; [reflexivity|apply lookup_insert_eq].
Qed.

(** With [max = 0], on a fresh key and then again once the window of 1000 ms
    has elapsed, the request is allowed. *)
Lemma allowRequest_first_call_allowed_witness :
  (allowRequest {| key := js "k"; windowMs := 1000; max := 0 |} 5 ∅).1
  = {| allowed := true; retryAfterMs := None |}
  /\ (allowRequest {| key := js "k"; windowMs := 1000; max := 0 |} 5 ∅).2
     !! js "k" = Some {| count := 1; resetAt := 1005 |}.
Proof.
  apply (allowRequest_first_call_allowed
           {| key := js "k"; windowMs := 1000; max := 0 |} 5 ∅).
  reflexivity.
Defined.

(** C5, as the code has it.  Within a single window instance (the call that
    opens it and every later call of the key that arrives before it elapses,
    calls of other keys interleaved at will) at most [max(1, maxRequests)]
    calls are allowed, which is [maxRequests] whenever that is at least 1.  A
    call that finds the window elapsed is allowed and restarts the count at 1
    in a new window of [windowMs].  A denied call reports
    [resetAt - now], the milliseconds left until the window resets, and that
    is positive. *)
Theorem allowRequest_window_bound (k : jsstring) (w M t0 : Z)
  (cs : list Call) (b : gmap jsstring Entry) :
  opensWindow k t0 b = true ->
  (forall call, In call cs -> key (callArgs call) = k ->
     max (callArgs call) = M /\ callNow call < t0 + w) ->
  allowedFor k (openerOf k w M t0 :: cs)
    (runCalls (openerOf k w M t0 :: cs) b).1 <= Z.max 1 M
  /\ (1 <= M ->
      allowedFor k (openerOf k w M t0 :: cs)
        (runCalls (openerOf k w M t0 :: cs) b).1 <= M)
  /\ (forall args now (b' : gmap jsstring Entry) e,
        b' !! key args = Some e -> resetAt e <= now ->
        (allowRequest args now b').1
        = {| allowed := true; retryAfterMs := None |}
        /\ (allowRequest args now b').2 !! key args
           = Some {| count := 1; resetAt := now + windowMs args |})
  /\ (forall args now (b' : gmap jsstring Entry),
        allowed (allowRequest args now b').1 = false ->
        exists e, b' !! key args = Some e
          /\ now < resetAt e
          /\ max args <= count e
          /\ (allowRequest args now b').2 = b'
          /\ retryAfterMs (allowRequest args now b').1
             = Some (resetAt e - now)).
Proof.
  intros Hopen Hcs.
  assert (Hbound : allowedFor k (openerOf k w M t0 :: cs)
            (runCalls (openerOf k w M t0 :: cs) b).1 <= Z.max 1 M).
  { simpl.
    rewrite (allowRequest_opens {| key := k; windowMs := w; max := M |} t0 b
               Hopen).
    simpl.
    pose proof (runCalls_within_window k M (t0 + w) cs
                  (<[k:={| count := 1; resetAt := t0 + w |}]> b) 1
                  (lookup_insert_eq _ _ _) Hcs) as Hin.
    destruct (runCalls cs _) as [rs b2]. simpl in *.
    destruct (decide (k = k)); [|congruence]. lia. }
  split; [exact Hbound|]. split; [lia|]. split.
  - intros args now b' e He Hr.
    rewrite allowRequest_opens; [|unfold opensWindow; rewrite He; lia].
    simpl. split; [reflexivity|apply lookup_insert_eq].
  - intros args now b'. unfold allowRequest.
    destruct (b' !! key args) as [e|]; simpl; [|discriminate].
    destruct (resetAt e <=? now) eqn:Hr; simpl; [discriminate|].
    destruct (count e >=? max args) eqn:Hc; simpl; [|discriminate].
    intros _. exists e. repeat split; lia.
Qed.

Lemma allowRequest_window_bound_witness :
  allowedFor (js "k") (openerOf (js "k") 1000 2 0
                         :: [openerOf (js "k") 1000 2 10;
                             openerOf (js "k") 1000 2 20])
    (runCalls (openerOf (js "k") 1000 2 0
                 :: [openerOf (js "k") 1000 2 10;
                     openerOf (js "k") 1000 2 20]) ∅).1 <= 2.
Proof.
  refine (proj1 (allowRequest_window_bound (js "k") 1000 2 0
                   [openerOf (js "k") 1000 2 10; openerOf (js "k") 1000 2 20]
                   ∅ _ _)).
  - reflexivity.
  - intros call [<-|[<-|[]]] _; simpl; lia.
Defined.

(** C5 as stated fails when [maxRequests] is below 1: on a fresh key with
    [maxRequests = 0] the opening call is allowed, one more than the limit. *)
Lemma allowRequest_allows_above_zero_limit :
  ~ (forall (k : jsstring) (w M t0 : Z) (cs : list Call)
       (b : gmap jsstring Entry),
       opensWindow k t0 b = true ->
       (forall call, In call cs -> key (callArgs call) = k ->
          max (callArgs call) = M /\ callNow call < t0 + w) ->
       allowedFor k (openerOf k w M t0 :: cs)
         (runCalls (openerOf k w M t0 :: cs) b).1 <= M).
Proof.
  intros H.
  specialize (H (js "k") 1000 0 5 [] ∅ eq_refl).
  assert (Hnone : forall call : Call, In call [] -> key (callArgs call) = js "k" ->
            max (callArgs call) = 0 /\ callNow call < 5 + 1000)
    by (intros call []).
  specialize (H Hnone). vm_compute in H. apply H. reflexivity.
Qed.

(** ** Cursor decoding *)

(** The history route, by cases on the cursor of a query that passes
    validation. *)
Lemma getHistoryHandler_cases (P : Platform) (env : Env) (q : HistoryQuery)
  (s : jsstring) (cursor : option jsstring) (limitArg : option Z) :
  parseHistoryQuery P q = Some (s, cursor, limitArg) ->
  getHistoryHandler P env q
  = if truthy cursor then
      match parseCursor P cursor with
      | Some c =>
          servePage
            (getOlderMessages P
               {| conversationId := s; cursorCreatedAt := createdAt c;
                  cursorId := uuid c;
                  limit := default (CHAT_PAGE_SIZE env) limitArg |})
      | None =>
          log warn "chat.history.cursor_invalid";;
          mret (respond 400 (ErrorJson INVALID_REQUEST))
      end
    else
      servePage
        (getRecentMessages P s (default (CHAT_PAGE_SIZE env) limitArg)).
Proof.
  intros Hq. unfold getHistoryHandler. rewrite Hq.
  destruct (truthy cursor) eqn:Ht; simpl.
  - destruct (parseCursor P cursor) as [c|]; reflexivity.
  - unfold parseCursor. rewrite Ht. reflexivity.
Qed.


Lemma parseCursor_malformed (P : Platform) (c : jsstring) :
  malformed P c -> parseCursor P (Some c) = None.
Proof.
  unfold malformed, parseCursor. intros H.
  destruct (truthy (Some c)); [|reflexivity]. simpl.
  destruct (split PIPE c) as [|p0 [|p1 [|p2 ps]]]; try reflexivity.
  - rewrite H. reflexivity.
  - destruct H as [H|H].
    + rewrite H. reflexivity.
    + destruct (truthy (toIso P p0)); [|reflexivity].
      rewrite H, andb_false_r. reflexivity.
Qed.

(** C7, as the code has it.  For a history request that passes validation:
    a cursor that is present, not the empty string, and does not decode (in
    particular one whose first segment is no time stamp, whose second segment
    is no UUID, or that has more than two segments) is answered 400 "Invalid
    request", with the invalid-cursor warning logged and the store not
    consulted; a cursor that is absent or the empty string gets the most
    recent page; a cursor that decodes always goes through the older-than
    query, never through the unfiltered one. *)
Theorem history_cursor_rejected_or_used (P : Platform) (env : Env)
  (q : HistoryQuery) (s : jsstring) (cursor : option jsstring)
  (limitArg : option Z) :
  parseHistoryQuery P q = Some (s, cursor, limitArg) ->
  (forall c, cursor = Some c -> c <> [] ->
     malformed P c \/ parseCursor P cursor = None ->
     forall o w,
       getHistoryHandler P env q o w
       = (Ok (respond 400 (ErrorJson INVALID_REQUEST)),
          {| db := db w; buckets := buckets w; draws := draws w;
             logged := logged w ++ [(warn, "chat.history.cursor_invalid"%string)] |}))
  /\ (cursor = None \/ cursor = Some [] ->
      getHistoryHandler P env q
      = servePage
          (getRecentMessages P s (default (CHAT_PAGE_SIZE env) limitArg)))
  /\ (forall c cur, cursor = Some c -> c <> [] ->
        parseCursor P cursor = Some cur ->
        getHistoryHandler P env q
        = servePage
            (getOlderMessages P
               {| conversationId := s; cursorCreatedAt := createdAt cur;
                  cursorId := uuid cur;
                  limit := default (CHAT_PAGE_SIZE env) limitArg |})).
Proof.
  intros Hq. pose proof (getHistoryHandler_cases P env q s cursor limitArg Hq)
    as Hcases.
  split; [|split].
  - intros c -> Hc Hbad o w. rewrite Hcases.
    assert (Hnone : parseCursor P (Some c) = None).
    { destruct Hbad as [Hbad|Hbad]; [apply parseCursor_malformed|]; assumption. }
    rewrite Hnone. destruct c; [congruence|]. reflexivity.
  - intros [->| ->]; rewrite Hcases; reflexivity.
  - intros c cur -> Hc Hcur. rewrite Hcases, Hcur.
    destruct c; [congruence|]. reflexivity.
Qed.

Lemma history_cursor_rejected_or_used_witness :
  (getHistoryHandler refPlatform exampleEnv
     (historyQueryOf (Some (js "2025-12-28T17:52:34.123Z|not-a-uuid")) Missing)
     quietOracle exampleWorld).1
  = Ok (respond 400 (ErrorJson INVALID_REQUEST)).
Proof.
  pose proof (history_cursor_rejected_or_used refPlatform exampleEnv
    (historyQueryOf (Some (js "2025-12-28T17:52:34.123Z|not-a-uuid")) Missing)
    exampleSession (Some (js "2025-12-28T17:52:34.123Z|not-a-uuid")) None
    eq_refl) as [H _].
  rewrite (H _ eq_refl ltac:(discriminate) (or_intror eq_refl)).
  reflexivity.
Defined.

(** C7 as stated fails for the empty string: it is a cursor that does not
    decode, and the request is answered with the two most recent messages
    instead of being rejected. *)
Lemma history_empty_cursor_served :
  parseCursor refPlatform (Some []) = None
  /\ (getHistoryHandler refPlatform exampleEnv
        (historyQueryOf (Some []) Missing) quietOracle exampleWorld).1
     = Ok (respond 200
             (HistoryJson (map (toRow refPlatform) exampleMessages)
                (Some (js "2025-12-28T17:52:34.100Z|9b2f6c1e-3d4a-4f5b-8c6d-7e8f9a0b1c01"))))
  /\ (getHistoryHandler refPlatform exampleEnv
        (historyQueryOf (Some []) Missing) quietOracle exampleWorld).1
     = (getHistoryHandler refPlatform exampleEnv
          (historyQueryOf None Missing) quietOracle exampleWorld).1.
Proof. split; [reflexivity|]. split; vm_compute; reflexivity. Qed.




(** ** The message store *)

Lemma keyLtb_true (a b : Z * N) : keyLtb a b = true <-> keyLt a b.
Proof.
  unfold keyLtb, keyLt.
  rewrite orb_true_iff, andb_true_iff, Z.ltb_lt, Z.eqb_eq, N.ltb_lt.
  reflexivity.
Qed.

Lemma keyLtb_false (a b : Z * N) : keyLtb a b = false <-> keyLt b a \/ a = b.
Proof.
  destruct (keyLtb a b) eqn:E.
  - apply keyLtb_true in E. unfold keyLt in *. split; [discriminate|].
    intros [H| ->]; lia.
  - split; [intros _|reflexivity].
    assert (~ keyLt a b) as Hn
      by (intros H; apply keyLtb_true in H; congruence).
    unfold keyLt in *. destruct a as [t i], b as [t' i']; simpl in *.
    destruct (decide (t = t')) as [->|]; [|left; lia].
    destruct (decide (i = i')) as [->|]; [right; reflexivity|left; lia].
Qed.

Lemma keyLt_trans (a b c : Z * N) : keyLt a b -> keyLt b c -> keyLt a c.
Proof. unfold keyLt. lia. Qed.

Lemma keyLt_irrefl (a : Z * N) : ~ keyLt a a.
Proof. unfold keyLt. lia. Qed.

#[global] Instance descOrder_trans : Transitive descOrder.
Proof.
  intros x y z. unfold descOrder. rewrite !keyLtb_false.
  intros [H1|H1] [H2|H2]; try rewrite H1; try rewrite <- H2; auto.
  left. eapply keyLt_trans; eassumption.
Qed.

#[global] Instance descOrder_total : Total descOrder.
Proof.
  intros x y. unfold descOrder. rewrite !keyLtb_false.
  destruct (keyLtb (keyOf x) (keyOf y)) eqn:E.
  - apply keyLtb_true in E. right. left. exact E.
  - apply keyLtb_false in E. left. exact E.
Qed.

Lemma same_id_same_row (rows : list DbMessage) (x y : DbMessage) :
  NoDup (map m_id rows) -> x ∈ rows -> y ∈ rows -> m_id x = m_id y -> x = y.
Proof.
  induction rows as [|r rows IH]; intros Hnd Hx Hy E; [inversion Hx|].
  simpl in Hnd. apply NoDup_cons in Hnd as [Hr Hnd].
  apply elem_of_cons in Hx as [->|Hx]; apply elem_of_cons in Hy as [->|Hy];
    auto.
  - exfalso. apply Hr. rewrite E. apply list_elem_of_fmap. eauto.
  - exfalso. apply Hr. rewrite <- E. apply list_elem_of_fmap. eauto.
Qed.

(** Two distinct rows of a table with a primary key: one is strictly newer
    as soon as it is not older. *)
Lemma descOrder_strict (rows : list DbMessage) (x y : DbMessage) :
  NoDup (map m_id rows) -> x ∈ rows -> y ∈ rows -> x <> y ->
  descOrder x y -> newerThan x y.
Proof.
  intros Hnd Hx Hy Hne Hd. unfold descOrder in Hd.
  apply keyLtb_false in Hd as [Hd|Hd]; [exact Hd|].
  exfalso. apply Hne. apply (same_id_same_row rows); auto.
  unfold keyOf in Hd. congruence.
Qed.

Lemma NoDup_rows (rows : list DbMessage) :
  NoDup (map m_id rows) -> NoDup rows.
Proof. apply NoDup_fmap_1. Qed.

Lemma sortedOf_elem (cid : N) (keep : DbMessage -> bool)
  (rows : list DbMessage) (m : DbMessage) :
  m ∈ sortedOf cid keep rows
  <-> m ∈ rows /\ m_conversation_id m = cid /\ keep m = true.
Proof.
  unfold sortedOf. rewrite merge_sort_Permutation.
  rewrite list_elem_of_In, filter_In, andb_true_iff, bool_decide_eq_true,
    <- list_elem_of_In.
  reflexivity.
Qed.

Lemma sortedOf_NoDup (cid : N) (keep : DbMessage -> bool)
  (rows : list DbMessage) :
  NoDup (map m_id rows) -> NoDup (sortedOf cid keep rows).
Proof.
  intros Hnd. unfold sortedOf. rewrite merge_sort_Permutation.
  apply NoDup_ListNoDup, List.NoDup_filter, NoDup_ListNoDup, NoDup_rows, Hnd.
Qed.

Lemma sortedOf_strict (cid : N) (keep : DbMessage -> bool)
  (rows : list DbMessage) :
  NoDup (map m_id rows) -> StronglySorted newerThan (sortedOf cid keep rows).
Proof.
  intros Hnd.
  pose proof (sortedOf_NoDup cid keep rows Hnd) as Hnd'.
  assert (Hin : forall m, m ∈ sortedOf cid keep rows -> m ∈ rows)
    by (intros m Hm; apply sortedOf_elem in Hm; tauto).
  assert (Hs : StronglySorted descOrder (sortedOf cid keep rows))
    by (apply StronglySorted_merge_sort; apply _).
  induction Hs as [|x l Hs IH Hx]; [constructor|].
  apply NoDup_cons in Hnd' as [Hxl Hnd'].
  constructor.
  - apply IH; [exact Hnd'|]. intros m Hm. apply Hin. right. exact Hm.
  - rewrite Forall_forall in *. intros y Hy.
    apply (descOrder_strict rows); auto.
    + apply Hin. left.
    + apply Hin. right. exact Hy.
    + intros ->. contradiction.
Qed.

(** What selects from the table is among the conversation's rows that pass
    the filter. *)
Lemma selectDesc_elem (cid : N) (keep : DbMessage -> bool) (n : nat)
  (rows : list DbMessage) (m : DbMessage) :
  m ∈ selectDesc cid keep n rows ->
  m ∈ rows /\ m_conversation_id m = cid /\ keep m = true.
Proof.
  unfold selectDesc. intros Hin.
  apply elem_of_take in Hin as (i & Hin & _).
  apply list_elem_of_lookup_2 in Hin.
  rewrite merge_sort_Permutation in Hin.
  apply list_elem_of_In, filter_In in Hin as [Hin Hkeep].
  apply andb_true_iff in Hkeep as [Hc Hk].
  apply bool_decide_eq_true in Hc.
  rewrite <- list_elem_of_In in Hin. auto.
Qed.

(** With a limit no smaller than the table, a row of the conversation that
    passes the filter is selected. *)
Lemma selectDesc_all (cid : N) (keep : DbMessage -> bool) (n : nat)
  (rows : list DbMessage) (m : DbMessage) :
  (length rows <= n)%nat -> m ∈ rows -> m_conversation_id m = cid ->
  keep m = true -> m ∈ selectDesc cid keep n rows.
Proof.
  intros Hn Hin Hc Hk. unfold selectDesc.
  rewrite take_ge.
  - rewrite merge_sort_Permutation.
    apply list_elem_of_In, filter_In. split; [apply list_elem_of_In, Hin|].
    rewrite Hk, andb_true_r. apply bool_decide_eq_true. exact Hc.
  - rewrite merge_sort_Permutation.
    etransitivity; [apply List.filter_length_le|exact Hn].
Qed.

(** The newest row of a conversation heads every page of its most recent
    rows. *)
Lemma selectDesc_newest (cid : N) (n : nat) (rows : list DbMessage)
  (row : DbMessage) :
  NoDup (map m_id rows) -> (1 <= n)%nat ->
  row ∈ rows -> m_conversation_id row = cid ->
  (forall m, m ∈ rows -> m_conversation_id m = cid -> m <> row ->
     newerThan row m) ->
  row ∈ selectDesc cid (fun _ => true) n rows.
Proof.
  intros Hnd Hn Hrow Hc Hnewest.
  pose proof (sortedOf_strict cid (fun _ => true) rows Hnd) as Hs.
  assert (Hin : row ∈ sortedOf cid (fun _ => true) rows)
    by (apply sortedOf_elem; auto).
  assert (Hsub : forall m, m ∈ sortedOf cid (fun _ => true) rows ->
            m ∈ rows /\ m_conversation_id m = cid)
    by (intros m Hm; apply sortedOf_elem in Hm; tauto).
  change (selectDesc cid (fun _ => true) n rows)
    with (take n (sortedOf cid (fun _ => true) rows)).
  destruct (sortedOf cid (fun _ => true) rows) as [|x l]; [inversion Hin|].
  destruct n as [|n]; [lia|]. simpl.
  apply elem_of_cons in Hin as [->|Hl]; [left|].
  exfalso. apply StronglySorted_cons in Hs as [Hx _].
  rewrite Forall_forall in Hx. specialize (Hx row Hl).
  destruct (Hsub x ltac:(left)) as [Hxin Hxc].
  destruct (decide (x = row)) as [->|Hne].
  - apply (keyLt_irrefl _ Hx).
  - specialize (Hnewest x Hxin Hxc Hne).
    apply (keyLt_irrefl (keyOf row)).
    unfold newerThan in *. eapply keyLt_trans; eassumption.
Qed.

(** ** The send flow *)

Lemma takeLoop_cons (maxTokens : Z) (m : ChatTurn)
  (rest selected : list ChatTurn) (used : Z) :
  takeLoop maxTokens (m :: rest) selected used
  = if used + tokensOf m >? maxTokens
    then {| selectedNewestToOldest := selected; usedTokens := used |}
    else takeLoop maxTokens rest (selected ++ [m]) (used + tokensOf m).
Proof. reflexivity. Qed.


(** One step of a run: by cases on what an effectful call returns, or on a
    test. *)
Ltac case_run :=
  match goal with
  | |- context [match ?m ?o ?w with _ => _ end] =>
      let r := fresh "r" in
      let w' := fresh "w" in
      destruct (m o w) as [[r|r] w']
  | |- context [if ?c then _ else _] => destruct c
  end.

(** The handler on an accepted request: the prelude, then the reply part,
    inside the outer [try]. *)
Lemma postMessageHandler_accepted (P : Platform) (env : Env) (b : MessageBody)
  (s clean : jsstring) (o : Oracle) (w : World) :
  accepted P env b s clean ->
  postMessageHandler P env b o w
  = match sendPrelude P env s clean o w with
    | (Ok recent, w1) => sendReply P env s clean recent o w1
    | (Throw _, w1) => failed500 o w1
    end.
Proof.
  intros (message & Hparse & -> & Hne & Hlen).
  unfold postMessageHandler. rewrite Hparse.
  assert (Hz : (jsLength (cleanOf message) =? 0) = false).
  { unfold jsLength. destruct (cleanOf message); [congruence|]. reflexivity. }
  rewrite Hz.
  assert (Hl : (jsLength (cleanOf message) >? MAX_MESSAGE_CHARS env) = false)
    by lia.
  rewrite Hl.
  unfold sendPrelude, sendReply, failed500, tryCatch, mbind, M_bind, log,
    mret, M_ret. simpl.
  repeat (case_run; simpl; try reflexivity).
Qed.

Ltac run_monad :=
  unfold Date_now, roundTrip, cast, mbind, M_bind, mret, M_ret, throw, getDb,
    putDb, draw, oracle, log in *;
  simpl in *.

Lemma ensureConversation_run (P : Platform) (s : jsstring) (o : Oracle)
  (w : World) :
  messages (db (ensureConversation P s o w).2) = messages (db w)
  /\ logged (ensureConversation P s o w).2 = logged w
  /\ buckets (ensureConversation P s o w).2 = buckets w.
Proof.
  unfold ensureConversation. run_monad.
  destruct (queryFails o (draws w)); simpl; [auto|].
  destruct (pgUuidIn P s); simpl; auto.
Qed.

(** A fetch reads: it leaves the tables as they are, and what it returns is
    computed from the table as it stands when the fetch runs. *)
Lemma getRecentMessages_run (P : Platform) (s : jsstring) (n : Z) (o : Oracle)
  (w : World) :
  db (getRecentMessages P s n o w).2 = db w
  /\ logged (getRecentMessages P s n o w).2 = logged w
  /\ buckets (getRecentMessages P s n o w).2 = buckets w
  /\ forall page, (getRecentMessages P s n o w).1 = Ok page ->
       exists cid,
         pgUuidIn P s = Some cid /\ 0 <= n
         /\ queryFails o (draws w) = false
         /\ page = reverse (map (toRow P)
                     (selectDesc cid (fun _ => true) (Z.to_nat n)
                        (messages (db w)))).
Proof.
  unfold getRecentMessages. run_monad.
  destruct (queryFails o (draws w)); simpl;
    [repeat split; auto; discriminate|].
  destruct (pgUuidIn P s) as [cid|]; simpl;
    [|repeat split; auto; discriminate].
  destruct (n <? 0) eqn:Hn; simpl; [repeat split; auto; discriminate|].
  repeat split; auto. intros page [= <-]. exists cid.
  repeat split; auto. lia.
Qed.

(** An insert either throws and leaves the table as it is, or appends one row
    with a fresh primary key. *)
Lemma insertMessage_run (P : Platform) (s : jsstring) (who : Sender)
  (body : jsstring) (o : Oracle) (w : World) :
  logged (insertMessage P s who body None o w).2 = logged w
  /\ buckets (insertMessage P s who body None o w).2 = buckets w
  /\ match (insertMessage P s who body None o w).1 with
     | Ok _ =>
         exists row,
           messages (db (insertMessage P s who body None o w).2)
           = messages (db w) ++ [row]
           /\ m_sender row = who /\ m_text row = body
           /\ pgUuidIn P s = Some (m_conversation_id row)
           /\ m_id row ∉ map m_id (messages (db w))
     | Throw _ =>
         db (insertMessage P s who body None o w).2 = db w
     end.
Proof.
  unfold insertMessage. run_monad.
  destruct (queryFails o (S (S (draws w)))); simpl; [auto|].
  destruct (pgUuidIn P (randomUUID o (draws w))) as [idv|]; simpl; [|auto].
  destruct (pgUuidIn P s) as [cid|]; simpl; [|auto].
  destruct (pgTimestamptzIn P _) as [ts|]; simpl; [|auto].
  destruct (bool_decide (idv ∈ map m_id (messages (db w)))) eqn:Hpk; simpl;
    [auto|].
  destruct (bool_decide (cid ∈ conversations (db w))); simpl; [|auto].
  repeat split; auto. eexists. repeat split; simpl; auto.
  apply bool_decide_eq_false in Hpk. exact Hpk.
Qed.

(** The model call touches neither the tables nor the log, and it throws
    exactly when no key is configured or [invoke] throws. *)
Lemma generateSupportReply_run (env : Env) (history : list ChatTurn)
  (userMessage : jsstring) (o : Oracle) (w : World) :
  db (generateSupportReply env history userMessage o w).2 = db w
  /\ logged (generateSupportReply env history userMessage o w).2 = logged w
  /\ buckets (generateSupportReply env history userMessage o w).2 = buckets w
  /\ ((exists e, (generateSupportReply env history userMessage o w).1 = Throw e)
      <-> truthy (OPENAI_API_KEY env) = false
          \/ invoke o (draws w) (lcMessagesOf env history userMessage)
             = InvokeThrows).
Proof.
  unfold generateSupportReply.
  destruct (truthy (OPENAI_API_KEY env)); run_monad.
  - destruct (invoke o (draws w) (lcMessagesOf env history userMessage));
      simpl; repeat split; auto.
    + intros _. eauto.
    + intros [e He]. discriminate.
    + intros [?|?]; discriminate.
  - repeat split; auto. intros _. eauto.
Qed.

(** The prelude of the send flow.  When it completes, the page of recent
    messages it returns was selected from the table as it stood before the
    user's row was appended, and the log shows the fetch before the insert.
    When it throws, no row has been added. *)
Lemma sendPrelude_run (P : Platform) (env : Env) (s clean : jsstring)
  (o : Oracle) (w : World) :
  match sendPrelude P env s clean o w with
  | (Ok recent, w1) =>
      exists cid row,
        pgUuidIn P s = Some cid
        /\ recent
           = reverse (map (toRow P)
               (selectDesc cid (fun _ => true)
                  (Z.to_nat (CHAT_PAGE_SIZE env)) (messages (db w))))
        /\ messages (db w1) = messages (db w) ++ [row]
        /\ m_sender row = user /\ m_text row = clean
        /\ m_conversation_id row = cid
        /\ (m_id row ∉ map m_id (messages (db w)))
        /\ logged w1 = logged w ++ PRELUDE_LOG
  | (Throw _, w1) => messages (db w1) = messages (db w)
  end.
Proof.
  unfold sendPrelude, mbind, M_bind, log, mret, M_ret. simpl.
  match goal with |- context [ensureConversation P s o ?w0] =>
    pose proof (ensureConversation_run P s o w0) as (Hm1 & Hl1 & _);
    destruct (ensureConversation P s o w0) as [[[]|e1] w1] end;
    simpl in *; [|exact Hm1].
  match goal with |- context [getRecentMessages P s ?n o ?w0] =>
    pose proof (getRecentMessages_run P s n o w0) as (Hd2 & Hl2 & _ & Hp2);
    destruct (getRecentMessages P s n o w0) as [[recent|e2] w2] end;
    simpl in *; [|rewrite Hd2; exact Hm1].
  destruct (Hp2 recent eq_refl) as (cid & Hcid & _ & _ & Hrecent).
  match goal with |- context [insertMessage P s user clean None o ?w0] =>
    pose proof (insertMessage_run P s user clean o w0) as (Hl3 & _ & Hi3);
    destruct (insertMessage P s user clean None o w0) as [[r3|e3] w3] end;
    simpl in *; [|rewrite Hi3, Hd2; exact Hm1].
  destruct Hi3 as (row & Hrows & Hwho & Htext & Hconv & Hfresh).
  rewrite Hd2, Hm1 in Hrows, Hfresh. rewrite Hm1 in Hrecent.
  exists cid, row. repeat split; auto.
  - congruence.
  - rewrite Hl3, Hl2, Hl1, <- !app_assoc. reflexivity.
Qed.

(** C2, where the code departs from it.  The description that heads the
    handler gives the order of the claim (the user's message is saved, then
    the recent history is fetched); the body does the two steps the other
    way round.  On every request the handler accepts, the recent messages
    are fetched before the user's message is inserted.  When both steps
    complete: the page handed on as history was selected from the table as
    it stood before the insert, the inserted row has a key no row of that
    table has and so is not in the page, the log records the fetch before
    the insert, and the submitted text reaches the budgeting as the first
    element of the list built from that history, not from storage.  When a
    step of the prelude throws (the fetch, say), the answer is the generic
    500 and no row has been added: the user's message, which the order of
    the claim would have made durable by then, is lost. *)
Theorem send_flow_fetches_before_insert (P : Platform) (env : Env)
  (b : MessageBody) (s clean : jsstring) (o : Oracle) (w : World) :
  accepted P env b s clean ->
  (forall recent, (sendPrelude P env s clean o w).1 = Ok recent ->
     postMessageHandler P env b o w
     = sendReply P env s clean recent o (sendPrelude P env s clean o w).2
     /\ (exists cid row,
           pgUuidIn P s = Some cid
           /\ recent
              = reverse (map (toRow P)
                  (selectDesc cid (fun _ => true)
                     (Z.to_nat (CHAT_PAGE_SIZE env)) (messages (db w))))
           /\ messages (db (sendPrelude P env s clean o w).2)
              = messages (db w) ++ [row]
           /\ m_sender row = user /\ m_text row = clean
           /\ (m_id row ∉ map m_id (messages (db w)))
           /\ (row ∉ selectDesc cid (fun _ => true)
                       (Z.to_nat (CHAT_PAGE_SIZE env)) (messages (db w))))
     /\ logged (sendPrelude P env s clean o w).2 = logged w ++ PRELUDE_LOG
     /\ newestToOldestOf (map turnOf recent) clean
        = {| role := user; content := clean |}
            :: reverse (map turnOf recent))
  /\ (forall e, (sendPrelude P env s clean o w).1 = Throw e ->
        postMessageHandler P env b o w
        = failed500 o (sendPrelude P env s clean o w).2
        /\ messages (db (sendPrelude P env s clean o w).2)
           = messages (db w)).
Proof.
  intros Hacc.
  pose proof (postMessageHandler_accepted P env b s clean o w Hacc) as Hh.
  pose proof (sendPrelude_run P env s clean o w) as Hp.
  destruct (sendPrelude P env s clean o w) as [[recent|e] w1]; simpl.
  - split; [|intros e [=]]. intros ? [= <-].
    destruct Hp as (cid & row & Hcid & Hrecent & Hrows & Hwho & Htext & Hconv
                    & Hfresh & Hlog).
    split; [exact Hh|]. split; [|split; [exact Hlog|reflexivity]].
    exists cid, row. repeat split; auto.
    intros Hin. apply selectDesc_elem in Hin as (Hin & _).
    apply Hfresh. apply list_elem_of_fmap. exists row. auto.
  - split; [intros ? [=]|]. intros ? _. auto.
Qed.

Lemma helloBody_accepted :
  accepted refPlatform exampleEnv helloBody exampleSession (js "hello").
Proof.
  exists (js "hello"). repeat split; [discriminate|vm_compute; discriminate].
Defined.

Lemma send_flow_fetches_before_insert_witness :
  postMessageHandler refPlatform exampleEnv helloBody quietOracle exampleWorld
  = sendReply refPlatform exampleEnv exampleSession (js "hello")
      (map (toRow refPlatform) exampleMessages) quietOracle
      (sendPrelude refPlatform exampleEnv exampleSession (js "hello")
         quietOracle exampleWorld).2.
Proof.
  destruct (send_flow_fetches_before_insert refPlatform exampleEnv helloBody
              exampleSession (js "hello") quietOracle exampleWorld
              helloBody_accepted) as [Hok _].
  destruct (Hok (map (toRow refPlatform) exampleMessages)
              ltac:(vm_compute; reflexivity)) as [Heq _].
  exact Heq.
Defined.

(** C2 at a failing input: in the log of a completed request the fetch of
    the recent messages stands before the insert of the user's message; and
    when the round trip of the fetch fails, the request is answered 500 and
    the table is what it was, without the user's message. *)
Lemma send_flow_insert_after_fetch :
  logged (postMessageHandler refPlatform exampleEnv helloBody quietOracle
            exampleWorld).2
  = [(info, "chat.message.start");
     (info, "chat.message.ensure_conversation.ok");
     (info, "chat.message.get_recent.ok");
     (info, "chat.message.insert_user.ok");
     (info, "chat.message.llm.ok");
     (info, "chat.message.insert_ai.ok");
     (info, "chat.message.finish")]%string
  /\ (postMessageHandler refPlatform exampleEnv helloBody fetchFailsOracle
        exampleWorld).1
     = Ok (respond 500 (ErrorJson SOMETHING_WENT_WRONG))
  /\ messages (db (postMessageHandler refPlatform exampleEnv helloBody
                     fetchFailsOracle exampleWorld).2)
     = exampleMessages.
Proof. repeat split; vm_compute; reflexivity. Qed.

Lemma servePage_run (fetch : M (list MessageRow)) (o : Oracle) (w : World) :
  servePage fetch o w
  = match fetch o (withLog w info "chat.history.start") with
    | (Ok page, w1) =>
        (Ok (respond 200 (HistoryJson page (nextCursorOf page))),
         withLog (withLog w1 info "chat.history.fetch.ok") info
           "chat.history.finish")
    | (Throw _, w1) =>
        (Ok (respond 500 (ErrorJson SOMETHING_WENT_WRONG)),
         withLog w1 error "chat.history.failed")
    end.
Proof.
  unfold servePage, tryCatch, withLog. run_monad.
  destruct (fetch o _) as [[page|e] w1]; reflexivity.
Qed.

(** When the model call throws, the reply part answers with the apology and
    adds nothing to the tables. *)
Lemma sendReply_llm_failure (P : Platform) (env : Env) (s clean : jsstring)
  (recent : list MessageRow) (o : Oracle) (w : World) :
  truthy (OPENAI_API_KEY env) = false
  \/ invoke o (draws w) (lcMessagesOf env (map turnOf recent) clean)
     = InvokeThrows ->
  (sendReply P env s clean recent o w).1
  = Ok (respond 502 (ErrorJson LLM_APOLOGY))
  /\ db (sendReply P env s clean recent o w).2 = db w.
Proof.
  intros Hfail.
  pose proof (generateSupportReply_run env (map turnOf recent) clean o w)
    as (Hdb & _ & _ & Hthrow).
  apply Hthrow in Hfail as [e He].
  unfold sendReply, tryCatch. run_monad.
  destruct (generateSupportReply env (map turnOf recent) clean o w)
    as [[reply|e'] w1]; simpl in *; [discriminate|].
  auto.
Qed.

(** The handler always answers, and with one of the listed answers. *)
Lemma postMessageHandler_answers (P : Platform) (env : Env)
  (b : MessageBody) (o : Oracle) (w : World) :
  exists resp w',
    postMessageHandler P env b o w = (Ok resp, w') /\ answers resp.
Proof.
  unfold postMessageHandler, tryCatch, answers.
  destruct (parsePostMessage P b) as [[message s]|];
    unfold mbind, M_bind, mret, M_ret, log; simpl.
  - repeat (case_run; simpl);
      try (eexists; eexists; split; [reflexivity|]; simpl; eauto 12).
  - eexists; eexists; split; [reflexivity|]; simpl; eauto 12.
Qed.

(** So does the route as mounted, with the limiter in front. *)
Lemma postMessage_answers (P : Platform) (env : Env) (ip : jsstring)
  (b : MessageBody) (o : Oracle) (w : World) :
  exists resp w', postMessage P env ip b o w = (Ok resp, w') /\ answers resp.
Proof.
  unfold postMessage, rateLimitMessage, allow, onBuckets, blocked.
  unfold Date_now, mbind, M_bind, mret, M_ret, draw, oracle, log. simpl.
  destruct (truthy (bodySessionId b)); simpl;
    match goal with |- context [allowRequest ?a ?n ?bk] =>
      destruct (allowRequest a n bk) as [[[|] retry] bk'] end; simpl;
    try apply postMessageHandler_answers;
    (eexists; eexists; split; [reflexivity|]; unfold answers; simpl; eauto 12).
Qed.

(** C1.  On an accepted request whose prelude has completed (the user's
    message is in the table), a model call that throws, or a missing key,
    makes the handler answer 502 with the fixed apology.  The table then is
    the table before the request plus the user's row, so no [ai] row has been
    added.  The apology and its status differ from those of the validation
    errors, the rate-limit errors and the generic failure: no answer of the
    route with status 400, 413, 429 or 500 carries it.  A later history
    request without cursor that returns a page returns only rows that are the
    user's row or were there before the request, and the user's row is among
    them when the page size exceeds the number of rows there were, or when
    the user's row is the newest of the conversation. *)
Theorem send_flow_llm_failure_keeps_user_message (P : Platform) (env : Env)
  (b : MessageBody) (s clean : jsstring) (o : Oracle) (w : World)
  (recent : list MessageRow) :
  accepted P env b s clean ->
  (sendPrelude P env s clean o w).1 = Ok recent ->
  truthy (OPENAI_API_KEY env) = false
  \/ invoke o (draws (sendPrelude P env s clean o w).2)
       (lcMessagesOf env (map turnOf recent) clean) = InvokeThrows ->
  (postMessageHandler P env b o w).1
  = Ok (respond 502 (ErrorJson LLM_APOLOGY))
  /\ (exists row,
        messages (db (postMessageHandler P env b o w).2)
        = messages (db w) ++ [row]
        /\ m_sender row = user /\ m_text row = clean
        /\ pgUuidIn P s = Some (m_conversation_id row)
        /\ forall o' q limitArg page next,
             parseHistoryQuery P q = Some (s, None, limitArg) ->
             (getHistoryHandler P env q o'
                (postMessageHandler P env b o w).2).1
             = Ok (respond 200 (HistoryJson page next)) ->
             exists rows,
               page = reverse (map (toRow P) rows)
               /\ (forall m, m ∈ rows -> m = row \/ m ∈ messages (db w))
               /\ (Z.of_nat (length (messages (db w)))
                   < default (CHAT_PAGE_SIZE env) limitArg ->
                   row ∈ rows)
               /\ (NoDup (map m_id (messages (db w))) ->
                   1 <= default (CHAT_PAGE_SIZE env) limitArg ->
                   (forall m, m ∈ messages (db w) ->
                      m_conversation_id m = m_conversation_id row ->
                      newerThan row m) ->
                   row ∈ rows))
  /\ (LLM_APOLOGY ∉ [INVALID_REQUEST; MESSAGE_EMPTY; MESSAGE_TOO_LONG;
                      OVERLOADED_SESSION; OVERLOADED_IP;
                      SOMETHING_WENT_WRONG])
  /\ (forall ip b' o' w' resp,
        (postMessage P env ip b' o' w').1 = Ok resp ->
        status resp ∈ [400; 413; 429; 500] ->
        payload resp <> ErrorJson LLM_APOLOGY).
Proof.
  intros Hacc Hpre Hfail.
  pose proof (postMessageHandler_accepted P env b s clean o w Hacc) as Hh.
  destruct (sendReply_llm_failure P env s clean recent o
              (sendPrelude P env s clean o w).2 Hfail) as [Hres Hdb].
  pose proof (sendPrelude_run P env s clean o w) as Hrun.
  destruct (sendPrelude P env s clean o w) as [[recent'|e] w1] eqn:Epre;
    simpl in *; [|discriminate].
  injection Hpre as ->.
  destruct Hrun
    as (cid & row & Hcid & _ & Hrows & Hwho & Htext & Hconv' & Hfresh & _).
  rewrite Hh. split; [exact Hres|]. split; [|split].
  - exists row. rewrite Hdb, Hrows. repeat split; auto; [congruence|].
    intros o' q limitArg page next Hq Hpage.
    rewrite (getHistoryHandler_cases P env q s None limitArg Hq) in Hpage.
    simpl in Hpage. rewrite servePage_run in Hpage.
    match type of Hpage with context [getRecentMessages P s ?n o' ?w0] =>
      pose proof (getRecentMessages_run P s n o' w0) as (_ & _ & _ & Hp);
      destruct (getRecentMessages P s n o' w0) as [[page'|e'] w2] end;
      simpl in *; [|discriminate].
    injection Hpage as -> _.
    destruct (Hp page eq_refl) as (cid2 & Hcid2 & Hn & _ & ->).
    rewrite Hdb, Hrows in *.
    assert (Hrow : row ∈ messages (db w) ++ [row])
      by (apply elem_of_app; right; apply list_elem_of_singleton; reflexivity).
    eexists. split; [reflexivity|]. split; [|split].
    + intros m Hm. apply selectDesc_elem in Hm as (Hm & _).
      apply elem_of_app in Hm as [Hm|Hm]; [right; exact Hm|].
      left. apply list_elem_of_singleton in Hm. exact Hm.
    + intros Hlen. apply selectDesc_all.
      * rewrite length_app. simpl. lia.
      * exact Hrow.
      * congruence.
      * reflexivity.
    + intros Hnd Hsize Hnewest. apply selectDesc_newest.
      * rewrite map_app. apply NoDup_app. split; [exact Hnd|]. split.
        -- intros i Hi Hi'. apply list_elem_of_singleton in Hi'. subst i.
           exact (Hfresh Hi).
        -- apply NoDup_singleton.
      * lia.
      * exact Hrow.
      * congruence.
      * intros m Hm Hc Hne. apply elem_of_app in Hm as [Hm|Hm].
        -- apply Hnewest; [exact Hm|congruence].
        -- apply list_elem_of_singleton in Hm. contradiction.
  - intros Hin. vm_compute in Hin.
    repeat (apply elem_of_cons in Hin as [Hin|Hin]; [discriminate|]).
    apply elem_of_nil in Hin. exact Hin.
  - intros ip b' o' w' resp Hresp Hstatus Hpay.
    destruct (postMessage_answers P env ip b' o' w')
      as (resp' & w2 & Hrun & Hans).
    rewrite Hrun in Hresp. injection Hresp as ->.
    unfold answers in Hans. rewrite Hpay in Hans.
    destruct Hans as [(_ & ? & ? & ?)|Hans]; [discriminate|].
    repeat (destruct Hans as [[Hst Hp]|Hans];
            [try (vm_compute in Hp; discriminate);
             rewrite Hst in Hstatus;
             repeat (apply elem_of_cons in Hstatus as [Hstatus|Hstatus];
                     [discriminate|]);
             apply elem_of_nil in Hstatus; exact Hstatus|]).
    destruct Hans as [_ Hp]. vm_compute in Hp. discriminate.
Qed.

Lemma send_flow_llm_failure_keeps_user_message_witness :
  (postMessageHandler refPlatform exampleEnv helloBody llmDownOracle
     exampleWorld).1
  = Ok (respond 502 (ErrorJson LLM_APOLOGY))
  /\ map (fun m => (m_sender m, m_text m))
       (messages (db (postMessageHandler refPlatform exampleEnv helloBody
                        llmDownOracle exampleWorld).2))
     = [(user, js "where is my order"); (ai, js "it ships tomorrow");
        (user, js "hello")]
  /\ match (getHistoryHandler refPlatform exampleEnv
              (historyQueryOf None Missing) llmDownOracle
              (postMessageHandler refPlatform exampleEnv helloBody
                 llmDownOracle exampleWorld).2).1 with
     | Ok {| payload := HistoryJson page _ |} =>
         map (fun m => (sender m, text m)) page
     | _ => []
     end
     = [(user, js "where is my order"); (ai, js "it ships tomorrow");
        (user, js "hello")].
Proof.
  split; [|split].
  - refine (proj1 (send_flow_llm_failure_keeps_user_message refPlatform
              exampleEnv helloBody exampleSession (js "hello") llmDownOracle
              exampleWorld (map (toRow refPlatform) exampleMessages)
              helloBody_accepted _ _)).
    + vm_compute. reflexivity.
    + right. reflexivity.
  - vm_compute. reflexivity.
  - vm_compute. reflexivity.
Defined.

(** ** Paging through a conversation *)

Lemma writes_unfold (rows : list DbMessage) (writes : list (list DbMessage)) :
  (rows ++ hd [] writes) ++ concat (tl writes) = rows ++ concat writes.
Proof.
  destruct writes as [|ws writes]; simpl.
  - rewrite !app_nil_r. reflexivity.
  - rewrite app_assoc. reflexivity.
Qed.

Lemma NoDup_ids_app_l (a b : list DbMessage) :
  NoDup (map m_id (a ++ b)) -> NoDup (map m_id a).
Proof. rewrite map_app. intros H. apply NoDup_app in H. tauto. Qed.

(** A page against the sorted filter it is cut from: the rest of the filter
    is strictly older than the oldest row of the page, and the page's other
    rows are strictly newer than it. *)
Lemma page_cut (cid : N) (keep : DbMessage -> bool) (n : nat)
  (rows : list DbMessage) (oldest : DbMessage) :
  NoDup (map m_id rows) ->
  last (selectDesc cid keep n rows) = Some oldest ->
  oldest ∈ selectDesc cid keep n rows
  /\ (forall x, x ∈ selectDesc cid keep n rows ->
        x = oldest \/ newerThan x oldest)
  /\ (forall m, m ∈ rows -> m_conversation_id m = cid -> keep m = true ->
        m ∈ selectDesc cid keep n rows \/ newerThan oldest m).
Proof.
  intros Hnd Hlast.
  pose proof (sortedOf_strict cid keep rows Hnd) as Hs.
  change (selectDesc cid keep n rows) with (take n (sortedOf cid keep rows))
    in *.
  rewrite <- (take_drop n (sortedOf cid keep rows)) in Hs.
  apply last_Some in Hlast as [l' Hl']. rewrite Hl' in *.
  apply StronglySorted_app in Hs as (Hcross & Hpage & _).
  apply StronglySorted_app in Hpage as (Hin & _ & _).
  split; [apply elem_of_app; right; apply list_elem_of_singleton; reflexivity|].
  split.
  - intros x Hx. apply elem_of_app in Hx as [Hx|Hx].
    + right. apply Hin; [exact Hx|apply list_elem_of_singleton; reflexivity].
    + left. apply list_elem_of_singleton in Hx. exact Hx.
  - intros m Hm Hc Hk.
    assert (Hms : m ∈ take n (sortedOf cid keep rows)
                      ++ drop n (sortedOf cid keep rows))
      by (rewrite take_drop; apply sortedOf_elem; auto).
    rewrite Hl' in Hms. apply elem_of_app in Hms as [Hms|Hms]; [left; exact Hms|].
    right. apply Hcross; [|exact Hms].
    apply elem_of_app. right. apply list_elem_of_singleton. reflexivity.
Qed.

Lemma page_empty (cid : N) (keep : DbMessage -> bool) (n : nat)
  (rows : list DbMessage) (m : DbMessage) :
  (1 <= n)%nat -> last (selectDesc cid keep n rows) = None ->
  m ∈ rows -> m_conversation_id m = cid -> keep m = true -> False.
Proof.
  intros Hn Hlast Hm Hc Hk.
  assert (Hs : m ∈ sortedOf cid keep rows) by (apply sortedOf_elem; auto).
  change (selectDesc cid keep n rows) with (take n (sortedOf cid keep rows))
    in Hlast.
  destruct (sortedOf cid keep rows) as [|x l]; [inversion Hs|].
  destruct n as [|n]; [lia|]. simpl in Hlast.
  assert (is_Some (last (x :: take n l))) as [? E]
    by (apply last_is_Some; discriminate).
  congruence.
Qed.

Lemma keepOf_older (cur : option (Z * N)) (x y : DbMessage) :
  keepOf cur x = true -> newerThan x y -> keepOf cur y = true.
Proof.
  destruct cur as [k|]; simpl; [|reflexivity].
  rewrite !keyLtb_true. intros Hx Hy. eapply keyLt_trans; eassumption.
Qed.

(** The walk on rows.  Whatever other requests insert on the way: the pages,
    in the order they are returned, run strictly from newer to older keys;
    every row returned is a row of the conversation below the starting
    cursor; and every such row that was in the table when the walk started is
    returned. *)
Lemma walkRows_spec (cid : N) (n : nat) :
  (1 <= n)%nat ->
  forall fuel writes cur rows pages,
    NoDup (map m_id (rows ++ concat writes)) ->
    walkRows cid n fuel writes cur rows = Some pages ->
    StronglySorted newerThan (concat pages)
    /\ (forall m, m ∈ concat pages ->
          m ∈ rows ++ concat writes /\ m_conversation_id m = cid
          /\ keepOf cur m = true)
    /\ (forall m, m ∈ rows -> m_conversation_id m = cid ->
          keepOf cur m = true -> m ∈ concat pages).
Proof.
  intros Hn. induction fuel as [|fuel IH]; intros writes cur rows pages Hnd Hw;
    [discriminate|].
  simpl in Hw.
  rewrite <- writes_unfold in Hnd |- *.
  pose proof (NoDup_ids_app_l _ _ Hnd) as Hnd'.
  set (rows' := rows ++ hd [] writes) in *.
  destruct (last (selectDesc cid (keepOf cur) n rows')) as [oldest|] eqn:Hlast.
  - destruct (walkRows cid n fuel (tl writes) (Some (keyOf oldest)) rows')
      as [later|] eqn:Hlater; [|discriminate].
    injection Hw as <-.
    destruct (IH _ _ _ _ Hnd Hlater) as (Hsorted & Hsound & Hcomplete).
    destruct (page_cut cid (keepOf cur) n rows' oldest Hnd' Hlast)
      as (Hold & Hnewer & Hcut).
    pose proof (selectDesc_elem cid (keepOf cur) n rows' oldest Hold)
      as (_ & _ & Hkold).
    simpl concat. split; [|split].
    + apply StronglySorted_app_2; [|idtac|exact Hsorted].
      * intros x1 x2 Hx1 Hx2.
        destruct (Hsound x2 Hx2) as (_ & _ & Hk2). simpl in Hk2.
        apply keyLtb_true in Hk2.
        destruct (Hnewer x1 Hx1) as [->|Hx]; [exact Hk2|].
        unfold newerThan in *. eapply keyLt_trans; eassumption.
      * pose proof (sortedOf_strict cid (keepOf cur) rows' Hnd') as Hs.
        rewrite <- (take_drop n (sortedOf cid (keepOf cur) rows')) in Hs.
        apply StronglySorted_app_1_l in Hs. exact Hs.
    + intros m Hm. apply elem_of_app in Hm as [Hm|Hm].
      * apply selectDesc_elem in Hm as (Hm & Hc & Hk).
        repeat split; auto. apply elem_of_app. left. exact Hm.
      * destruct (Hsound m Hm) as (Hin & Hc & Hk). repeat split; auto.
        simpl in Hk. apply keyLtb_true in Hk.
        apply (keepOf_older cur oldest m Hkold Hk).
    + intros m Hm Hc Hk. apply elem_of_app.
      assert (Hm' : m ∈ rows') by (apply elem_of_app; left; exact Hm).
      destruct (Hcut m Hm' Hc Hk) as [Hin|Hlt]; [left; exact Hin|].
      right. apply Hcomplete; auto. simpl. apply keyLtb_true. exact Hlt.
  - injection Hw as <-. simpl. rewrite app_nil_r.
    assert (Hnil : selectDesc cid (keepOf cur) n rows' = []).
    { destruct (selectDesc cid (keepOf cur) n rows') as [|x l] eqn:E;
        [reflexivity|].
      assert (is_Some (last (x :: l))) as [? E']
        by (apply last_is_Some; discriminate).
      congruence. }
    rewrite Hnil. split; [constructor|]. split.
    + intros m Hm. inversion Hm.
    + intros m Hm Hc Hk. exfalso.
      apply (page_empty cid (keepOf cur) n rows' m Hn Hlast); auto.
      apply elem_of_app. left. exact Hm.
Qed.

Lemma filter_length_lt {A} (f g : A -> bool) (l : list A) (x : A) :
  (forall y, g y = true -> f y = true) ->
  x ∈ l -> f x = true -> g x = false ->
  (length (List.filter g l) < length (List.filter f l))%nat.
Proof.
  intros Hsub. induction l as [|y l IH]; intros Hx Hf Hg; [inversion Hx|].
  assert (Hle : (length (List.filter g l) <= length (List.filter f l))%nat).
  { clear -Hsub. induction l as [|z l IH]; simpl; [lia|].
    destruct (g z) eqn:Eg; [rewrite (Hsub z Eg); simpl; lia|].
    destruct (f z); simpl; lia. }
  apply elem_of_cons in Hx as [<-|Hx]; simpl.
  - rewrite Hf, Hg. simpl. lia.
  - specialize (IH Hx Hf Hg).
    destruct (g y) eqn:Eg; [rewrite (Hsub y Eg); simpl; lia|].
    destruct (f y); simpl; lia.
Qed.

(** The walk ends: each page that is not empty moves the cursor below a row
    that was still ahead, so fuel beyond the number of rows ahead is never
    used up. *)
Lemma walkRows_terminates (cid : N) (n : nat) :
  forall fuel writes cur rows,
    (length (List.filter
               (fun m => bool_decide (m_conversation_id m = cid)
                         && keepOf cur m)
               (rows ++ concat writes)) < fuel)%nat ->
    is_Some (walkRows cid n fuel writes cur rows).
Proof.
  induction fuel as [|fuel IH]; intros writes cur rows Hlen; [lia|].
  simpl. rewrite <- writes_unfold in Hlen.
  set (rows' := rows ++ hd [] writes) in *.
  destruct (last (selectDesc cid (keepOf cur) n rows')) as [oldest|] eqn:Hlast;
    [|eauto].
  apply last_Some_elem_of, selectDesc_elem in Hlast as (Hin & Hc & Hk).
  destruct (IH (tl writes) (Some (keyOf oldest)) rows') as [later ->];
    [|simpl; eauto].
  eapply Nat.lt_le_trans; [|apply Nat.lt_succ_r, Hlen].
  apply (filter_length_lt _ _ _ oldest).
  - intros y Hy. apply andb_true_iff in Hy as [Hyc Hyk].
    rewrite Hyc. simpl in *. apply keyLtb_true in Hyk.
    apply (keepOf_older cur oldest y Hk Hyk).
  - apply elem_of_app. left. exact Hin.
  - rewrite Hk, andb_true_r. apply bool_decide_eq_true. exact Hc.
  - simpl. apply andb_false_iff. right.
    apply keyLtb_false. right. reflexivity.
Qed.

Lemma nextCursorOf_page (P : Platform) (page : list DbMessage) :
  nextCursorOf (reverse (map (toRow P) page))
  = cursorOf P <$> last page.
Proof.
  destruct page as [|x page] using rev_ind; [reflexivity|].
  rewrite map_app, reverse_app, last_snoc. reflexivity.
Qed.

Lemma map_reverse {A B} (f : A -> B) (l : list A) :
  map f (reverse l) = reverse (map f l).
Proof.
  induction l as [|x l IH]; [reflexivity|].
  simpl. rewrite !reverse_cons, map_app, IH. reflexivity.
Qed.

Lemma concat_reverse_pages {A} (l : list (list A)) :
  concat (reverse (map reverse l)) = reverse (concat l).
Proof.
  induction l as [|x l IH]; [reflexivity|].
  simpl. rewrite reverse_cons, concat_app, IH, reverse_app. simpl.
  rewrite app_nil_r. reflexivity.
Qed.

Lemma concat_map_reverse_perm {A} (l : list (list A)) :
  concat (map reverse l) ≡ₚ concat l.
Proof.
  induction l as [|x l IH]; [reflexivity|].
  simpl. rewrite IH, reverse_Permutation. reflexivity.
Qed.

Lemma StronglySorted_reverse_flip (l : list DbMessage) :
  StronglySorted newerThan l -> StronglySorted olderThan (reverse l).
Proof.
  induction 1 as [|x l Hs IH Hx]; [constructor|].
  rewrite reverse_cons. apply StronglySorted_app_2; [|exact IH|repeat constructor].
  intros x1 x2 Hx1 Hx2. apply list_elem_of_singleton in Hx2 as ->.
  rewrite elem_of_reverse in Hx1. rewrite Forall_forall in Hx.
  apply (Hx x1 Hx1).
Qed.

Lemma StronglySorted_concat {A} (R : relation A) (l : list (list A)) :
  StronglySorted R (concat l) -> Forall (StronglySorted R) l.
Proof.
  induction l as [|x l IH]; simpl; intros H; [constructor|].
  apply StronglySorted_app in H as (_ & Hx & Hl). constructor; auto.
Qed.

Lemma StronglySorted_newer_NoDup (l : list DbMessage) :
  StronglySorted newerThan l -> NoDup l.
Proof.
  induction 1 as [|x l Hs IH Hx]; constructor; [|exact IH].
  intros Hin. rewrite Forall_forall in Hx.
  apply (keyLt_irrefl (keyOf x)), (Hx x Hin).
Qed.

(** A cursor text leads to one key at most. *)
Lemma decodesTo_functional (P : Platform) (c : jsstring) (k k' : Z * N) :
  decodesTo P c k = true -> decodesTo P c k' = true -> k = k'.
Proof.
  unfold decodesTo.
  destruct (parseCursor P (Some c)) as [cr|]; [|discriminate].
  destruct (uuid cr) as [idText|]; [|discriminate].
  rewrite !andb_true_iff, !bool_decide_eq_true.
  intros ((_ & H1) & H2) ((_ & H1') & H2').
  destruct k, k'; simpl in *. congruence.
Qed.

(** Rows with faithful cursors are told apart by what the routes return. *)
Lemma toRow_inj_faithful (P : Platform) (rows : list DbMessage)
  (x y : DbMessage) :
  NoDup (map m_id rows) -> x ∈ rows -> y ∈ rows ->
  faithful P x = true -> faithful P y = true ->
  toRow P x = toRow P y -> x = y.
Proof.
  intros Hnd Hx Hy Hfx Hfy E.
  apply (same_id_same_row rows); auto.
  assert (Hc : cursorOf P x = cursorOf P y).
  { unfold cursorOf. injection E as Hid _ _ _ Hts. rewrite Hid, Hts.
    reflexivity. }
  unfold faithful in *. rewrite Hc in Hfx.
  pose proof (decodesTo_functional P _ _ _ Hfx Hfy) as Hk.
  unfold keyOf in Hk. congruence.
Qed.

(** A page size that passes validation is at least 1, and it is the limit
    the handler works with. *)
Lemma pageSizeOf_spec (env : Env) (qn : QueryNumber) (n : Z) :
  pageSizeOf env qn = Some n ->
  1 <= n
  /\ exists limitArg,
       default (CHAT_PAGE_SIZE env) limitArg = n
       /\ forall P s cursor, zodUuid P s = true ->
            parseHistoryQuery P
              {| querySessionId := Some s; queryCursor := cursor;
                 queryLimit := qn |} = Some (s, cursor, limitArg).
Proof.
  unfold pageSizeOf, parseHistoryQuery. simpl.
  destruct qn as [| |k]; [|discriminate|].
  - destruct (1 <=? CHAT_PAGE_SIZE env) eqn:E; [|discriminate].
    intros [= <-]. split; [lia|]. exists None. split; [reflexivity|].
    intros P s cursor ->. reflexivity.
  - destruct ((0 <? k) && (k <=? 100)) eqn:E; [|discriminate].
    intros [= <-]. split; [lia|]. exists (Some k). split; [reflexivity|].
    intros P s cursor ->. reflexivity.
Qed.

Section Walk.

  (** A walk: one platform and configuration, one session that passes
      validation and casts to the conversation [cid], one page size that
      passes validation, surroundings in which no round trip fails. *)
  Context (P : Platform) (env : Env) (s : jsstring) (cid : N)
    (qn : QueryNumber) (n : Z) (o : Oracle).
  Hypothesis session_valid : zodUuid P s = true.
  Hypothesis session_cast : pgUuidIn P s = Some cid.
  Hypothesis size_valid : pageSizeOf env qn = Some n.
  Hypothesis no_fault : forall i, queryFails o i = false.

(** One history request of the walk, when the cursor, if any, leads to the
    key [cur]: the answer is the page selected below [cur] from the table as
    it stands, oldest row first, with the cursor of its oldest row. *)
Lemma getHistoryHandler_page (w : World) (cursor : option jsstring)
  (cur : option (Z * N)) :
  standsAt P cursor cur ->
  exists w',
    getHistoryHandler P env
      {| querySessionId := Some s; queryCursor := cursor; queryLimit := qn |}
      o w
    = (Ok (respond 200
             (HistoryJson
                (reverse (map (toRow P)
                   (selectDesc cid (keepOf cur) (Z.to_nat n)
                      (messages (db w)))))
                (nextCursorOf
                   (reverse (map (toRow P)
                      (selectDesc cid (keepOf cur) (Z.to_nat n)
                         (messages (db w)))))))),
       w')
    /\ db w' = db w.
Proof.
  intros Hat.
  destruct (pageSizeOf_spec env qn n size_valid)
    as (Hpos & limitArg & Hdef & Hparse).
  rewrite (getHistoryHandler_cases P env _ s cursor limitArg
             (Hparse P s cursor session_valid)), Hdef.
  assert (Hlim : (n <? 0) = false) by lia.
  destruct cursor as [c|], cur as [k|]; simpl in Hat; try contradiction.
  - unfold decodesTo in Hat.
    assert (Ht : truthy (Some c) = true).
    { destruct (truthy (Some c)) eqn:E; [reflexivity|].
      unfold parseCursor in Hat. rewrite E in Hat. discriminate. }
    rewrite Ht.
    destruct (parseCursor P (Some c)) as [cr|]; [|discriminate].
    destruct (uuid cr) as [idText|] eqn:Hid; [|discriminate].
    apply andb_true_iff in Hat as [Hat Hu].
    apply andb_true_iff in Hat as [Htr Hts].
    apply bool_decide_eq_true in Hu, Hts.
    rewrite servePage_run. unfold getOlderMessages. run_monad.
    rewrite no_fault. simpl. rewrite session_cast. simpl. rewrite Hts. simpl.
    rewrite Htr. simpl. rewrite Hu. simpl. rewrite Hlim. simpl.
    destruct k as [t i]. simpl. eexists. split; reflexivity.
  - change (truthy None) with false. cbv iota.
    rewrite servePage_run. unfold getRecentMessages. run_monad.
    rewrite no_fault. simpl. rewrite session_cast. simpl. rewrite Hlim. simpl.
    eexists. split; reflexivity.
Qed.

(** The walk of the client is the walk on rows, each page shown oldest row
    first. *)
Lemma walkHistory_refines :
  forall fuel writes cursor cur w,
    (forall m, m ∈ messages (db w) ++ concat writes ->
       m_conversation_id m = cid -> faithful P m = true) ->
    standsAt P cursor cur ->
    (walkHistory P env s qn fuel writes cursor o w).1
    = Ok (map (fun page => reverse (map (toRow P) page))
            <$> walkRows cid (Z.to_nat n) fuel writes cur (messages (db w))).
Proof.
  induction fuel as [|fuel IH]; intros writes cursor cur w Hf Hat;
    [reflexivity|].
  simpl walkHistory. simpl walkRows.
  unfold concurrentInserts. run_monad.
  match goal with |- context [getHistoryHandler P env ?q o ?w0] =>
    destruct (getHistoryHandler_page w0 cursor cur Hat) as (w' & -> & Hdb) end.
  simpl in *. rewrite nextCursorOf_page.
  set (rows' := messages (db w) ++ hd [] writes) in *.
  destruct (last (selectDesc cid (keepOf cur) (Z.to_nat n) rows'))
    as [oldest|] eqn:Hlast; simpl; [|reflexivity].
  assert (Hf' : forall m, m ∈ messages (db w') ++ concat (tl writes) ->
            m_conversation_id m = cid -> faithful P m = true).
  { rewrite Hdb. simpl. fold rows'. unfold rows'. rewrite writes_unfold.
    exact Hf. }
  assert (Hat' : standsAt P (Some (cursorOf P oldest)) (Some (keyOf oldest))).
  { simpl. apply last_Some_elem_of, selectDesc_elem in Hlast as (Hin & Hc & _).
    apply Hf; [|exact Hc]. rewrite <- writes_unfold. apply elem_of_app. left.
    exact Hin. }
  specialize (IH (tl writes) (Some (cursorOf P oldest)) (Some (keyOf oldest))
                w' Hf' Hat').
  rewrite Hdb in IH. simpl in IH. fold rows' in IH.
  destruct (walkHistory P env s qn fuel (tl writes)
              (Some (cursorOf P oldest)) o w') as [[later|e] w''];
    simpl in *; [|discriminate].
  injection IH as ->.
  destruct (walkRows cid (Z.to_nat n) fuel (tl writes) (Some (keyOf oldest))
              rows'); reflexivity.
Qed.

(** X1.  What paging guarantees when cursors are faithful.  A client that
    asks for the history of a conversation and keeps feeding the [nextCursor] of each answer into the next request reaches
    [nextCursor: null], given a valid session and page size, no failing round
    trip, a primary key on the table, and cursors that lead back to the key of
    the row they are built from.  The pages it has then received, [pages]
    below in the order of the calls, are each in ascending order of
    [(created_at, id)]; put together from the last call to the first they are
    in ascending order as a whole, so that no row comes twice, as rows of the
    table and as rows returned; every message the conversation had when the
    walk began is in one of them, whatever other requests insert meanwhile;
    and when nothing is inserted meanwhile, the pages hold exactly the
    messages of the conversation. *)
Theorem history_walk_yields_each_message_once (w : World)
  (writes : list (list DbMessage)) (fuel : nat) :
  NoDup (map m_id (messages (db w) ++ concat writes)) ->
  (forall m, m ∈ messages (db w) ++ concat writes ->
     m_conversation_id m = cid -> faithful P m = true) ->
  (length (List.filter (fun m => bool_decide (m_conversation_id m = cid))
             (messages (db w) ++ concat writes)) < fuel)%nat ->
  exists pages : list (list DbMessage),
    (walkHistory P env s qn fuel writes None o w).1
    = Ok (Some (map (map (toRow P)) pages))
    /\ Forall (StronglySorted olderThan) pages
    /\ StronglySorted olderThan (concat (reverse pages))
    /\ NoDup (concat (map (map (toRow P)) pages))
    /\ (forall m, m ∈ messages (db w) -> m_conversation_id m = cid ->
          m ∈ concat pages)
    /\ (forall m, m ∈ concat pages ->
          m ∈ messages (db w) ++ concat writes /\ m_conversation_id m = cid)
    /\ (concat writes = [] ->
        concat pages
        ≡ₚ List.filter (fun m => bool_decide (m_conversation_id m = cid))
             (messages (db w))).
Proof.
  intros Hnd Hf Hfuel.
  assert (Hn1 : (1 <= Z.to_nat n)%nat)
    by (destruct (pageSizeOf_spec env qn n size_valid) as [Hpos _]; lia).
  destruct (walkRows_terminates cid (Z.to_nat n) fuel writes None
              (messages (db w))) as [dpages Hwalk].
  { erewrite List.filter_ext; [exact Hfuel|].
    intros m. simpl. apply andb_true_r. }
  destruct (walkRows_spec cid (Z.to_nat n) Hn1 fuel writes None
              (messages (db w)) dpages Hnd Hwalk)
    as (Hsorted & Hsound & Hcomplete).
  pose proof (walkHistory_refines fuel writes None None w Hf I) as Hrun.
  rewrite Hwalk in Hrun. simpl in Hrun.
  exists (map reverse dpages).
  assert (Hmem : forall m, m ∈ concat (map reverse dpages) <-> m ∈ concat dpages)
    by (intros m; rewrite concat_map_reverse_perm; reflexivity).
  split; [|split; [|split; [|split; [|split; [|split]]]]].
  - rewrite Hrun. do 2 f_equal. rewrite map_map.
    apply map_ext. intros page. symmetry. apply map_reverse.
  - apply StronglySorted_concat in Hsorted.
    rewrite Forall_forall in *. intros page Hpage.
    apply list_elem_of_fmap in Hpage as (d & -> & Hd).
    apply StronglySorted_reverse_flip, Hsorted, Hd.
  - rewrite concat_reverse_pages. apply StronglySorted_reverse_flip, Hsorted.
  - rewrite <- concat_map.
    apply (NoDup_fmap_2_strong (toRow P)).
    + intros x y Hx Hy E. apply Hmem, Hsound in Hx as (Hx & Hxc & _).
      apply Hmem, Hsound in Hy as (Hy & Hyc & _).
      apply (toRow_inj_faithful P (messages (db w) ++ concat writes)); auto.
    + rewrite concat_map_reverse_perm.
      apply StronglySorted_newer_NoDup, Hsorted.
  - intros m Hm Hc. apply Hmem, Hcomplete; auto.
  - intros m Hm. apply Hmem, Hsound in Hm as (Hm & Hc & _). auto.
  - intros Hstatic. rewrite concat_map_reverse_perm.
    apply NoDup_Permutation.
    + apply StronglySorted_newer_NoDup, Hsorted.
    + apply NoDup_ListNoDup, List.NoDup_filter, NoDup_ListNoDup, NoDup_rows.
      apply (NoDup_ids_app_l _ _ Hnd).
    + intros m. split.
      * intros Hm. apply Hsound in Hm as (Hm & Hc & _).
        rewrite Hstatic, app_nil_r in Hm.
        apply list_elem_of_In, filter_In.
        split; [apply list_elem_of_In, Hm|apply bool_decide_eq_true, Hc].
      * intros Hm. apply list_elem_of_In, filter_In in Hm as [Hm Hc].
        apply bool_decide_eq_true in Hc.
        apply Hcomplete; auto. apply list_elem_of_In, Hm.
Qed.

End Walk.

(** The two example messages, paged one row at a time on the reference
    platform: the newer row, then the older one, then the empty page that
    ends the walk. *)
Lemma history_walk_yields_each_message_once_witness :
  exists pages : list (list DbMessage),
    (walkHistory refPlatform exampleEnv exampleSession (Int 1) 3 [] None
       quietOracle exampleWorld).1
    = Ok (Some (map (map (toRow refPlatform)) pages))
    /\ concat pages ≡ₚ exampleMessages.
Proof.
  destruct (history_walk_yields_each_message_once refPlatform exampleEnv
              exampleSession exampleSessionId (Int 1) 1 quietOracle
              eq_refl ltac:(vm_compute; reflexivity) eq_refl
              (fun _ => eq_refl) exampleWorld [] 3)
    as (pages & Hrun & _ & _ & _ & _ & _ & Hall).
  - apply (bool_decide_unpack _). vm_compute. exact I.
  - intros m Hm _. apply list_elem_of_In in Hm. simpl in Hm.
    destruct Hm as [<-|[<-|[]]]; vm_compute; reflexivity.
  - vm_compute. lia.
  - exists pages. split; [exact Hrun|]. apply Hall. reflexivity.
Defined.

Example history_walk_example :
  (walkHistory refPlatform exampleEnv exampleSession (Int 1) 3 [] None
     quietOracle exampleWorld).1
  = Ok (Some (map (map (toRow refPlatform))
                [[answeredMessage]; [askedMessage]; []])).
Proof. vm_compute. reflexivity. Qed.

(** A message that another request inserts between the first and the second
    page, newer than the cursor, is not part of the walk; the two messages
    that were there are returned as before. *)
Example history_walk_with_concurrent_insert :
  (walkHistory refPlatform exampleEnv exampleSession (Int 1) 4
     [[];
      [{| m_id := 0x9b2f6c1e3d4a4f5b8c6d7e8f9a0b1c03;
          m_conversation_id := exampleSessionId; m_sender := user;
          m_text := js "thanks"; m_created_at := 1766944361000 |}]]
     None quietOracle exampleWorld).1
  = Ok (Some (map (map (toRow refPlatform))
                [[answeredMessage]; [askedMessage]; []])).
Proof. vm_compute. reflexivity. Qed.

(** C3, at an input where the code departs from it.  [insertMessage] stores
    [created_at] to the millisecond, and the route builds [nextCursor] from
    the text of [created_at], which for a [Date] is to the second.  With two
    messages of one conversation 400 ms apart within one second and a page
    size of 1: the first page holds the newer message; its cursor does not
    lead back to the key of that message but to the start of its second; the
    older message is not below that position, so the second page is empty and
    [nextCursor] is null.  The walk has ended, and the older message, which is
    in the table, is in no page. *)
Theorem history_walk_skips_same_second_message :
  faithful dateTextPlatform answeredMessage = false
  /\ nextCursorOf [toRow dateTextPlatform answeredMessage]
     = Some (js "Sun Dec 28 2025 17:52:34 GMT+0000 (Coordinated Universal Time)|9b2f6c1e-3d4a-4f5b-8c6d-7e8f9a0b1c02")
  /\ decodesTo dateTextPlatform
       (js "Sun Dec 28 2025 17:52:34 GMT+0000 (Coordinated Universal Time)|9b2f6c1e-3d4a-4f5b-8c6d-7e8f9a0b1c02")
       (1766944354000, m_id answeredMessage) = true
  /\ (walkHistory dateTextPlatform exampleEnv exampleSession (Int 1) 3 []
        None quietOracle exampleWorld).1
     = Ok (Some (map (map (toRow dateTextPlatform)) [[answeredMessage]; []]))
  /\ askedMessage ∈ messages (db exampleWorld).
Proof.
  split; [vm_compute; reflexivity|].
  split; [vm_compute; reflexivity|].
  split; [vm_compute; reflexivity|].
  split; [vm_compute; reflexivity|].
  unfold exampleWorld, exampleMessages. simpl. apply list_elem_of_here.
Qed.

(* ===================================================================== *)
(** * Further properties of the code *)
(* ===================================================================== *)

(** ** The rate limiter: isolation of keys, exact counts, retrying *)

(** What a call answers, and the entry it leaves, depend on the entry of its
    key alone. *)
Lemma allowRequest_local (args : AllowArgs) (now : Z)
  (b b' : gmap jsstring Entry) :
  b !! key args = b' !! key args ->
  (allowRequest args now b).1 = (allowRequest args now b').1
  /\ (allowRequest args now b).2 !! key args
     = (allowRequest args now b').2 !! key args.
Proof.
  intros E. unfold allowRequest. rewrite <- E.
  destruct (b !! key args) as [e|] eqn:Hb; simpl.
  - destruct (resetAt e <=? now); simpl;
      [rewrite !lookup_insert_eq; auto|].
    destruct (count e >=? max args); simpl;
      [rewrite <- E, Hb; auto|rewrite !lookup_insert_eq; auto].
  - rewrite !lookup_insert_eq. auto.
Qed.

(** X2.  Keys do not interfere: in any interleaving of calls, the answers
    given to the calls of one key, and the entry that key ends with, are
    those the calls of that key would get if they were made alone, from any
    map that holds the same entry for the key. *)
Theorem runCalls_isolates_keys (k : jsstring) (calls : list Call)
  (b b' : gmap jsstring Entry) :
  b !! k = b' !! k ->
  resultsFor k calls (runCalls calls b).1 = (runCalls (callsOf k calls) b').1
  /\ (runCalls calls b).2 !! k = (runCalls (callsOf k calls) b').2 !! k.
Proof.
  revert b b'. induction calls as [|c calls IH]; intros b b' E; simpl; [auto|].
  destruct (allowRequest (callArgs c) (callNow c) b) as [r b1] eqn:E1.
  destruct (runCalls calls b1) as [rs b2] eqn:E2. simpl.
  destruct (decide (key (callArgs c) = k)) as [Hk|Hk].
  - rewrite bool_decide_eq_true_2 by exact Hk. simpl.
    destruct (allowRequest (callArgs c) (callNow c) b') as [r' b1'] eqn:E1'.
    destruct (runCalls (callsOf k calls) b1') as [rs' b2'] eqn:E2'. simpl.
    rewrite <- Hk in E.
    destruct (allowRequest_local (callArgs c) (callNow c) b b' E) as [Hr Hb].
    rewrite E1, E1' in Hr, Hb. simpl in Hr, Hb. rewrite Hk in Hb.
    specialize (IH b1 b1' Hb). rewrite E2, E2' in IH. simpl in IH.
    destruct IH as [IH1 IH2]. rewrite Hr, IH1. auto.
  - rewrite bool_decide_eq_false_2 by exact Hk. simpl.
    assert (Hb : b1 !! k = b' !! k).
    { replace b1 with (allowRequest (callArgs c) (callNow c) b).2
        by (rewrite E1; reflexivity).
      rewrite allowRequest_other_key by exact Hk. exact E. }
    specialize (IH b1 b' Hb). rewrite E2 in IH. exact IH.
Qed.

Lemma runCalls_isolates_keys_witness :
  resultsFor (js "a")
    [openerOf (js "a") 1000 1 0; openerOf (js "b") 1000 1 1;
     openerOf (js "a") 1000 1 2]
    (runCalls [openerOf (js "a") 1000 1 0; openerOf (js "b") 1000 1 1;
               openerOf (js "a") 1000 1 2] ∅).1
  = (runCalls [openerOf (js "a") 1000 1 0; openerOf (js "a") 1000 1 2] ∅).1.
Proof.
  refine (proj1 (runCalls_isolates_keys (js "a")
            [openerOf (js "a") 1000 1 0; openerOf (js "b") 1000 1 1;
             openerOf (js "a") 1000 1 2] ∅ ∅ _)).
  reflexivity.
Defined.

(** Inside a window, calls of its key alone: the count in the entry grows by
    one per allowed call, and exactly the calls that find it below [M] are
    allowed. *)
Lemma runCalls_window_exact (k : jsstring) (M r : Z) (cs : list Call) :
  forall (b : gmap jsstring Entry) (c : Z),
    b !! k = Some {| count := c; resetAt := r |} ->
    (forall call, In call cs ->
       key (callArgs call) = k /\ max (callArgs call) = M
       /\ callNow call < r) ->
    allowedFor k cs (runCalls cs b).1
    = Z.min (Z.of_nat (length cs)) (Z.max 0 (M - c)).
Proof.
  induction cs as [|call cs IH]; intros b c Hb Hcs; [simpl; lia|].
  cbn [runCalls allowedFor length].
  destruct (Hcs call (or_introl eq_refl)) as (Hk & HM & Hnow).
  assert (Hrest : forall call', In call' cs ->
            key (callArgs call') = k /\ max (callArgs call') = M
            /\ callNow call' < r)
    by (intros; apply Hcs; right; assumption).
  unfold allowRequest. rewrite Hk, Hb. simpl.
  destruct (r <=? callNow call) eqn:Hr; [lia|].
  destruct (c >=? max (callArgs call)) eqn:Hc.
  - specialize (IH b c Hb Hrest).
    destruct (runCalls cs b) as [rs b2]. simpl in *.
    destruct (decide (k = k)); [|congruence]. lia.
  - specialize (IH (<[k:={| count := c + 1; resetAt := r |}]> b) (c + 1)
                  (lookup_insert_eq _ _ _) Hrest).
    destruct (runCalls cs _) as [rs b2]. simpl in *.
    destruct (decide (k = k)); [|congruence]. lia.
Qed.

(** X3.  The limit is exact.  In a window instance in which only calls of
    its key arrive (by X2 others do not matter), the number of allowed calls
    is the smaller of the number of calls and [max(1, maxRequests)]: no call
    is denied before the limit is reached, none is allowed after. *)
Theorem allowRequest_window_exact (k : jsstring) (w M t0 : Z)
  (cs : list Call) (b : gmap jsstring Entry) :
  opensWindow k t0 b = true ->
  (forall call, In call cs ->
     key (callArgs call) = k /\ max (callArgs call) = M
     /\ callNow call < t0 + w) ->
  allowedFor k (openerOf k w M t0 :: cs)
    (runCalls (openerOf k w M t0 :: cs) b).1
  = Z.min (1 + Z.of_nat (length cs)) (Z.max 1 M).
Proof.
  intros Hopen Hcs. cbn [runCalls allowedFor openerOf callArgs callNow].
  rewrite (allowRequest_opens {| key := k; windowMs := w; max := M |} t0 b
             Hopen).
  cbn [key windowMs].
  pose proof (runCalls_window_exact k M (t0 + w) cs
                (<[k:={| count := 1; resetAt := t0 + w |}]> b) 1
                (lookup_insert_eq _ _ _) Hcs) as Hin.
  destruct (runCalls cs _) as [rs b2]. simpl in *.
  destruct (decide (k = k)); [|congruence]. lia.
Qed.

Lemma allowRequest_window_exact_witness :
  allowedFor (js "k")
    (openerOf (js "k") 1000 2 0
       :: [openerOf (js "k") 1000 2 10; openerOf (js "k") 1000 2 20])
    (runCalls (openerOf (js "k") 1000 2 0
                 :: [openerOf (js "k") 1000 2 10;
                     openerOf (js "k") 1000 2 20]) ∅).1
  = 2.
Proof.
  refine (allowRequest_window_exact (js "k") 1000 2 0
            [openerOf (js "k") 1000 2 10; openerOf (js "k") 1000 2 20] ∅ _ _).
  - reflexivity.
  - intros call [<-|[<-|[]]]; simpl; repeat split; lia.
Defined.

Lemma runCalls_other_keys (k : jsstring) (others : list Call)
  (b : gmap jsstring Entry) :
  (forall c, In c others -> key (callArgs c) <> k) ->
  (runCalls others b).2 !! k = b !! k.
Proof.
  revert b. induction others as [|c others IH]; intros b Hothers;
    [reflexivity|].
  cbn [runCalls].
  pose proof (allowRequest_other_key (callArgs c) (callNow c) b k
                (Hothers c (or_introl eq_refl))) as Hstep.
  destruct (allowRequest (callArgs c) (callNow c) b) as [r b1].
  specialize (IH b1 (fun c' Hc' => Hothers c' (or_intror Hc'))).
  destruct (runCalls others b1) as [rs b2]. simpl in *. congruence.
Qed.

(** X4.  A denied call changes nothing and reports a positive delay, and
    the next call of its key, made once that delay has passed, is allowed
    whatever its limit: on any bucket map that still holds the entry the
    denied call found for the key, and so after any calls of other keys in
    between.  (A call of the same key in between may open the new window
    first; the statement is about the next call of the key.) *)
Theorem allowRequest_retry_after (args args' : AllowArgs) (now now' r : Z)
  (b : gmap jsstring Entry) :
  allowed (allowRequest args now b).1 = false ->
  retryAfterMs (allowRequest args now b).1 = Some r ->
  key args' = key args ->
  now + r <= now' ->
  0 < r
  /\ (allowRequest args now b).2 = b
  /\ (forall b',
        b' !! key args = (allowRequest args now b).2 !! key args ->
        (allowRequest args' now' b').1
        = {| allowed := true; retryAfterMs := None |})
  /\ (forall others,
        (forall c, In c others -> key (callArgs c) <> key args) ->
        (allowRequest args' now'
           (runCalls others (allowRequest args now b).2).2).1
        = {| allowed := true; retryAfterMs := None |}).
Proof.
  intros Hdenied Hretry Hk Hlater.
  assert (Hshape : exists e, b !! key args = Some e /\ now < resetAt e
                     /\ r = resetAt e - now
                     /\ (allowRequest args now b).2 = b).
  { unfold allowRequest in *.
    destruct (b !! key args) as [e|] eqn:Hb; simpl in *; [|discriminate].
    destruct (resetAt e <=? now) eqn:Hr; simpl in *; [discriminate|].
    destruct (count e >=? max args) eqn:Hc; simpl in *; [|discriminate].
    injection Hretry as <-. exists e. repeat split; solve [lia|reflexivity]. }
  destruct Hshape as (e & Hb & Hnow & -> & ->).
  assert (Hnext : forall b', b' !! key args = b !! key args ->
            (allowRequest args' now' b').1
            = {| allowed := true; retryAfterMs := None |}).
  { intros b' Hb'. rewrite allowRequest_opens; [reflexivity|].
    unfold opensWindow. rewrite Hk, Hb', Hb. lia. }
  split; [lia|]. split; [reflexivity|]. split; [exact Hnext|].
  intros others Hothers. apply Hnext.
  apply runCalls_other_keys. exact Hothers.
Qed.

Lemma allowRequest_retry_after_witness :
  (allowRequest {| key := js "k"; windowMs := 1000; max := 1 |} 1010
     (runCalls [openerOf (js "other") 1000 1 500]
        (allowRequest {| key := js "k"; windowMs := 1000; max := 1 |} 10
           (<[js "k" := {| count := 1; resetAt := 1010 |}]> ∅)).2).2).1
  = {| allowed := true; retryAfterMs := None |}.
Proof.
  refine (proj2 (proj2 (proj2 (allowRequest_retry_after
            {| key := js "k"; windowMs := 1000; max := 1 |}
            {| key := js "k"; windowMs := 1000; max := 1 |} 10 1010 1000
            (<[js "k" := {| count := 1; resetAt := 1010 |}]> ∅) _ _ _ _)))
            [openerOf (js "other") 1000 1 500] _).
  - reflexivity.
  - reflexivity.
  - reflexivity.
  - lia.
  - intros c [<-|[]]. vm_compute. discriminate.
Defined.

(** ** What the operations do to the world *)

(** A relation between the world before and the world after that the
    primitive steps keep is kept by everything built from them. *)
Section Frame.
Context (R : World -> World -> Prop) `{!PreOrder R}.
Context (K : jsstring -> Prop).

Hypothesis R_draw : forall w,
  R w {| db := db w; buckets := buckets w; draws := S (draws w);
         logged := logged w |}.
Hypothesis R_log : forall w level message, R w (withLog w level message).
Hypothesis R_allow : forall w args now,
  K (key args) ->
  R w {| db := db w; buckets := (allowRequest args now (buckets w)).2;
         draws := draws w; logged := logged w |}.
Hypothesis R_ensure : forall w cid,
  R w {| db := {| conversations := {[cid]} ∪ conversations (db w);
                  messages := messages (db w) |};
         buckets := buckets w; draws := draws w; logged := logged w |}.
Hypothesis R_insert : forall w row,
  m_id row ∉ map m_id (messages (db w)) ->
  m_conversation_id row ∈ conversations (db w) ->
  R w {| db := {| conversations := conversations (db w);
                  messages := messages (db w) ++ [row] |};
         buckets := buckets w; draws := draws w; logged := logged w |}.

Lemma respects_ret {A} (a : A) : respects R (mret a).
Proof. intros o w. simpl. reflexivity. Qed.

Lemma respects_throw {A} (e : Error) : respects R (@throw A e).
Proof. intros o w. simpl. reflexivity. Qed.

Lemma respects_bind {A B} (m : M A) (f : A -> M B) :
  respects R m -> (forall a, respects R (f a)) -> respects R (m ≫= f).
Proof.
  intros Hm Hf o w. unfold mbind, M_bind. specialize (Hm o w).
  destruct (m o w) as [[a|e] w1]; simpl in *; [|exact Hm].
  etransitivity; [exact Hm|apply Hf].
Qed.

Lemma respects_bind_run {A B} (m : M A) (f : A -> M B) :
  respects R m ->
  (forall o w a w1, m o w = (Ok a, w1) -> R w1 (f a o w1).2) ->
  respects R (m ≫= f).
Proof.
  intros Hm Hf o w. unfold mbind, M_bind. specialize (Hm o w).
  destruct (m o w) as [[a|e] w1] eqn:E; simpl in *; [|exact Hm].
  etransitivity; [exact Hm|exact (Hf o w a w1 E)].
Qed.

Lemma respects_tryCatch {A} (body : M A) (handler : Error -> M A) :
  respects R body -> (forall e, respects R (handler e)) ->
  respects R (tryCatch body handler).
Proof.
  intros Hm Hf o w. unfold tryCatch. specialize (Hm o w).
  destruct (body o w) as [[a|e] w1]; simpl in *; [exact Hm|].
  etransitivity; [exact Hm|apply Hf].
Qed.

Lemma respects_draw : respects R draw.
Proof. intros o w. apply R_draw. Qed.

Lemma respects_oracle : respects R oracle.
Proof. intros o w. simpl. reflexivity. Qed.

Lemma respects_getDb : respects R getDb.
Proof. intros o w. simpl. reflexivity. Qed.

Lemma respects_log (level : Level) (message : string) :
  respects R (log level message).
Proof. intros o w. apply R_log. Qed.

Lemma respects_cast {A} (v : option A) : respects R (cast v).
Proof. destruct v; [apply respects_ret|apply respects_throw]. Qed.

Lemma respects_Date_now : respects R Date_now.
Proof.
  apply respects_bind; [apply respects_draw|intros n].
  apply respects_bind; [apply respects_oracle|intros o].
  apply respects_ret.
Qed.

Lemma respects_roundTrip : respects R roundTrip.
Proof.
  apply respects_bind; [apply respects_draw|intros n].
  apply respects_bind; [apply respects_oracle|intros o].
  destruct (queryFails o n); [apply respects_throw|apply respects_ret].
Qed.

Lemma respects_getRecentMessages (P : Platform) (s : jsstring) (n : Z) :
  respects R (getRecentMessages P s n).
Proof.
  apply respects_bind; [apply respects_roundTrip|intros _].
  apply respects_bind; [apply respects_cast|intros cid].
  destruct (n <? 0); [apply respects_throw|].
  apply respects_bind; [apply respects_getDb|intros d]. apply respects_ret.
Qed.

Lemma respects_getOlderMessages (P : Platform) (args : OlderArgs) :
  respects R (getOlderMessages P args).
Proof.
  apply respects_bind; [apply respects_roundTrip|intros _].
  apply respects_bind; [apply respects_cast|intros cid].
  apply respects_bind; [apply respects_cast|intros ts].
  apply respects_bind.
  - destruct (truthy (cursorId args)); [|apply respects_ret].
    apply respects_bind; [apply respects_cast|intros cur].
    apply respects_ret.
  - intros keep. destruct (limit args <? 0); [apply respects_throw|].
    apply respects_bind; [apply respects_getDb|intros d].
    apply respects_ret.
Qed.

Lemma respects_generateSupportReply (env : Env) (history : list ChatTurn)
  (userMessage : jsstring) :
  respects R (generateSupportReply env history userMessage).
Proof.
  unfold generateSupportReply.
  destruct (truthy (OPENAI_API_KEY env)); [|apply respects_throw].
  apply respects_bind; [apply respects_draw|intros n].
  apply respects_bind; [apply respects_oracle|intros o].
  destruct (invoke o n _); [apply respects_throw|apply respects_ret].
Qed.

Lemma respects_ensureConversation (P : Platform) (s : jsstring) :
  respects R (ensureConversation P s).
Proof.
  apply respects_bind; [apply respects_roundTrip|intros _].
  apply respects_bind; [apply respects_cast|intros cid].
  apply respects_bind_run; [apply respects_getDb|].
  intros o w d w1 [= <- <-]. apply R_ensure.
Qed.

Lemma respects_insertMessage (P : Platform) (s : jsstring) (who : Sender)
  (body : jsstring) (createdAtArg : option Z) :
  respects R (insertMessage P s who body createdAtArg).
Proof.
  apply respects_bind; [apply respects_draw|intros n].
  apply respects_bind; [apply respects_oracle|intros o].
  apply respects_bind;
    [destruct createdAtArg; [apply respects_ret|apply respects_Date_now]|].
  intros at_. apply respects_bind; [apply respects_roundTrip|intros _].
  apply respects_bind; [apply respects_cast|intros idv].
  apply respects_bind; [apply respects_cast|intros cid].
  apply respects_bind; [apply respects_cast|intros ts].
  apply respects_bind_run; [apply respects_getDb|].
  intros o' w d w1 [= <- <-].
  destruct (bool_decide (idv ∈ map m_id (messages (db w)))) eqn:Hid;
    [apply respects_throw|].
  destruct (bool_decide (cid ∈ conversations (db w))) eqn:Hcid;
    [|apply respects_throw].
  apply bool_decide_eq_false in Hid. apply bool_decide_eq_true in Hcid.
  unfold mbind, M_bind, putDb, mret, M_ret. simpl.
  exact (R_insert w
           {| m_id := idv; m_conversation_id := cid; m_sender := who;
              m_text := body; m_created_at := ts |} Hid Hcid).
Qed.

Lemma respects_allow (args : AllowArgs) :
  K (key args) -> respects R (allow args).
Proof.
  intros HK. apply respects_bind; [apply respects_Date_now|intros now].
  intros o w. unfold onBuckets.
  pose proof (R_allow w args now HK) as H.
  destruct (allowRequest args now (buckets w)) as [r b]. exact H.
Qed.

Lemma respects_blocked (r : AllowResult) (message : jsstring) :
  respects R (blocked r message).
Proof.
  apply respects_bind; [apply respects_log|intros _]. apply respects_ret.
Qed.

Lemma respects_rateLimitMessage (ip : jsstring) (sid : option jsstring)
  (next : M Response) :
  K (messageKeyOf ip sid) -> respects R next ->
  respects R (rateLimitMessage ip sid next).
Proof.
  unfold rateLimitMessage, messageKeyOf. intros HK Hnext.
  destruct (truthy sid).
  - apply respects_bind; [apply respects_allow; exact HK|intros r].
    destruct (allowed r); [exact Hnext|apply respects_blocked].
  - apply respects_bind; [apply respects_allow; exact HK|intros r].
    destruct (allowed r); [exact Hnext|apply respects_blocked].
Qed.

Lemma respects_rateLimitHistory (ip : jsstring) (next : M Response) :
  K (js "hist:ip:" ++ ip) -> respects R next ->
  respects R (rateLimitHistory ip next).
Proof.
  intros HK Hnext.
  apply respects_bind; [apply respects_allow; exact HK|intros r].
  destruct (allowed r); [exact Hnext|apply respects_blocked].
Qed.

Lemma respects_servePage (fetch : M (list MessageRow)) :
  respects R fetch -> respects R (servePage fetch).
Proof.
  intros Hfetch. apply respects_tryCatch.
  - apply respects_bind; [apply respects_log|intros _].
    apply respects_bind; [exact Hfetch|intros page].
    apply respects_bind; [apply respects_log|intros _].
    apply respects_bind; [apply respects_log|intros _]. apply respects_ret.
  - intros e. apply respects_bind; [apply respects_log|intros _].
    apply respects_ret.
Qed.

Lemma respects_getHistoryHandler (P : Platform) (env : Env)
  (q : HistoryQuery) :
  respects R (getHistoryHandler P env q).
Proof.
  unfold getHistoryHandler.
  destruct (parseHistoryQuery P q) as [[[s cursor] limitArg]|].
  - destruct (truthy cursor && _).
    + apply respects_bind; [apply respects_log|intros _].
      apply respects_ret.
    + apply respects_servePage.
      destruct (parseCursor P cursor);
        [apply respects_getOlderMessages|apply respects_getRecentMessages].
  - apply respects_bind; [apply respects_log|intros _]. apply respects_ret.
Qed.

Lemma respects_getHistory (P : Platform) (env : Env) (ip : jsstring)
  (q : HistoryQuery) :
  K (js "hist:ip:" ++ ip) -> respects R (getHistory P env ip q).
Proof.
  intros HK. apply respects_rateLimitHistory; [exact HK|].
  apply respects_getHistoryHandler.
Qed.

Lemma respects_postMessageHandler (P : Platform) (env : Env)
  (b : MessageBody) :
  respects R (postMessageHandler P env b).
Proof.
  unfold postMessageHandler.
  destruct (parsePostMessage P b) as [[message s]|].
  - cbv zeta. destruct (jsLength (cleanOf message) =? 0);
      [apply respects_ret|].
    destruct (jsLength (cleanOf message) >? MAX_MESSAGE_CHARS env).
    + apply respects_bind; [apply respects_log|intros _].
      apply respects_ret.
    + apply respects_tryCatch.
      * apply respects_bind; [apply respects_log|intros _].
        apply respects_bind; [apply respects_ensureConversation|intros _].
        apply respects_bind; [apply respects_log|intros _].
        apply respects_bind; [apply respects_getRecentMessages|].
        intros recent.
        apply respects_bind; [apply respects_log|intros _].
        apply respects_bind; [apply respects_insertMessage|intros _].
        apply respects_bind; [apply respects_log|intros _].
        apply respects_tryCatch.
        -- apply respects_bind; [apply respects_generateSupportReply|].
           intros reply.
           apply respects_bind; [apply respects_log|intros _].
           apply respects_bind; [apply respects_insertMessage|intros _].
           apply respects_bind; [apply respects_log|intros _].
           apply respects_bind; [apply respects_log|intros _].
           apply respects_ret.
        -- intros e. apply respects_bind; [apply respects_log|intros _].
           apply respects_ret.
      * intros e. apply respects_bind; [apply respects_log|intros _].
        apply respects_ret.
  - apply respects_bind; [apply respects_log|intros _]. apply respects_ret.
Qed.

Lemma respects_postMessage (P : Platform) (env : Env) (ip : jsstring)
  (b : MessageBody) :
  K (messageKeyOf ip (bodySessionId b)) ->
  respects R (postMessage P env ip b).
Proof.
  intros HK. apply respects_rateLimitMessage; [exact HK|].
  apply respects_postMessageHandler.
Qed.
End Frame.

#[local] Instance keepsStore_preorder : PreOrder keepsStore.
Proof. split; unfold keepsStore; [intros w; auto|intros a b c; auto]. Qed.

#[local] Instance appendsOnly_preorder : PreOrder appendsOnly.
Proof.
  split; unfold appendsOnly.
  - intros w. split; reflexivity.
  - intros a b c [H1 H2] [H3 H4]. split; etransitivity; eassumption.
Qed.

#[local] Instance sameDb_preorder : PreOrder sameDb.
Proof.
  split; unfold sameDb; [intros w; reflexivity|intros a b c; congruence].
Qed.

#[local] Instance sameBucket_preorder (k : jsstring) : PreOrder (sameBucket k).
Proof.
  split; unfold sameBucket; [intros w; reflexivity|intros a b c; congruence].
Qed.

Lemma storeOk_example : storeOk (db exampleWorld).
Proof.
  split.
  - simpl. apply NoDup_cons. split; [|apply NoDup_singleton].
    rewrite list_elem_of_singleton. discriminate.
  - intros m Hm. simpl in *. apply elem_of_singleton.
    apply elem_of_cons in Hm as [->|Hm]; [reflexivity|].
    apply list_elem_of_singleton in Hm as ->. reflexivity.
Qed.

(** ** The limiter in front of the routes *)

Lemma allow_run (args : AllowArgs) (o : Oracle) (w : World) :
  allow args o w
  = (Ok (allowRequest args (dateNow o (draws w)) (buckets w)).1,
     {| db := db w;
        buckets := (allowRequest args (dateNow o (draws w)) (buckets w)).2;
        draws := S (draws w); logged := logged w |}).
Proof.
  unfold allow, onBuckets. run_monad.
  destruct (allowRequest args (dateNow o (draws w)) (buckets w)). reflexivity.
Qed.

Lemma allowRequest_exhausted (args : AllowArgs) (now : Z)
  (b : gmap jsstring Entry) (e : Entry) :
  b !! key args = Some e -> now < resetAt e -> max args <= count e ->
  allowRequest args now b
  = ({| allowed := false; retryAfterMs := Some (resetAt e - now) |}, b).
Proof.
  intros Hb Hnow Hmax. unfold allowRequest. rewrite Hb.
  destruct (resetAt e <=? now) eqn:H1; [lia|].
  destruct (count e >=? max args) eqn:H2; [reflexivity|lia].
Qed.

(** X5.  A request whose limiter entry is at its limit (5 per session in
    10 s when the body carries a session id, 20 per address in 60 s
    otherwise) inside its window is answered 429 with the refusal of its
    kind and a [Retry-After] of the remaining time in whole seconds, rounded
    up and at least 1; the handler behind the limiter is not run: the
    database and the buckets stay as they were, and the world after is the
    same whatever the handler is. *)
Theorem rateLimitMessage_refuses_at_limit (ip : jsstring)
  (sid : option jsstring) (e : Entry) (next : M Response) (o : Oracle)
  (w : World) :
  buckets w !! messageKeyOf ip sid = Some e ->
  dateNow o (draws w) < resetAt e ->
  messageLimitOf sid <= count e ->
  exists secs,
    rateLimitMessage ip sid next o w
    = (Ok {| status := 429; retryAfter := Some secs;
             payload := ErrorJson (messageRefusalOf sid) |},
       refusedWorld w)
    /\ 1 <= secs
    /\ 1000 * (secs - 1) < resetAt e - dateNow o (draws w) <= 1000 * secs.
Proof.
  intros Hb Hnow Hmax.
  exists (ceilDiv (resetAt e - dateNow o (draws w)) 1000).
  pose proof (ceilDiv_bounds (resetAt e - dateNow o (draws w)) 1000
                ltac:(lia)) as Hceil.
  split; [|lia].
  unfold rateLimitMessage, messageKeyOf, messageLimitOf, messageRefusalOf in *.
  destruct (truthy sid).
  - unfold mbind at 1, M_bind at 1. rewrite allow_run.
    rewrite (allowRequest_exhausted
               {| key := js "msg:sess:" ++ default [] sid;
                  windowMs := 10000; max := 5 |} _ _ e Hb Hnow Hmax).
    cbn [fst snd allowed]. unfold blocked. run_monad.
    destruct (resetAt e - dateNow o (draws w) =? 0) eqn:Hz; [lia|].
    reflexivity.
  - unfold mbind at 1, M_bind at 1. rewrite allow_run.
    rewrite (allowRequest_exhausted
               {| key := js "msg:ip:" ++ ip; windowMs := 60000; max := 20 |}
               _ _ e Hb Hnow Hmax).
    cbn [fst snd allowed]. unfold blocked. run_monad.
    destruct (resetAt e - dateNow o (draws w) =? 0) eqn:Hz; [lia|].
    reflexivity.
Qed.

Lemma rateLimitMessage_refuses_at_limit_witness :
  exists secs,
    rateLimitMessage (js "10.0.0.7") (Some exampleSession)
      (postMessageHandler refPlatform exampleEnv helloBody) quietOracle
      exhaustedWorld
    = (Ok {| status := 429; retryAfter := Some secs;
             payload := ErrorJson (messageRefusalOf (Some exampleSession)) |},
       refusedWorld exhaustedWorld)
    /\ 1 <= secs
    /\ 1000 * (secs - 1)
       < 1766944361500 - dateNow quietOracle (draws exhaustedWorld)
       <= 1000 * secs.
Proof.
  refine (rateLimitMessage_refuses_at_limit (js "10.0.0.7")
            (Some exampleSession) {| count := 5; resetAt := 1766944361500 |}
            (postMessageHandler refPlatform exampleEnv helloBody) quietOracle
            exhaustedWorld _ _ _).
  - vm_compute. reflexivity.
  - vm_compute. reflexivity.
  - vm_compute. discriminate.
Defined.

Lemma js_prefix_differs (a b : string) (x y : jsstring) :
  (exists n, nth_error (js a) n <> nth_error (js b) n
             /\ (n < length (js a))%nat /\ (n < length (js b))%nat) ->
  js a ++ x <> js b ++ y.
Proof.
  intros (n & Hne & Ha & Hb) E. apply Hne.
  rewrite <- (nth_error_app1 (js a) x Ha), <- (nth_error_app1 (js b) y Hb).
  rewrite E. reflexivity.
Qed.

Lemma sameBucket_allow (k : jsstring) (w : World) (args : AllowArgs)
  (now : Z) :
  key args <> k ->
  sameBucket k w
    {| db := db w; buckets := (allowRequest args now (buckets w)).2;
       draws := draws w; logged := logged w |}.
Proof. intros Hne. unfold sameBucket. simpl. apply allowRequest_other_key, Hne. Qed.

(** X6.  The limiters do not share entries.  A message request never
    touches the entry that limits the history requests of any address, a
    history request never touches an entry that limits message requests,
    and a message request that carries a session id never touches the
    per-address entry of any address: it is counted against its session
    alone. *)
Theorem limiters_keep_to_their_keys (P : Platform) (env : Env)
  (ip ip' : jsstring) (sid : option jsstring) (b : MessageBody)
  (q : HistoryQuery) (o : Oracle) (w : World) :
  buckets (postMessage P env ip b o w).2 !! (js "hist:ip:" ++ ip')
  = buckets w !! (js "hist:ip:" ++ ip')
  /\ buckets (getHistory P env ip q o w).2 !! messageKeyOf ip' sid
     = buckets w !! messageKeyOf ip' sid
  /\ (truthy (bodySessionId b) = true ->
      buckets (postMessage P env ip b o w).2 !! (js "msg:ip:" ++ ip')
      = buckets w !! (js "msg:ip:" ++ ip')).
Proof.
  split; [|split].
  - apply (respects_postMessage (sameBucket (js "hist:ip:" ++ ip'))
             (fun k => k <> js "hist:ip:" ++ ip')).
    + intros w0. reflexivity.
    + intros w0 l m. reflexivity.
    + intros w0 args now. apply sameBucket_allow.
    + intros w0 cid. reflexivity.
    + intros w0 row _ _. reflexivity.
    + unfold messageKeyOf. destruct (truthy (bodySessionId b));
        apply js_prefix_differs; exists 0%nat; vm_compute;
        (split; [discriminate|split; lia]).
  - apply (respects_getHistory (sameBucket (messageKeyOf ip' sid))
             (fun k => k <> messageKeyOf ip' sid)).
    + intros w0. reflexivity.
    + intros w0 l m. reflexivity.
    + intros w0 args now. apply sameBucket_allow.
    + unfold messageKeyOf. destruct (truthy sid);
        apply js_prefix_differs; exists 0%nat; vm_compute;
        (split; [discriminate|split; lia]).
  - intros Hsid.
    apply (respects_postMessage (sameBucket (js "msg:ip:" ++ ip'))
             (fun k => k <> js "msg:ip:" ++ ip')).
    + intros w0. reflexivity.
    + intros w0 l m. reflexivity.
    + intros w0 args now. apply sameBucket_allow.
    + intros w0 cid. reflexivity.
    + intros w0 row _ _. reflexivity.
    + unfold messageKeyOf. rewrite Hsid.
      apply js_prefix_differs; exists 4%nat; vm_compute;
        (split; [discriminate|split; lia]).
Qed.

(** ** The routes and the store *)

Lemma keepsStore_ensure (w : World) (cid : N) :
  keepsStore w
    {| db := {| conversations := {[cid]} ∪ conversations (db w);
                messages := messages (db w) |};
       buckets := buckets w; draws := draws w; logged := logged w |}.
Proof.
  intros [Hids Hrefs]. split; simpl; [exact Hids|].
  intros m Hm. apply elem_of_union_r, Hrefs, Hm.
Qed.

Lemma keepsStore_insert (w : World) (row : DbMessage) :
  m_id row ∉ map m_id (messages (db w)) ->
  m_conversation_id row ∈ conversations (db w) ->
  keepsStore w
    {| db := {| conversations := conversations (db w);
                messages := messages (db w) ++ [row] |};
       buckets := buckets w; draws := draws w; logged := logged w |}.
Proof.
  intros Hid Hcid [Hids Hrefs]. split; simpl.
  - rewrite map_app. apply NoDup_app. split; [exact Hids|]. split.
    + intros x Hx Hx'. simpl in Hx'. apply list_elem_of_singleton in Hx'.
      subst x. exact (Hid Hx).
    + simpl. apply NoDup_singleton.
  - intros m Hm. apply elem_of_app in Hm as [Hm|Hm]; [exact (Hrefs m Hm)|].
    apply list_elem_of_singleton in Hm as ->. exact Hcid.
Qed.

(** X7.  POST /message only ever appends.  Whatever the request and
    whatever fails on the way, the messages stored before are still there,
    unchanged and in their place, as a prefix of the messages stored after;
    no conversation is removed; and the constraints of the schema (message
    ids unique, every message in an existing conversation) hold after the
    request if they held before. *)
Theorem postMessage_only_appends (P : Platform) (env : Env) (ip : jsstring)
  (b : MessageBody) (o : Oracle) (w : World) :
  messages (db w) `prefix_of` messages (db (postMessage P env ip b o w).2)
  /\ conversations (db w) ⊆ conversations (db (postMessage P env ip b o w).2)
  /\ (storeOk (db w) -> storeOk (db (postMessage P env ip b o w).2)).
Proof.
  assert (Happ : appendsOnly w (postMessage P env ip b o w).2).
  { apply (respects_postMessage appendsOnly (fun _ => True)); try done;
      intros; split; simpl; try reflexivity.
    - apply union_subseteq_r.
    - apply prefix_app_r. reflexivity. }
  destruct Happ as [H1 H2]. split; [exact H1|]. split; [exact H2|].
  apply (respects_postMessage keepsStore (fun _ => True)); try done.
  - intros w0 H. exact H.
  - intros w0 l m H. exact H.
  - intros w0 args now _ H. exact H.
  - apply keepsStore_ensure.
  - apply keepsStore_insert.
Qed.

Lemma getOlderMessages_run (P : Platform) (args : OlderArgs) (o : Oracle)
  (w : World) :
  forall page, (getOlderMessages P args o w).1 = Ok page ->
    exists cid ts keep,
      pgUuidIn P (conversationId args) = Some cid
      /\ pgTimestamptzIn P (cursorCreatedAt args) = Some ts
      /\ 0 <= limit args
      /\ queryFails o (draws w) = false
      /\ (if truthy (cursorId args) then
            exists cur, pgUuidIn P (default [] (cursorId args)) = Some cur
                        /\ keep = (fun m => keyLtb (keyOf m) (ts, cur))
          else keep = (fun m => m_created_at m <? ts))
      /\ page = reverse (map (toRow P)
                  (selectDesc cid keep (Z.to_nat (limit args))
                     (messages (db w)))).
Proof.
  intros page. unfold getOlderMessages. run_monad.
  destruct (queryFails o (draws w)); simpl; [discriminate|].
  destruct (pgUuidIn P (conversationId args)) as [cid|]; simpl;
    [|discriminate].
  destruct (pgTimestamptzIn P (cursorCreatedAt args)) as [ts|]; simpl;
    [|discriminate].
  destruct (truthy (cursorId args)) eqn:Hc; simpl.
  - destruct (pgUuidIn P (default [] (cursorId args))) as [cur|]; simpl;
      [|discriminate].
    destruct (limit args <? 0) eqn:Hl; simpl; [discriminate|].
    intros [= <-]. exists cid, ts, (fun m => keyLtb (keyOf m) (ts, cur)).
    repeat split; try reflexivity; [lia|]. eauto.
  - destruct (limit args <? 0) eqn:Hl; simpl; [discriminate|].
    intros [= <-]. exists cid, ts, (fun m => m_created_at m <? ts).
    repeat split; try reflexivity; lia.
Qed.

Lemma page_of_session (P : Platform) (cid : N) (keep : DbMessage -> bool)
  (n : Z) (rows : list DbMessage) :
  0 <= n ->
  (forall r, r ∈ reverse (map (toRow P) (selectDesc cid keep (Z.to_nat n) rows)) ->
     conversation_id r = pgUuidOut P cid)
  /\ Z.of_nat (length (reverse (map (toRow P)
                 (selectDesc cid keep (Z.to_nat n) rows)))) <= n.
Proof.
  intros Hn. split.
  - intros r Hr. rewrite elem_of_reverse in Hr.
    apply list_elem_of_In, in_map_iff in Hr as (m & <- & Hm).
    apply list_elem_of_In, selectDesc_elem in Hm as (_ & <- & _). reflexivity.
  - rewrite length_reverse, length_map. unfold selectDesc.
    rewrite length_take. lia.
Qed.

Lemma nextCursorOf_None (page : list MessageRow) :
  nextCursorOf page = None <-> page = [].
Proof. destruct page; simpl; split; intros; congruence. Qed.

Lemma parseHistoryQuery_Some (P : Platform) (env : Env) (q : HistoryQuery)
  (s : jsstring) (cursor : option jsstring) (limitArg : option Z) :
  parseHistoryQuery P q = Some (s, cursor, limitArg) ->
  querySessionId q = Some s
  /\ default (CHAT_PAGE_SIZE env) limitArg = historyPageSize env q.
Proof.
  unfold parseHistoryQuery, historyPageSize.
  destruct (querySessionId q) as [s'|]; [|discriminate].
  destruct (zodUuid P s'); [|discriminate].
  destruct (queryLimit q) as [| |n]; [|discriminate|].
  - intros [= <- <- <-]. auto.
  - destruct ((0 <? n) && (n <=? 100)); [|discriminate].
    intros [= <- <- <-]. auto.
Qed.

Lemma getHistoryHandler_answers (P : Platform) (env : Env) (q : HistoryQuery)
  (o : Oracle) (w : World) :
  exists resp w',
    getHistoryHandler P env q o w = (Ok resp, w')
    /\ (pageAnswer P env q resp
        \/ (status resp = 400 /\ payload resp = ErrorJson INVALID_REQUEST)
        \/ (status resp = 500
            /\ payload resp = ErrorJson SOMETHING_WENT_WRONG)).
Proof.
  destruct (parseHistoryQuery P q) as [[[s cursor] limitArg]|] eqn:Hq.
  - destruct (parseHistoryQuery_Some P env q s cursor limitArg Hq)
      as [Hs Hsize].
    rewrite (getHistoryHandler_cases P env q s cursor limitArg Hq).
    rewrite Hsize.
    assert (Hrecent : exists resp w',
              servePage (getRecentMessages P s (historyPageSize env q)) o w
              = (Ok resp, w')
              /\ (pageAnswer P env q resp
                  \/ (status resp = 400
                      /\ payload resp = ErrorJson INVALID_REQUEST)
                  \/ (status resp = 500
                      /\ payload resp = ErrorJson SOMETHING_WENT_WRONG))).
    { rewrite servePage_run.
      pose proof (getRecentMessages_run P s (historyPageSize env q) o
                    (withLog w info "chat.history.start")) as (_ & _ & _ & Hp).
      destruct (getRecentMessages P s (historyPageSize env q) o _)
        as [[page|e] w1]; [|eexists _, _; split; [reflexivity|auto]].
      eexists _, _. split; [reflexivity|]. left.
      destruct (Hp page eq_refl) as (cid & Hcid & Hn & _ & ->).
      split; [reflexivity|]. eexists _, s, cid.
      split; [reflexivity|]. split; [exact Hs|]. split; [exact Hcid|].
      destruct (page_of_session P cid (fun _ => true) _ (messages (db w)) Hn)
        as [H1 H2].
      split; [exact H1|]. split; [exact H2|]. apply nextCursorOf_None. }
    destruct (truthy cursor); [|exact Hrecent].
    destruct (parseCursor P cursor) as [c|].
    + rewrite servePage_run.
      pose proof (getOlderMessages_run P
                    {| conversationId := s; cursorCreatedAt := createdAt c;
                       cursorId := uuid c; limit := historyPageSize env q |} o
                    (withLog w info "chat.history.start")) as Hp.
      destruct (getOlderMessages P _ o _)
        as [[page|e] w1]; [|eexists _, _; split; [reflexivity|auto]].
      eexists _, _. split; [reflexivity|]. left.
      destruct (Hp page eq_refl) as (cid & ts & keep & Hcid & _ & Hn & _ & _ & ->).
      simpl in Hcid, Hn.
      split; [reflexivity|]. eexists _, s, cid.
      split; [reflexivity|]. split; [exact Hs|]. split; [exact Hcid|].
      destruct (page_of_session P cid keep _ (messages (db w)) Hn)
        as [H1 H2].
      split; [exact H1|]. split; [exact H2|]. apply nextCursorOf_None.
    + eexists _, _. split; [reflexivity|]. right. left. auto.
  - unfold getHistoryHandler. rewrite Hq.
    eexists _, _. split; [reflexivity|]. right. left. auto.
Qed.

(** X8.  GET /history always answers, and never writes.  The answer is a
    page (200), a refusal of the request (400), a refusal of the limiter
    (429) or the generic failure (500), also when the database fails; the
    database after the request is the database before it.  A page holds rows
    of the requested session only, at most as many as the page size asked
    for, and its [nextCursor] is null exactly when the page is empty. *)
Theorem getHistory_answers_and_reads_only (P : Platform) (env : Env)
  (ip : jsstring) (q : HistoryQuery) (o : Oracle) (w : World) :
  exists resp w',
    getHistory P env ip q o w = (Ok resp, w')
    /\ db w' = db w
    /\ (pageAnswer P env q resp
        \/ (status resp = 400 /\ payload resp = ErrorJson INVALID_REQUEST)
        \/ (status resp = 429 /\ payload resp = ErrorJson OVERLOADED_IP)
        \/ (status resp = 500
            /\ payload resp = ErrorJson SOMETHING_WENT_WRONG)).
Proof.
  assert (Hdb : sameDb w (getHistory P env ip q o w).2).
  { apply (respects_getHistory sameDb (fun _ => True)); try done. }
  unfold sameDb in Hdb.
  destruct (getHistory P env ip q o w) as [r w'] eqn:E. simpl in Hdb.
  unfold getHistory, rateLimitHistory in E.
  unfold mbind at 1, M_bind at 1 in E. rewrite allow_run in E.
  destruct (allowed _).
  - destruct (getHistoryHandler_answers P env q o
                {| db := db w;
                   buckets := (allowRequest
                                 {| key := js "hist:ip:" ++ ip;
                                    windowMs := 60000; max := 120 |}
                                 (dateNow o (draws w)) (buckets w)).2;
                   draws := S (draws w); logged := logged w |})
      as (resp & w1 & E1 & Hresp).
    rewrite E1 in E. injection E as <- <-. exists resp, w1.
    split; [reflexivity|]. split; [exact Hdb|].
    destruct Hresp as [H|[H|H]]; auto.
  - unfold blocked in E. run_monad. injection E as <- <-.
    eexists _, _. split; [reflexivity|]. split; [exact Hdb|].
    right. right. left. auto.
Qed.

(** ** The repository *)

Lemma latestOf_selectDesc (cid : N) (keep : DbMessage -> bool)
  (wanted : DbMessage -> Prop) (n : nat) (rows : list DbMessage) :
  (forall m, keep m = true <-> wanted m) ->
  NoDup (map m_id rows) ->
  latestOf cid wanted n rows (reverse (selectDesc cid keep n rows)).
Proof.
  intros Hkeep Hnd.
  pose proof (sortedOf_strict cid keep rows Hnd) as Hs.
  change (selectDesc cid keep n rows) with (take n (sortedOf cid keep rows)).
  rewrite <- (take_drop n (sortedOf cid keep rows)) in Hs.
  apply StronglySorted_app in Hs as (Hcross & Hpage & _).
  split; [apply StronglySorted_reverse_flip, Hpage|].
  split; [rewrite length_reverse, length_take; lia|].
  split.
  - intros m Hm. rewrite elem_of_reverse in Hm.
    apply (selectDesc_elem cid keep n rows) in Hm as (H1 & H2 & H3).
    rewrite Hkeep in H3. auto.
  - intros m Hm Hc Hw. rewrite <- Hkeep in Hw.
    assert (Hms : m ∈ take n (sortedOf cid keep rows)
                      ++ drop n (sortedOf cid keep rows))
      by (rewrite take_drop; apply sortedOf_elem; auto).
    apply elem_of_app in Hms as [Hms|Hms];
      [left; rewrite elem_of_reverse; exact Hms|].
    right. split.
    + rewrite length_reverse, length_take.
      destruct (decide (n <= length (sortedOf cid keep rows))%nat) as [|Hlt];
        [lia|].
      rewrite drop_ge in Hms by lia. inversion Hms.
    + intros r Hr. rewrite elem_of_reverse in Hr. exact (Hcross r m Hr Hms).
Qed.

Lemma reverse_map_toRow (P : Platform) (l : list DbMessage) :
  reverse (map (toRow P) l) = map (toRow P) (reverse l).
Proof. symmetry. apply map_reverse. Qed.

(** X9.  [getRecentMessages] returns the newest rows of the conversation,
    oldest first.  With unique message ids, a result is the image of rows
    of the table that belong to the conversation, in strictly ascending
    [(created_at, id)] order and at most [limit] of them; a row of the
    conversation is left out only when the result is full, and it is then
    older than every row returned. *)
Theorem getRecentMessages_newest_ascending (P : Platform) (s : jsstring)
  (n : Z) (o : Oracle) (w : World) (page : list MessageRow) :
  (getRecentMessages P s n o w).1 = Ok page ->
  NoDup (map m_id (messages (db w))) ->
  exists cid rows,
    pgUuidIn P s = Some cid
    /\ page = map (toRow P) rows
    /\ latestOf cid (fun _ => True) (Z.to_nat n) (messages (db w)) rows.
Proof.
  intros Hpage Hnd.
  destruct (getRecentMessages_run P s n o w) as (_ & _ & _ & Hrun).
  destruct (Hrun page Hpage) as (cid & Hcid & Hn & _ & ->).
  exists cid, (reverse (selectDesc cid (fun _ => true) (Z.to_nat n)
                          (messages (db w)))).
  split; [exact Hcid|]. split; [apply reverse_map_toRow|].
  apply latestOf_selectDesc; [|exact Hnd]. intros m. split; auto.
Qed.

Lemma getRecentMessages_newest_ascending_witness :
  exists cid rows,
    pgUuidIn refPlatform exampleSession = Some cid
    /\ [toRow refPlatform answeredMessage] = map (toRow refPlatform) rows
    /\ latestOf cid (fun _ => True) (Z.to_nat 1) (messages (db exampleWorld))
         rows.
Proof.
  refine (getRecentMessages_newest_ascending refPlatform exampleSession 1
            quietOracle exampleWorld [toRow refPlatform answeredMessage] _ _).
  - vm_compute. reflexivity.
  - exact (proj1 storeOk_example).
Defined.

(** X10.  [getOlderMessages] returns the rows just below the cursor, oldest
    first.  With unique message ids, a result is the image of rows of the
    conversation in strictly ascending order, at most [limit] of them, each
    below the cursor: below [(cursorCreatedAt, cursorId)] in the row order
    when [cursorId] is given, and with a strictly smaller [created_at] when
    it is not, so that a row stamped exactly [cursorCreatedAt] is then never
    returned.  A row below the cursor is left out only when the result is
    full, and it is then older than every row returned. *)
Theorem getOlderMessages_below_cursor (P : Platform) (args : OlderArgs)
  (o : Oracle) (w : World) (page : list MessageRow) :
  (getOlderMessages P args o w).1 = Ok page ->
  NoDup (map m_id (messages (db w))) ->
  exists cid ts rows,
    pgUuidIn P (conversationId args) = Some cid
    /\ pgTimestamptzIn P (cursorCreatedAt args) = Some ts
    /\ page = map (toRow P) rows
    /\ latestOf cid (belowCursor P args ts) (Z.to_nat (limit args))
         (messages (db w)) rows.
Proof.
  intros Hpage Hnd.
  destruct (getOlderMessages_run P args o w page Hpage)
    as (cid & ts & keep & Hcid & Hts & Hn & _ & Hkeep & ->).
  exists cid, ts, (reverse (selectDesc cid keep (Z.to_nat (limit args))
                              (messages (db w)))).
  split; [exact Hcid|]. split; [exact Hts|].
  split; [apply reverse_map_toRow|].
  apply latestOf_selectDesc; [|exact Hnd]. intros m. unfold belowCursor.
  destruct (truthy (cursorId args)).
  - destruct Hkeep as (cur & Hcur & ->). rewrite keyLtb_true. split.
    + intros H. exists cur. auto.
    + intros (cur' & Hcur' & H). congruence.
  - subst keep. apply Z.ltb_lt.
Qed.

Lemma getOlderMessages_below_cursor_witness :
  exists cid ts rows,
    pgUuidIn refPlatform exampleSession = Some cid
    /\ pgTimestamptzIn refPlatform (js "2025-12-28T17:52:34.500Z") = Some ts
    /\ [toRow refPlatform askedMessage] = map (toRow refPlatform) rows
    /\ latestOf cid
         (belowCursor refPlatform
            {| conversationId := exampleSession;
               cursorCreatedAt := js "2025-12-28T17:52:34.500Z";
               cursorId := None; limit := 5 |} ts)
         (Z.to_nat 5) (messages (db exampleWorld)) rows.
Proof.
  refine (getOlderMessages_below_cursor refPlatform
            {| conversationId := exampleSession;
               cursorCreatedAt := js "2025-12-28T17:52:34.500Z";
               cursorId := None; limit := 5 |}
            quietOracle exampleWorld [toRow refPlatform askedMessage] _ _).
  - vm_compute. reflexivity.
  - exact (proj1 storeOk_example).
Defined.

(** X11.  [ensureConversation] inserts at most once.  It never touches the
    messages; when it succeeds the conversation of the session is present
    and nothing else was added; and running it again on the outcome, under
    any surroundings, leaves the database as it is. *)
Theorem ensureConversation_idempotent (P : Platform) (s : jsstring)
  (o o' : Oracle) (w : World) :
  messages (db (ensureConversation P s o w).2) = messages (db w)
  /\ ((ensureConversation P s o w).1 = Ok tt ->
      (exists cid,
         pgUuidIn P s = Some cid
         /\ conversations (db (ensureConversation P s o w).2)
            = {[cid]} ∪ conversations (db w))
      /\ db (ensureConversation P s o' (ensureConversation P s o w).2).2
         = db (ensureConversation P s o w).2).
Proof.
  split; [apply ensureConversation_run|].
  unfold ensureConversation. run_monad.
  destruct (queryFails o (draws w)); simpl; [discriminate|].
  destruct (pgUuidIn P s) as [cid|]; simpl; [|discriminate].
  intros _. split; [exists cid; auto|].
  destruct (queryFails o' (S (draws w))); simpl; [reflexivity|].
  f_equal. apply set_eq. intros x. rewrite !elem_of_union. tauto.
Qed.

Lemma insertMessage_Ok (P : Platform) (s : jsstring) (who : Sender)
  (body : jsstring) (createdAtArg : option Z) (o : Oracle) (w : World)
  (newId : jsstring) (at_ : Z) :
  (insertMessage P s who body createdAtArg o w).1 = Ok (newId, at_) ->
  exists idv cid ts,
    newId = randomUUID o (draws w)
    /\ at_ = default (dateNow o (S (draws w))) createdAtArg
    /\ pgUuidIn P newId = Some idv /\ pgUuidIn P s = Some cid
    /\ pgTimestamptzIn P (toISOString P at_) = Some ts
    /\ (idv ∉ map m_id (messages (db w)))
    /\ cid ∈ conversations (db w)
    /\ db (insertMessage P s who body createdAtArg o w).2
       = {| conversations := conversations (db w);
            messages := messages (db w) ++
              [{| m_id := idv; m_conversation_id := cid; m_sender := who;
                  m_text := body; m_created_at := ts |}] |}.
Proof.
  unfold insertMessage. run_monad.
  destruct createdAtArg as [d|]; simpl.
  - destruct (queryFails o (S (draws w))); simpl; [discriminate|].
    destruct (pgUuidIn P (randomUUID o (draws w))) as [idv|] eqn:Hid; simpl;
      [|discriminate].
    destruct (pgUuidIn P s) as [cid|]; simpl; [|discriminate].
    destruct (pgTimestamptzIn P (toISOString P d)) as [ts|] eqn:Hts; simpl;
      [|discriminate].
    destruct (bool_decide (idv ∈ map m_id (messages (db w)))) eqn:Hfresh;
      simpl; [discriminate|].
    destruct (bool_decide (cid ∈ conversations (db w))) eqn:Hconv; simpl;
      [|discriminate].
    intros [= <- <-]. exists idv, cid, ts.
    apply bool_decide_eq_false in Hfresh. apply bool_decide_eq_true in Hconv.
    rewrite Hid, Hts. repeat split; auto.
  - destruct (queryFails o (S (S (draws w)))); simpl; [discriminate|].
    destruct (pgUuidIn P (randomUUID o (draws w))) as [idv|] eqn:Hid; simpl;
      [|discriminate].
    destruct (pgUuidIn P s) as [cid|]; simpl; [|discriminate].
    destruct (pgTimestamptzIn P (toISOString P (dateNow o (S (draws w)))))
      as [ts|] eqn:Hts; simpl; [|discriminate].
    destruct (bool_decide (idv ∈ map m_id (messages (db w)))) eqn:Hfresh;
      simpl; [discriminate|].
    destruct (bool_decide (cid ∈ conversations (db w))) eqn:Hconv; simpl;
      [|discriminate].
    intros [= <- <-]. exists idv, cid, ts.
    apply bool_decide_eq_false in Hfresh. apply bool_decide_eq_true in Hconv.
    rewrite Hid, Hts. repeat split; auto.
Qed.

(** X12.  [insertMessage] needs its conversation.  For a session whose
    conversation is not in the database the insert throws and the database
    stays as it was; conversely an insert never fails on the foreign key
    when the conversation is there, as it is after a successful
    [ensureConversation]. *)
Theorem insertMessage_needs_conversation (P : Platform) (s : jsstring)
  (who : Sender) (body : jsstring) (createdAtArg : option Z) (o : Oracle)
  (w : World) (cid : N) :
  pgUuidIn P s = Some cid ->
  (cid ∉ conversations (db w) ->
   (exists e, (insertMessage P s who body createdAtArg o w).1 = Throw e)
   /\ db (insertMessage P s who body createdAtArg o w).2 = db w)
  /\ (cid ∈ conversations (db w) ->
      (insertMessage P s who body createdAtArg o w).1
      <> Throw ForeignKeyViolation)
  /\ (forall o0 w0, (ensureConversation P s o0 w0).1 = Ok tt ->
        cid ∈ conversations (db (ensureConversation P s o0 w0).2)).
Proof.
  intros Hcid. split; [|split].
  - intros Habsent.
    destruct (insertMessage P s who body createdAtArg o w) as [[[i a]|e] w1]
      eqn:E.
    + pose proof (insertMessage_Ok P s who body createdAtArg o w i a) as H.
      rewrite E in H.
      destruct (H eq_refl) as (idv & cid' & ts & _ & _ & _ & Hc & _ & _ & Hin & _).
      rewrite Hcid in Hc. injection Hc as <-. contradiction.
    + split; [eauto|]. simpl.
      assert (Hgen : forall r w', insertMessage P s who body createdAtArg o w
                                  = (Throw r, w') -> db w' = db w).
      { clear. unfold insertMessage. run_monad. intros r w'.
        destruct createdAtArg; simpl;
          repeat match goal with
                 | |- context [if ?c then _ else _] => destruct c; simpl
                 | |- context [match ?x with Some _ => _ | None => _ end] =>
                     destruct x; simpl
                 end;
          intros [= <- <-] || intros [=]; reflexivity. }
      exact (Hgen e w1 E).
  - intros Hpresent. unfold insertMessage. run_monad. rewrite Hcid.
    destruct createdAtArg; simpl;
      repeat match goal with
             | |- context [if queryFails ?a ?b then _ else _] =>
                 destruct (queryFails a b); simpl
             | |- context [match pgUuidIn ?a ?b with _ => _ end] =>
                 destruct (pgUuidIn a b); simpl
             | |- context [match pgTimestamptzIn ?a ?b with _ => _ end] =>
                 destruct (pgTimestamptzIn a b); simpl
             | |- context [if bool_decide (?a ∈ map _ _) then _ else _] =>
                 destruct (bool_decide (a ∈ map m_id (messages (db w)))); simpl
             end;
      try discriminate;
      rewrite (bool_decide_eq_true_2 _ Hpresent); simpl; discriminate.
  - intros o0 w0. unfold ensureConversation. run_monad.
    destruct (queryFails o0 (draws w0)); simpl; [discriminate|].
    rewrite Hcid. simpl. intros _. set_solver.
Qed.

Lemma insertMessage_needs_conversation_witness :
  (exists e, (insertMessage refPlatform exampleSession user (js "hello") None
                quietOracle emptyWorld).1 = Throw e)
  /\ db (insertMessage refPlatform exampleSession user (js "hello") None
           quietOracle emptyWorld).2 = db emptyWorld.
Proof.
  refine (proj1 (insertMessage_needs_conversation refPlatform exampleSession
                   user (js "hello") None quietOracle emptyWorld
                   exampleSessionId _) _).
  - vm_compute. reflexivity.
  - vm_compute. set_solver.
Defined.

Lemma selectDesc_head (cid : N) (n : nat) (rows : list DbMessage)
  (row : DbMessage) :
  NoDup (map m_id rows) -> (1 <= n)%nat ->
  row ∈ rows -> m_conversation_id row = cid ->
  (forall m, m ∈ rows -> m_conversation_id m = cid -> m <> row ->
     newerThan row m) ->
  exists rest, selectDesc cid (fun _ => true) n rows = row :: rest.
Proof.
  intros Hnd Hn Hrow Hc Hnewest.
  change (selectDesc cid (fun _ => true) n rows)
    with (take n (sortedOf cid (fun _ => true) rows)).
  pose proof (sortedOf_strict cid (fun _ => true) rows Hnd) as Hs.
  assert (Hin : row ∈ sortedOf cid (fun _ => true) rows)
    by (apply sortedOf_elem; auto).
  assert (Hsub : forall m, m ∈ sortedOf cid (fun _ => true) rows ->
                   m ∈ rows /\ m_conversation_id m = cid)
    by (intros m Hm; apply sortedOf_elem in Hm; tauto).
  destruct (sortedOf cid (fun _ => true) rows) as [|h t]; [inversion Hin|].
  destruct n as [|n']; [lia|]. simpl.
  destruct (decide (h = row)) as [->|Hne]; [eauto|]. exfalso.
  apply elem_of_cons in Hin as [Hin|Hin]; [congruence|].
  apply StronglySorted_cons in Hs as [Hall _]. rewrite Forall_forall in Hall.
  specialize (Hall row Hin).
  destruct (Hsub h) as [Hh1 Hh2]; [left|].
  specialize (Hnewest h Hh1 Hh2 Hne).
  unfold newerThan in *.
  exact (keyLt_irrefl _ (keyLt_trans _ _ _ Hall Hnewest)).
Qed.

(** X13.  What is inserted is what is read back.  After a successful
    [insertMessage], with unique ids and a time stamp later than those of
    the session's stored messages, a [getRecentMessages] of the session for
    at least one row that reaches the database returns the new row last:
    under the id and the time the insert returned, with the sender and the
    text it was given. *)
Theorem insertMessage_then_getRecentMessages (P : Platform) (s : jsstring)
  (who : Sender) (body : jsstring) (createdAtArg : option Z) (o o' : Oracle)
  (w : World) (n : Z) (newId : jsstring) (at_ : Z) :
  (insertMessage P s who body createdAtArg o w).1 = Ok (newId, at_) ->
  NoDup (map m_id (messages (db w))) ->
  (forall m ts, m ∈ messages (db w) ->
     pgUuidIn P s = Some (m_conversation_id m) ->
     pgTimestamptzIn P (toISOString P at_) = Some ts -> m_created_at m < ts) ->
  1 <= n ->
  queryFails o' (draws (insertMessage P s who body createdAtArg o w).2)
  = false ->
  exists front idv cid ts,
    pgUuidIn P newId = Some idv /\ pgUuidIn P s = Some cid
    /\ pgTimestamptzIn P (toISOString P at_) = Some ts
    /\ (getRecentMessages P s n o'
          (insertMessage P s who body createdAtArg o w).2).1
       = Ok (front ++
             [{| id := pgUuidOut P idv; conversation_id := pgUuidOut P cid;
                 sender := who; text := body;
                 created_at := pgTimestamptzOut P ts |}]).
Proof.
  intros Hok Hnd Hlate Hn Hq.
  destruct (insertMessage_Ok P s who body createdAtArg o w newId at_ Hok)
    as (idv & cid & ts & _ & _ & Hid & Hcid & Hts & Hfresh & _ & Hdb).
  set (row := {| m_id := idv; m_conversation_id := cid; m_sender := who;
                 m_text := body; m_created_at := ts |}) in *.
  destruct (selectDesc_head cid (Z.to_nat n) (messages (db w) ++ [row]) row)
    as [rest Hrest].
  - rewrite map_app. apply NoDup_app. split; [exact Hnd|].
    split; [|apply NoDup_singleton].
    intros x Hx Hx'. simpl in Hx'. apply list_elem_of_singleton in Hx'.
    subst x. exact (Hfresh Hx).
  - lia.
  - apply elem_of_app. right. apply list_elem_of_singleton. reflexivity.
  - reflexivity.
  - intros m Hm Hc Hne. apply elem_of_app in Hm as [Hm|Hm].
    + left. simpl. apply (Hlate m ts Hm); [rewrite Hc; exact Hcid|exact Hts].
    + apply list_elem_of_singleton in Hm. contradiction.
  - exists (reverse (map (toRow P) rest)), idv, cid, ts.
    split; [exact Hid|]. split; [exact Hcid|]. split; [exact Hts|].
    unfold getRecentMessages. run_monad. rewrite Hq. simpl.
    rewrite Hcid. simpl. destruct (n <? 0) eqn:Hneg; [lia|]. simpl.
    rewrite Hdb. simpl. rewrite Hrest. simpl. rewrite reverse_cons.
    reflexivity.
Qed.

Lemma insertMessage_then_getRecentMessages_witness :
  exists front idv cid ts,
    pgUuidIn refPlatform (randomUUID quietOracle 0) = Some idv
    /\ pgUuidIn refPlatform exampleSession = Some cid
    /\ pgTimestamptzIn refPlatform
         (toISOString refPlatform (dateNow quietOracle 1)) = Some ts
    /\ (getRecentMessages refPlatform exampleSession 1 quietOracle
          (insertMessage refPlatform exampleSession user (js "hello") None
             quietOracle exampleWorld).2).1
       = Ok (front ++
             [{| id := pgUuidOut refPlatform idv;
                 conversation_id := pgUuidOut refPlatform cid;
                 sender := user; text := js "hello";
                 created_at := pgTimestamptzOut refPlatform ts |}]).
Proof.
  refine (insertMessage_then_getRecentMessages refPlatform exampleSession
            user (js "hello") None quietOracle quietOracle exampleWorld 1
            (randomUUID quietOracle 0) (dateNow quietOracle 1) _ _ _ _ _).
  - vm_compute. reflexivity.
  - exact (proj1 storeOk_example).
  - intros m ts Hm _ Hts. vm_compute in Hts. injection Hts as <-.
    simpl in Hm. apply elem_of_cons in Hm as [->|Hm]; [reflexivity|].
    apply list_elem_of_singleton in Hm as ->. reflexivity.
  - lia.
  - reflexivity.
Defined.

(** ** The model call *)




Lemma trimStart_blank (s : jsstring) :
  Forall (fun c => isWhiteSpace c = true) s -> trimStart s = [].
Proof.
  induction 1 as [|c s Hc _ IH]; [reflexivity|]. simpl. rewrite Hc. exact IH.
Qed.

Lemma trim_blank (s : jsstring) :
  Forall (fun c => isWhiteSpace c = true) s -> trim s = [].
Proof. intros H. unfold trim. rewrite (trimStart_blank s H). reflexivity. Qed.

Lemma trimStart_elem (s : jsstring) (c : N) : c ∈ trimStart s -> c ∈ s.
Proof.
  induction s as [|x s IH]; simpl; [auto|].
  destruct (isWhiteSpace x); [|auto]. intros H. right. exact (IH H).
Qed.

Lemma trim_elem (s : jsstring) (c : N) : c ∈ trim s -> c ∈ s.
Proof.
  unfold trim, trimEnd. rewrite elem_of_reverse. intros H.
  apply trimStart_elem in H. rewrite elem_of_reverse in H.
  apply trimStart_elem in H. exact H.
Qed.

Lemma generateSupportReply_Ok (env : Env) (history : list ChatTurn)
  (userMessage : jsstring) (o : Oracle) (w : World) (reply : jsstring) :
  (generateSupportReply env history userMessage o w).1 = Ok reply ->
  reply <> []
  /\ exists resContent,
       invoke o (draws w) (lcMessagesOf env history userMessage)
       = InvokeReturns resContent
       /\ reply = match trim (default [] resContent) with
                  | [] => FALLBACK_REPLY
                  | c :: t => c :: t
                  end.
Proof.
  unfold generateSupportReply.
  destruct (truthy (OPENAI_API_KEY env)); [|discriminate]. run_monad.
  destruct (invoke o (draws w) _) as [|resContent]; simpl; [discriminate|].
  intros [= <-]. split; [|exists resContent; split; [reflexivity|]].
  - destruct (trim (default [] resContent)); discriminate.
  - destruct (trim (default [] resContent)); reflexivity.
Qed.

(** X15.  [generateSupportReply] never hands back an empty reply, and does
    not call the model without a key.  A reply is the model's text trimmed,
    and the fixed fallback sentence when the model returns no content or
    nothing but white space.  With [OPENAI_API_KEY] absent or empty the
    function throws at once: nothing is drawn from the surroundings, the
    world is as it was. *)
Theorem generateSupportReply_never_blank (env : Env)
  (history : list ChatTurn) (userMessage : jsstring) (o : Oracle)
  (w : World) :
  (forall reply,
     (generateSupportReply env history userMessage o w).1 = Ok reply ->
     reply <> []
     /\ exists resContent,
          invoke o (draws w) (lcMessagesOf env history userMessage)
          = InvokeReturns resContent
          /\ (reply = trim (default [] resContent)
              \/ (reply = FALLBACK_REPLY
                  /\ Forall (fun c => isWhiteSpace c = true)
                       (trim (default [] resContent))))
          /\ (Forall (fun c => isWhiteSpace c = true) (default [] resContent)
              -> reply = FALLBACK_REPLY))
  /\ (truthy (OPENAI_API_KEY env) = false ->
      generateSupportReply env history userMessage o w
      = (Throw ApiKeyNotConfigured, w)).
Proof.
  split.
  - intros reply Hok.
    destruct (generateSupportReply_Ok env history userMessage o w reply Hok)
      as (Hne & resContent & Hinv & Hreply).
    split; [exact Hne|]. exists resContent. split; [exact Hinv|]. split.
    + destruct (trim (default [] resContent)); [right|left]; auto.
    + intros Hblank. rewrite (trim_blank _ Hblank) in Hreply. exact Hreply.
  - intros Hkey. unfold generateSupportReply. rewrite Hkey. reflexivity.
Qed.

(** ** What POST /message stores, by its answer *)

Lemma sendReply_run (P : Platform) (env : Env) (s clean : jsstring)
  (recent : list MessageRow) (o : Oracle) (w : World) :
  exists resp w',
    sendReply P env s clean recent o w = (Ok resp, w')
    /\ ((status resp = 200
         /\ exists reply a,
              payload resp = ReplyJson reply s
              /\ reply <> []
              /\ messages (db w') = messages (db w) ++ [a]
              /\ m_sender a = ai /\ m_text a = reply
              /\ pgUuidIn P s = Some (m_conversation_id a))
        \/ (status resp = 502 /\ payload resp = ErrorJson LLM_APOLOGY
            /\ db w' = db w)).
Proof.
  pose proof (generateSupportReply_run env (map turnOf recent) clean o w)
    as (Hdb & _ & _ & _).
  pose proof (generateSupportReply_Ok env (map turnOf recent) clean o w)
    as Hreply.
  unfold sendReply, tryCatch. run_monad.
  destruct (generateSupportReply env (map turnOf recent) clean o w)
    as [[reply|e] w1]; simpl in *.
  - destruct (Hreply reply eq_refl) as [Hne _].
    pose proof (insertMessage_run P s ai reply o
                  (withLog w1 info "chat.message.llm.ok")) as (_ & _ & Hins).
    unfold withLog in Hins.
    destruct (insertMessage P s ai reply None o _) as [[r|e] w2];
      simpl in *.
    + destruct Hins as (a & Hmsgs & Hsender & Htext & Hconv & _).
      eexists _, _. split; [reflexivity|]. left. split; [reflexivity|].
      exists reply, a. simpl. rewrite Hmsgs, Hdb. repeat split; auto.
    + eexists _, _. split; [reflexivity|]. right. simpl.
      rewrite Hins, Hdb. auto.
  - eexists _, _. split; [reflexivity|]. right. simpl. auto.
Qed.

(** X16.  What POST /message has stored can be read off its status.  The
    handler always answers.  After a 200 the table holds two more rows, the
    user's message as it was cleaned and then the reply that the response
    carries, which is not empty, both in the conversation of the session
    the response names; after a 502 it holds one more row, the user's
    message; after any other status it holds the rows it held before. *)
Theorem postMessageHandler_stores_by_status (P : Platform) (env : Env)
  (b : MessageBody) (o : Oracle) (w : World) :
  exists resp w',
    postMessageHandler P env b o w = (Ok resp, w')
    /\ (status resp = 200 ->
        exists message s reply u a,
          parsePostMessage P b = Some (message, s)
          /\ payload resp = ReplyJson reply s /\ reply <> []
          /\ messages (db w') = messages (db w) ++ [u; a]
          /\ m_sender u = user /\ m_text u = cleanOf message
          /\ m_sender a = ai /\ m_text a = reply
          /\ pgUuidIn P s = Some (m_conversation_id u)
          /\ m_conversation_id a = m_conversation_id u)
    /\ (status resp = 502 ->
        exists message s u,
          parsePostMessage P b = Some (message, s)
          /\ messages (db w') = messages (db w) ++ [u]
          /\ m_sender u = user /\ m_text u = cleanOf message
          /\ pgUuidIn P s = Some (m_conversation_id u))
    /\ (status resp <> 200 -> status resp <> 502 ->
        messages (db w') = messages (db w)).
Proof.
  destruct (parsePostMessage P b) as [[message s]|] eqn:Hparse.
  - destruct (jsLength (cleanOf message) =? 0) eqn:Hz.
    { unfold postMessageHandler. rewrite Hparse, Hz.
      eexists _, _. split; [reflexivity|]. simpl.
      repeat split; intros; try discriminate; reflexivity. }
    destruct (jsLength (cleanOf message) >? MAX_MESSAGE_CHARS env) eqn:Hl.
    { unfold postMessageHandler. rewrite Hparse, Hz, Hl.
      eexists _, _. split; [reflexivity|]. simpl.
      repeat split; intros; try discriminate; reflexivity. }
    assert (Hacc : accepted P env b s (cleanOf message)).
    { exists message. split; [exact Hparse|]. split; [reflexivity|].
      split; [|lia]. intros E. rewrite E in Hz. discriminate. }
    rewrite (postMessageHandler_accepted P env b s _ o w Hacc).
    pose proof (sendPrelude_run P env s (cleanOf message) o w) as Hpre.
    destruct (sendPrelude P env s (cleanOf message) o w) as [[recent|e] w1].
    + destruct Hpre as (cid & u & Hcid & _ & Hmsgs & Hsender & Htext & Hconv
                        & _ & _).
      destruct (sendReply_run P env s (cleanOf message) recent o w1)
        as (resp & w' & E & Hresp).
      exists resp, w'. split; [exact E|].
      destruct Hresp as [(Hst & reply & a & Hpay & Hne & Hms & Hsa & Hta & Hca)
                        |(Hst & Hpay & Hdb)].
      * split; [|split]; [|intros H502; lia|intros Hn; contradiction].
        intros _. exists message, s, reply, u, a.
        rewrite Hms, Hmsgs, <- app_assoc. simpl. subst cid.
        repeat split; auto. congruence.
      * split; [|split]; [intros H200; lia| |intros _ Hn; contradiction].
        intros _. exists message, s, u. rewrite Hdb, Hmsgs. subst cid.
        repeat split; auto.
    + unfold failed500. run_monad. eexists _, _. split; [reflexivity|].
      simpl. repeat split; intros; try discriminate. exact Hpre.
  - unfold postMessageHandler. rewrite Hparse.
    eexists _, _. split; [reflexivity|]. simpl.
    repeat split; intros; try discriminate; reflexivity.
Qed.

Lemma cleanOf_blank (m : jsstring) : blank m -> cleanOf (trim m) = [].
Proof.
  intros Hblank. unfold cleanOf. apply trim_blank.
  apply Forall_forall. intros c Hc.
  apply list_elem_of_In, filter_In in Hc as [Hc Hvis].
  apply list_elem_of_In, trim_elem in Hc.
  unfold blank in Hblank. rewrite Forall_forall in Hblank.
  specialize (Hblank c Hc). destruct (isInvisible c); [discriminate|].
  rewrite orb_false_r in Hblank. exact Hblank.
Qed.

(** X17.  A message with nothing to read is refused before anything is
    stored.  When the message consists of white space and of zero-width and
    directional marks (U+200B to U+200F, U+FEFF) only, the handler answers
    400 and the database is not touched, whatever the surroundings do: with
    [Message is empty] when the request is otherwise well formed (something
    is left after trimming, and the session id is a UUID), with
    [Invalid request] when it is not. *)
Theorem postMessageHandler_refuses_blank (P : Platform) (env : Env)
  (b : MessageBody) (m : jsstring) (o : Oracle) (w : World) :
  bodyMessage b = Some m ->
  blank m ->
  exists resp,
    (postMessageHandler P env b o w).1 = Ok resp
    /\ status resp = 400
    /\ db (postMessageHandler P env b o w).2 = db w
    /\ (payload resp = ErrorJson MESSAGE_EMPTY
        \/ payload resp = ErrorJson INVALID_REQUEST)
    /\ (payload resp = ErrorJson MESSAGE_EMPTY
        <-> trim m <> []
            /\ exists s, bodySessionId b = Some s /\ zodUuid P s = true).
Proof.
  intros Hm Hblank. unfold postMessageHandler, parsePostMessage. rewrite Hm.
  destruct (bodySessionId b) as [s|].
  - destruct ((1 <=? jsLength (trim m)) && zodUuid P s) eqn:Hok.
    + cbv zeta. rewrite (cleanOf_blank m Hblank). simpl.
      eexists. split; [reflexivity|]. split; [reflexivity|].
      split; [reflexivity|]. split; [left; reflexivity|].
      split; [|reflexivity]. intros _.
      apply andb_true_iff in Hok as [Hlen Huuid]. split; [|eauto].
      intros E. rewrite E in Hlen. discriminate.
    + run_monad. eexists. split; [reflexivity|]. split; [reflexivity|].
      split; [reflexivity|]. split; [right; reflexivity|].
      split; [discriminate|]. intros (Hne & s' & [= <-] & Huuid).
      rewrite Huuid, andb_true_r in Hok. unfold jsLength in Hok.
      destruct (trim m); [congruence|]. apply Z.leb_gt in Hok.
      cbn [length] in Hok. lia.
  - run_monad. eexists. split; [reflexivity|]. split; [reflexivity|].
    split; [reflexivity|]. split; [right; reflexivity|].
    split; [discriminate|]. intros (_ & s' & [=] & _).
Qed.

Lemma postMessageHandler_refuses_blank_witness :
  exists resp,
    (postMessageHandler refPlatform exampleEnv zeroWidthBody quietOracle
       exampleWorld).1 = Ok resp
    /\ status resp = 400
    /\ db (postMessageHandler refPlatform exampleEnv zeroWidthBody
             quietOracle exampleWorld).2 = db exampleWorld
    /\ (payload resp = ErrorJson MESSAGE_EMPTY
        \/ payload resp = ErrorJson INVALID_REQUEST)
    /\ (payload resp = ErrorJson MESSAGE_EMPTY
        <-> trim [0x200B%N] <> []
            /\ exists s, bodySessionId zeroWidthBody = Some s
                         /\ zodUuid refPlatform s = true).
Proof.
  refine (postMessageHandler_refuses_blank refPlatform exampleEnv
            zeroWidthBody [0x200B%N] quietOracle exampleWorld _ _).
  - reflexivity.
  - repeat constructor.
Defined.

(** ** Cursors, encoded and decoded *)



Lemma split_parts (sep : N) (s : jsstring) :
  split sep s <> [] /\ forall p, p ∈ split sep s -> sep ∉ p.
Proof.
  induction s as [|c s [IHne IH]]; simpl.
  - split; [discriminate|]. intros p Hp.
    apply list_elem_of_singleton in Hp as ->. apply not_elem_of_nil.
  - destruct (c =? sep)%N eqn:E.
    + split; [discriminate|]. intros p Hp.
      apply elem_of_cons in Hp as [->|Hp]; [apply not_elem_of_nil|auto].
    + destruct (split sep s) as [|p0 ps]; [congruence|].
      split; [discriminate|]. intros p Hp.
      apply elem_of_cons in Hp as [->|Hp].
      * apply not_elem_of_cons. split.
        -- intros ->. rewrite N.eqb_refl in E. discriminate.
        -- apply IH. left.
      * apply IH. right. exact Hp.
Qed.

Lemma split_one (sep : N) (s p : jsstring) : split sep s = [p] -> p = s.
Proof.
  revert p. induction s as [|c s IH]; intros p; simpl.
  - intros [= <-]. reflexivity.
  - destruct (c =? sep)%N.
    + pose proof (split_parts sep s) as [Hne _].
      destruct (split sep s); [congruence|discriminate].
    + pose proof (split_parts sep s) as [Hne _].
      destruct (split sep s) as [|q qs]; [congruence|].
      intros [= <- ->]. rewrite (IH q eq_refl). reflexivity.
Qed.

(** X18.  What [parseCursor] lets through.  A cursor it decodes was a
    non-empty string with at most one separator.  With a separator the
    decoded id is the trimmed second segment and passes the UUID validation,
    and the decoded time stamp passes the datetime validation; without one
    there is no id.  In both forms the time stamp is not empty, and it is
    the trimmed first segment when that passes the datetime validation, the
    ISO rendering of what the date parser made of it otherwise.  So the
    older-than query is never handed an unvalidated id. *)
Theorem parseCursor_validated (P : Platform) (cursor : option jsstring)
  (c : Cursor) :
  parseCursor P cursor = Some c ->
  exists raw p0,
    cursor = Some raw /\ raw <> []
    /\ createdAt c <> []
    /\ ((zodDatetime P (trim p0) = true /\ createdAt c = trim p0)
        \/ (zodDatetime P (trim p0) = false
            /\ exists ms, dateParse P (trim p0) = Some ms
                          /\ createdAt c = toISOString P ms))
    /\ match uuid c with
       | Some idText =>
           exists p1, split PIPE raw = [p0; p1] /\ idText = trim p1
                      /\ zodUuid P idText = true
                      /\ zodDatetime P (createdAt c) = true
       | None => split PIPE raw = [p0] /\ raw = p0
       end.
Proof.
  unfold parseCursor. destruct cursor as [[|u raw]|]; simpl truthy;
    cbv iota; try discriminate.
  intros Hc. exists (u :: raw).
  assert (HtoIso : forall p0 iso, toIso P p0 = iso -> truthy iso = true ->
            default [] iso <> []
            /\ ((zodDatetime P (trim p0) = true /\ default [] iso = trim p0)
                \/ (zodDatetime P (trim p0) = false
                    /\ exists ms, dateParse P (trim p0) = Some ms
                                  /\ default [] iso = toISOString P ms))).
  { intros p0 iso <- Ht. split.
    - destruct (toIso P p0) as [[|x t]|]; simpl in *; congruence.
    - unfold toIso in *. destruct (zodDatetime P (trim p0)); [left; auto|].
      right. split; [reflexivity|].
      destruct (dateParse P (trim p0)) as [ms|]; [eauto|discriminate]. }
  simpl default in Hc.
  destruct (split PIPE (u :: raw)) as [|p0 [|p1 [|p2 ps]]] eqn:Hsplit;
    try discriminate.
  - exists p0. destruct (truthy (toIso P p0)) eqn:Ht; [|discriminate].
    injection Hc as <-. simpl.
    destruct (HtoIso p0 _ eq_refl Ht) as [Hne Hform].
    split; [reflexivity|]. split; [discriminate|]. split; [exact Hne|].
    split; [exact Hform|]. split; [reflexivity|].
    symmetry. exact (split_one PIPE (u :: raw) p0 Hsplit).
  - exists p0. destruct (truthy (toIso P p0)) eqn:Ht; [|discriminate].
    destruct (zodDatetime P (default [] (toIso P p0)) && zodUuid P (trim p1))
      eqn:Hv; [|discriminate].
    injection Hc as <-. simpl.
    destruct (HtoIso p0 _ eq_refl Ht) as [Hne Hform].
    apply andb_true_iff in Hv as [Hd Hu].
    split; [reflexivity|]. split; [discriminate|]. split; [exact Hne|].
    split; [exact Hform|]. exists p1. auto.
Qed.

Lemma parseCursor_validated_witness :
  exists raw p0,
    Some (js "2025-12-28|9b2f6c1e-3d4a-4f5b-8c6d-7e8f9a0b1c02") = Some raw
    /\ raw <> []
    /\ js "2025-12-28T00:00:00.000Z" <> []
    /\ ((zodDatetime refPlatform (trim p0) = true
         /\ js "2025-12-28T00:00:00.000Z" = trim p0)
        \/ (zodDatetime refPlatform (trim p0) = false
            /\ exists ms, dateParse refPlatform (trim p0) = Some ms
                          /\ js "2025-12-28T00:00:00.000Z"
                             = toISOString refPlatform ms))
    /\ exists p1, split PIPE raw = [p0; p1]
                  /\ js "9b2f6c1e-3d4a-4f5b-8c6d-7e8f9a0b1c02" = trim p1
                  /\ zodUuid refPlatform
                       (js "9b2f6c1e-3d4a-4f5b-8c6d-7e8f9a0b1c02") = true
                  /\ zodDatetime refPlatform (js "2025-12-28T00:00:00.000Z")
                     = true.
Proof.
  refine (parseCursor_validated refPlatform
            (Some (js "2025-12-28|9b2f6c1e-3d4a-4f5b-8c6d-7e8f9a0b1c02"))
            {| createdAt := js "2025-12-28T00:00:00.000Z";
               uuid := Some (js "9b2f6c1e-3d4a-4f5b-8c6d-7e8f9a0b1c02") |} _).
  vm_compute. reflexivity.
Defined.



(** ** The statement builder *)

Lemma numberOf_snoc (s : jsstring) (d : N) :
  numberOf (s ++ [d]) = 10 * numberOf s + (Z.of_N d - 48).
Proof. unfold numberOf. rewrite fold_left_app. reflexivity. Qed.

Lemma digitsOf_numberOf (fuel : nat) (n : N) :
  (N.to_nat n < fuel)%nat -> numberOf (digitsOf fuel n) = Z.of_N n.
Proof.
  revert n. induction fuel as [|fuel IH]; intros n Hn; [lia|].
  simpl. destruct (n <? 10)%N eqn:E.
  - unfold numberOf. simpl. lia.
  - apply N.ltb_ge in E. rewrite numberOf_snoc, IH.
    + pose proof (N.div_mod n 10 ltac:(lia)) as Hdm.
      pose proof (N.mod_lt n 10 ltac:(lia)). lia.
    + assert (n / 10 < n)%N by (apply N.div_lt; lia). lia.
Qed.

(** The text of a number reads back as the number: the digits are all
    there. *)
Lemma numberText_numberOf (n : nat) : numberOf (numberText n) = Z.of_nat n.
Proof. unfold numberText. rewrite digitsOf_numberOf; lia. Qed.

Lemma sqlLoop_values {V} (strings : list jsstring) (i : nat)
  (values : list V) (text : jsstring) (params : list V) :
  (sqlLoop strings i values text params).2
  = params ++ take (length strings) (drop i values).
Proof.
  revert i text params.
  induction strings as [|chunk rest IH]; intros i text params; simpl.
  - rewrite app_nil_r. reflexivity.
  - destruct (values !! i) as [v|] eqn:Hv.
    + rewrite IH, <- app_assoc. simpl.
      rewrite (drop_S values v i Hv). reflexivity.
    + rewrite IH. apply lookup_ge_None in Hv.
      rewrite !drop_ge by lia. rewrite !take_nil. reflexivity.
Qed.

Lemma sqlLoop_text_blind {V W} (strings : list jsstring) (i : nat)
  (values : list V) (values' : list W) (text : jsstring) (params : list V)
  (params' : list W) :
  length values = length values' -> length params = length params' ->
  (sqlLoop strings i values text params).1
  = (sqlLoop strings i values' text params').1.
Proof.
  intros Hv. revert i text params params'.
  induction strings as [|chunk rest IH]; intros i text params params' Hp;
    simpl; [reflexivity|].
  destruct (values !! i) as [v|] eqn:E; destruct (values' !! i) as [v'|] eqn:E'.
  - rewrite !length_app, Hp. simpl. apply IH. rewrite !length_app, Hp.
    reflexivity.
  - apply lookup_lt_Some in E. apply lookup_ge_None in E'. lia.
  - apply lookup_ge_None in E. apply lookup_lt_Some in E'. lia.
  - apply IH, Hp.
Qed.

Lemma sqlLoop_text_holes {V} (strings : list jsstring) (i : nat)
  (values : list V) (text : jsstring) (params : list V) :
  length strings = S (length values - i) ->
  (sqlLoop strings i values text params).1
  = text ++ holes (S (length params)) strings.
Proof.
  revert i text params.
  induction strings as [|chunk rest IH]; intros i text params Hlen;
    [discriminate|].
  simpl in Hlen. cbn [sqlLoop].
  destruct (values !! i) as [v|] eqn:E.
  - apply lookup_lt_Some in E. cbv zeta. rewrite IH by lia.
    destruct rest as [|chunk' rest']; [simpl in Hlen; lia|].
    rewrite length_app. simpl length.
    replace (length params + 1)%nat with (S (length params)) by lia.
    cbn [holes]. rewrite <- !app_assoc. reflexivity.
  - apply lookup_ge_None in E.
    destruct rest as [|chunk' rest']; [reflexivity|simpl in Hlen; lia].
Qed.

(** X20.  [sql] keeps values out of the statement text.  The text depends
    on the literal chunks and on the number of interpolated values only: two
    calls that differ in the values alone build the same text.  The values
    are returned in the order given.  For a template literal, which has one
    chunk more than it has values, every value is returned, and the text is
    the chunks with [$1], [$2], ... between them, so that the k-th
    placeholder stands where the k-th value was interpolated. *)
Theorem sql_parameterizes {V} (strings : list jsstring)
  (values values' : list V) :
  (sql strings values).2 = take (length strings) values
  /\ (length values = length values' ->
      (sql strings values).1 = (sql strings values').1)
  /\ (length strings = S (length values) ->
      sql strings values = (holes 1 strings, values)).
Proof.
  unfold sql. split; [|split].
  - rewrite sqlLoop_values. reflexivity.
  - intros Hlen. apply sqlLoop_text_blind; [exact Hlen|reflexivity].
  - intros Hlen.
    rewrite (surjective_pairing (sqlLoop strings 0 values [] [])).
    rewrite sqlLoop_values, sqlLoop_text_holes by (rewrite Hlen; lia).
    simpl. rewrite drop_0, take_ge by lia. reflexivity.
Qed.

(** ** The session id of the browser *)

(** X21.  [getOrCreateSessionId] settles on one id.  When the id generator
    gives a non-empty string, the id returned is not empty and is what the
    storage holds under the session key afterwards; no other key of the
    storage is touched; and every later call returns that same id and
    leaves the storage as it is, whatever the generator would give then.
    An empty string stored under the key counts as no id and is replaced. *)
Theorem getOrCreateSessionId_settles (newId newId' : jsstring)
  (localStorage : gmap jsstring jsstring) :
  newId <> [] ->
  (getOrCreateSessionId newId localStorage).1 <> []
  /\ (getOrCreateSessionId newId localStorage).2 !! SESSION_ID_KEY
     = Some (getOrCreateSessionId newId localStorage).1
  /\ (forall k, k <> SESSION_ID_KEY ->
        (getOrCreateSessionId newId localStorage).2 !! k = localStorage !! k)
  /\ getOrCreateSessionId newId' (getOrCreateSessionId newId localStorage).2
     = getOrCreateSessionId newId localStorage
  /\ (localStorage !! SESSION_ID_KEY = Some [] ->
      getOrCreateSessionId newId localStorage
      = (newId, <[SESSION_ID_KEY := newId]> localStorage)).
Proof.
  intros Hne. unfold getOrCreateSessionId.
  destruct (localStorage !! SESSION_ID_KEY) as [[|c t]|] eqn:E; simpl.
  - rewrite lookup_insert_eq. destruct newId as [|c t]; [congruence|]. simpl.
    repeat split; auto. intros k Hk. apply lookup_insert_ne. congruence.
  - rewrite E. simpl. repeat split; auto; discriminate.
  - rewrite lookup_insert_eq. destruct newId as [|c t]; [congruence|]. simpl.
    repeat split; auto; try discriminate.
    intros k Hk. apply lookup_insert_ne. congruence.
Qed.

Lemma getOrCreateSessionId_settles_witness :
  getOrCreateSessionId (js "other") (getOrCreateSessionId exampleSession ∅).2
  = getOrCreateSessionId exampleSession ∅.
Proof.
  refine (proj1 (proj2 (proj2 (proj2
            (getOrCreateSessionId_settles exampleSession (js "other") ∅ _))))).
  vm_compute. discriminate.
Defined.

(** ** The budget, once more *)

Lemma takeLoop_monotone (small large : Z) (rest selected : list ChatTurn)
  (used : Z) :
  small <= large ->
  selectedNewestToOldest (takeLoop small rest selected used)
  `prefix_of` selectedNewestToOldest (takeLoop large rest selected used).
Proof.
  intros Hle. revert selected used.
  induction rest as [|m rest IH]; intros selected used; [reflexivity|].
  rewrite !takeLoop_cons.
  destruct (used + tokensOf m >? small) eqn:Hs;
    destruct (used + tokensOf m >? large) eqn:Hl; try lia.
  - reflexivity.
  - simpl.
    destruct (takeLoop_spec large rest (selected ++ [m]) (used + tokensOf m))
      as (pre & post & _ & Hsel & _).
    rewrite Hsel, <- app_assoc. apply prefix_app_r. reflexivity.
  - apply IH.
Qed.

(** X22.  A larger budget never loses context.  The turns selected under a
    budget are a prefix of the turns selected under any larger budget, and
    the tokens used do not decrease. *)
Theorem takeRecent_monotone_in_budget (small large : Z)
  (newestToOldest : list ChatTurn) :
  small <= large ->
  selectedNewestToOldest (takeRecentWithinTokenBudget small newestToOldest)
  `prefix_of`
  selectedNewestToOldest (takeRecentWithinTokenBudget large newestToOldest)
  /\ usedTokens (takeRecentWithinTokenBudget small newestToOldest)
     <= usedTokens (takeRecentWithinTokenBudget large newestToOldest).
Proof.
  intros Hle.
  pose proof (takeLoop_monotone small large newestToOldest [] 0 Hle) as Hpre.
  split; [exact Hpre|].
  destruct (takeRecent_spec small newestToOldest) as (_ & _ & Hs & _).
  destruct (takeRecent_spec large newestToOldest) as (_ & _ & Hl & _).
  rewrite Hs, Hl. unfold takeRecentWithinTokenBudget in *.
  destruct Hpre as [more ->]. rewrite totalTokens_app.
  pose proof (totalTokens_nonneg more). lia.
Qed.

Lemma takeRecent_monotone_in_budget_witness :
  selectedNewestToOldest
    (takeRecentWithinTokenBudget 2
       [{| role := user; content := js "hello" |};
        {| role := ai; content := js "it ships tomorrow" |}])
  `prefix_of`
  selectedNewestToOldest
    (takeRecentWithinTokenBudget 7
       [{| role := user; content := js "hello" |};
        {| role := ai; content := js "it ships tomorrow" |}]).
Proof.
  refine (proj1 (takeRecent_monotone_in_budget 2 7
            [{| role := user; content := js "hello" |};
             {| role := ai; content := js "it ships tomorrow" |}] _)).
  lia.
Defined.

(** ** The configuration the code runs under *)

Lemma coercePositive_Some (v : QueryNumber) (d : Z) (maximum : option Z)
  (n : Z) :
  0 < d -> (forall m, maximum = Some m -> d <= m) ->
  coercePositive v d maximum = Some n ->
  0 < n /\ (forall m, maximum = Some m -> n <= m)
  /\ (v = Missing -> n = d).
Proof.
  intros Hd Hm. unfold coercePositive. destruct v as [| |k].
  - intros [= <-]. auto.
  - discriminate.
  - destruct (0 <? k) eqn:E; simpl; [|discriminate].
    destruct maximum as [m|].
    + destruct (k <=? m) eqn:E'; [|discriminate]. intros [= <-].
      repeat split; [lia| |discriminate]. intros m' [= <-]. lia.
    + intros [= <-]. repeat split; [lia|discriminate|discriminate].
Qed.

(** X23.  A configuration that passes the schema keeps the code inside its
    bounds.  The page size is between 1 and 100 and the message limit
    between 1 and 10000, with 10 and 2000 when the variables are not set;
    the context budget is at least 1, so that the [max(1, .)] of the model
    call changes nothing; a history request without [limit] is served with
    the configured page size; and the fetch of the send flow is never
    refused for its limit. *)
Theorem envSchema_parse_bounds (e : ProcessEnv.t) (env : Env) :
  envSchema_parse e = Some env ->
  1 <= CHAT_PAGE_SIZE env <= 100
  /\ 1 <= MAX_MESSAGE_CHARS env <= 10000
  /\ budgetOf env = LLM_MAX_CONTEXT_TOKENS env
  /\ OPENAI_API_KEY env = ProcessEnv.OPENAI_API_KEY e
  /\ (ProcessEnv.CHAT_PAGE_SIZE e = Missing -> CHAT_PAGE_SIZE env = 10)
  /\ (ProcessEnv.MAX_MESSAGE_CHARS e = Missing ->
      MAX_MESSAGE_CHARS env = 2000)
  /\ (ProcessEnv.LLM_MAX_CONTEXT_TOKENS e = Missing ->
      LLM_MAX_CONTEXT_TOKENS env = 2000)
  /\ pageSizeOf env Missing = Some (CHAT_PAGE_SIZE env)
  /\ (forall P s o w,
        (getRecentMessages P s (CHAT_PAGE_SIZE env) o w).1
        <> Throw InvalidLimit).
Proof.
  unfold envSchema_parse. intros H.
  destruct (coercePositive (ProcessEnv.PORT e) 3001 None); [|discriminate].
  simpl in H.
  destruct (match ProcessEnv.DATABASE_URL e with
            | Some url => if 1 <=? jsLength url then Some url else None
            | None => None
            end); [|discriminate].
  simpl in H.
  destruct (coercePositive (ProcessEnv.CHAT_PAGE_SIZE e) 10 (Some 100))
    as [pageSize|] eqn:Hpage; [|discriminate].
  simpl in H.
  destruct (coercePositive (ProcessEnv.LLM_MAX_CONTEXT_TOKENS e) 2000 None)
    as [contextTokens|] eqn:Hctx; [|discriminate].
  simpl in H.
  destruct (coercePositive (ProcessEnv.LLM_MAX_COMPLETION_TOKENS e) 400 None);
    [|discriminate].
  simpl in H.
  destruct (coercePositive (ProcessEnv.LLM_TIMEOUT_MS e) 20000 None);
    [|discriminate].
  simpl in H.
  destruct (coercePositive (ProcessEnv.RATE_LIMIT_WINDOW_MS e) 60000 None);
    [|discriminate].
  simpl in H.
  destruct (coercePositive (ProcessEnv.RATE_LIMIT_MAX_REQUESTS e) 60 None);
    [|discriminate].
  simpl in H.
  destruct (coercePositive (ProcessEnv.MAX_MESSAGE_CHARS e) 2000 (Some 10000))
    as [messageChars|] eqn:Hchars; [|discriminate].
  simpl in H. injection H as <-. simpl.
  apply coercePositive_Some in Hpage as (Hp1 & Hp2 & Hp3);
    [|lia|intros m [= <-]; lia].
  apply coercePositive_Some in Hctx as (Hc1 & _ & Hc3);
    [|lia|discriminate].
  apply coercePositive_Some in Hchars as (Hm1 & Hm2 & Hm3);
    [|lia|intros m [= <-]; lia].
  specialize (Hp2 100 eq_refl). specialize (Hm2 10000 eq_refl).
  split; [lia|]. split; [lia|]. split; [unfold budgetOf; simpl; lia|].
  split; [reflexivity|]. split; [exact Hp3|]. split; [exact Hm3|].
  split; [exact Hc3|]. split.
  - unfold pageSizeOf. simpl. destruct (1 <=? pageSize) eqn:E; [reflexivity|lia].
  - intros P s o w. unfold getRecentMessages. run_monad.
    destruct (queryFails o (draws w)); simpl; [discriminate|].
    destruct (pgUuidIn P s); simpl; [|discriminate].
    destruct (pageSize <? 0) eqn:E; [lia|]. simpl. discriminate.
Qed.

Lemma envSchema_parse_bounds_witness :
  1 <= 10 <= 100
  /\ 1 <= 2000 <= 10000
  /\ budgetOf {| CHAT_PAGE_SIZE := 10; OPENAI_API_KEY := None;
                 LLM_MAX_CONTEXT_TOKENS := 2000; MAX_MESSAGE_CHARS := 2000 |}
     = 2000.
Proof.
  pose proof (envSchema_parse_bounds bareProcessEnv
                {| CHAT_PAGE_SIZE := 10; OPENAI_API_KEY := None;
                   LLM_MAX_CONTEXT_TOKENS := 2000;
                   MAX_MESSAGE_CHARS := 2000 |} eq_refl)
    as (H1 & H2 & H3 & _).
  exact (conj H1 (conj H2 H3)).
Defined.
